(** * FORD relationship graphs: node registry and bounded graph builder

    A shallow embedding of [ford/graphs.py]: the entity classifier, the
    node registry [GraphData], the node constructors ([ModNode], [SubmodNode],
    [TypeNode], [ProcNode], [ProgNode], [BlockNode], [FileNode]) and the
    hop-limited graph builder [FortranGraph] with its twelve variants.

    The graph manager and the writing of image files are not part of it.

    Python objects live in explicit stores: entity objects of
    [ford.sourceform] in [objs], graph nodes in [heap]; a reference is an
    index into its store.  Code that raises is modelled in an exception
    monad; recursion that Python leaves unbounded carries a fuel argument
    and answers [Diverge] when the fuel is used up. *)

From stdpp Require Import base option list gmap strings sorting pretty.
From Stdlib Require Import ZArith Lia Ascii.

Local Open Scope string_scope.
Local Open Scope Z_scope.
Local Open Scope list_scope.

(** ** Python values *)

Module Py.

(** Exceptions the modelled code can raise. [Dangling] is not a Python
    exception: it marks a reference outside its store, which a running
    interpreter never holds. *)
Inductive exn :=
  | BadType (value : string)
  | KeyError
  | IndexError
  | AttributeError (attr : string)
  | TypeError
  | NotImplementedError
  | Dangling.

Inductive result (A : Type) :=
  | Ok (a : A)
  | Raise (e : exn)
  | Diverge.
Arguments Ok {A} a.
Arguments Raise {A} e.
Arguments Diverge {A}.

#[export] Instance result_ret : MRet result := λ A a, Ok a.
#[export] Instance result_bind : MBind result := λ A B f m,
  match m with
  | Ok a => f a
  | Raise e => Raise e
  | Diverge => Diverge
  end.

(** A value as the graph code meets it in a relation list: [None], a
    boolean, a string, or a reference to an entity object. *)
Inductive val :=
  | PNone
  | PBool (b : bool)
  | PStr (s : string)
  | PObj (o : nat).

#[export] Instance val_eq_dec : EqDecision val.
Proof. solve_decision. Defined.

(** Truth value of [if v:]; entity objects define neither [__bool__] nor
    [__len__]. *)
Definition truthy (v : val) : bool :=
  match v with
  | PNone => false
  | PBool b => b
  | PStr s => negb (String.eqb s EmptyString)
  | PObj _ => true
  end.

Definition dq : string := String (ascii_of_nat 34) EmptyString.
Definition sq : string := String (ascii_of_nat 39) EmptyString.
Definition nl : string := String (ascii_of_nat 10) EmptyString.
Definition period : string := String (ascii_of_nat 46) EmptyString.

(** [str.lower()] on ASCII letters. *)
Definition lower_ascii (c : ascii) : ascii :=
  let n := nat_of_ascii c in
  if ((65 <=? n) && (n <=? 90))%nat then ascii_of_nat (n + 32) else c.

Fixpoint lower (s : string) : string :=
  match s with
  | EmptyString => EmptyString
  | String c s' => String (lower_ascii c) (lower s')
  end.

(** [s[1:-1]] *)
Definition slice_1_m1 (s : string) : string :=
  String.substring 1 (String.length s - 2) s.

(** [s.replace(old, new)] for a non-empty [old]: [skip] counts the
    characters of a match still to be dropped. *)
Fixpoint replace_go (old new : string) (skip : nat) (s : string) : string :=
  match s with
  | EmptyString => EmptyString
  | String c s' =>
      match skip with
      | S k => replace_go old new k s'
      | O =>
          if String.prefix old s
          then new +:+ replace_go old new (String.length old - 1) s'
          else String c (replace_go old new O s')
      end
  end.

Definition replace (old new s : string) : string := replace_go old new O s.

(** [re.sub] with the pattern that matches every non-word character and an
    empty replacement, on ASCII text. *)
Definition is_word_char (c : ascii) : bool :=
  let n := nat_of_ascii c in
  (((48 <=? n) && (n <=? 57)) || ((65 <=? n) && (n <=? 90))
   || ((97 <=? n) && (n <=? 122)) || (n =? 95))%nat.

Fixpoint sub_nonword (s : string) : string :=
  match s with
  | EmptyString => EmptyString
  | String c s' =>
      if is_word_char c then String c (sub_nonword s') else sub_nonword s'
  end.

End Py.
Export Py.

(** ** Entities of [ford.sourceform] *)

Module Source.

(** The classes [graphs.py] imports from [ford.sourceform], the builtin
    types a relation list can hold, and [OtherClass] for every other class. *)
Inductive pyclass :=
  | ExternalFunction | ExternalInterface | ExternalModule | ExternalProgram
  | ExternalSourceFile | ExternalSubmodule | ExternalSubroutine | ExternalType
  | FortranBlockData | FortranFunction | FortranInterface | FortranModule
  | FortranProgram | FortranSourceFile | FortranSubmodule
  | FortranSubmoduleProcedure | FortranSubroutine | FortranType
  | PyStr | PyNoneType | PyBool
  | OtherClass (name : string).

#[export] Instance pyclass_eq_dec : EqDecision pyclass.
Proof. solve_decision. Defined.

(** [type(obj).__name__] *)
Definition class_name (c : pyclass) : string :=
  match c with
  | ExternalFunction => "ExternalFunction"
  | ExternalInterface => "ExternalInterface"
  | ExternalModule => "ExternalModule"
  | ExternalProgram => "ExternalProgram"
  | ExternalSourceFile => "ExternalSourceFile"
  | ExternalSubmodule => "ExternalSubmodule"
  | ExternalSubroutine => "ExternalSubroutine"
  | ExternalType => "ExternalType"
  | FortranBlockData => "FortranBlockData"
  | FortranFunction => "FortranFunction"
  | FortranInterface => "FortranInterface"
  | FortranModule => "FortranModule"
  | FortranProgram => "FortranProgram"
  | FortranSourceFile => "FortranSourceFile"
  | FortranSubmodule => "FortranSubmodule"
  | FortranSubmoduleProcedure => "FortranSubmoduleProcedure"
  | FortranSubroutine => "FortranSubroutine"
  | FortranType => "FortranType"
  | PyStr => "str"
  | PyNoneType => "NoneType"
  | PyBool => "bool"
  | OtherClass name => name
  end.

(** Modelled from the spec: the class hierarchy of [ford.sourceform], which
    is not part of this file's source. Each external placeholder class is
    the "external/placeholder variant" of its kind (the legend code of
    [graphs.py] looks such placeholders up in the registry), and a
    submodule is a module, which is why the classifier tests
    [is_submodule] first. [direct_base c] is the base class of [c] among
    the imported classes. *)
Definition direct_base (c : pyclass) : option pyclass :=
  match c with
  | ExternalFunction => Some FortranFunction
  | ExternalInterface => Some FortranInterface
  | ExternalModule => Some FortranModule
  | ExternalProgram => Some FortranProgram
  | ExternalSourceFile => Some FortranSourceFile
  | ExternalSubmodule => Some FortranSubmodule
  | ExternalSubroutine => Some FortranSubroutine
  | ExternalType => Some FortranType
  | FortranSubmodule => Some FortranModule
  | _ => None
  end.

(** [issubclass(c, d)]; the hierarchy above is two levels deep. *)
Definition issubclass (c d : pyclass) : bool :=
  bool_decide (c = d)
  || match direct_base c with
     | Some b =>
         bool_decide (b = d)
         || match direct_base b with
            | Some b' => bool_decide (b' = d)
            | None => false
            end
     | None => false
     end.

Definition issubclass_any (c : pyclass) (ds : list pyclass) : bool :=
  existsb (issubclass c) ds.

(** A local variable of a derived type: [var.vartype], [var.proto],
    [var.name]. *)
Record Variable_ := {
  vartype : string;
  proto : list val;
  var_name : string;
}.

(** An entity object, with the attributes the graph code reads. An
    attribute read through [getattr(obj, a, default)] or [hasattr] is an
    [option]: [None] says the object has no such attribute. *)
Record FortranObj := {
  cls : pyclass;
  name : string;
  ident : string;
  get_dir : option string;
  get_url : option string;
  visible : option bool;
  external_url : option string;
  proctype : option string;
  uses : option (list val);
  calls : option (list val);
  extends : val;
  local_variables : list Variable_;
  modprocs : option (list val);          (* [m.procedure] of each entry *)
  procedure_module : option val;         (* [obj.procedure.module] *)
  parent_submodule : val;
  ancestor_module : val;
  modules : list nat;
  submodules : list nat;
  functions : list nat;
  subroutines : list nat;
  programs : list nat;
  blockdata : list nat;
  deplist : list nat;
  hierarchy : list val;
  graph_maxdepth : Z;                    (* [int(meta["graph_maxdepth"])] *)
  graph_maxnodes : Z;                    (* [int(meta["graph_maxnodes"])] *)
  settings_warn : bool;                  (* [settings["warn"]] *)
}.

(** Modelled from the spec: the constructor of an external placeholder,
    [ExternalModule(name)] and its siblings, from [ford.sourceform]: an
    entity "known only by a display name", which "carries no further
    relation data". *)
Definition external (c : pyclass) (nm : string) : FortranObj := {|
  cls := c; name := nm; ident := nm;
  get_dir := None; get_url := None; visible := None;
  external_url := Some EmptyString; proctype := None;
  uses := Some []; calls := Some [];
  extends := PNone; local_variables := [];
  modprocs := None; procedure_module := None;
  parent_submodule := PNone; ancestor_module := PNone;
  modules := []; submodules := []; functions := []; subroutines := [];
  programs := []; blockdata := []; deplist := []; hierarchy := [];
  graph_maxdepth := 0; graph_maxnodes := 0; settings_warn := false;
|}.

End Source.
Export Source.

(** ** Graph nodes and the store *)

Module Store.

(** The node classes; [SubmodNode] derives from [ModNode]. *)
Inductive NodeType :=
  | ModNode | SubmodNode | TypeNode | ProcNode | ProgNode | BlockNode
  | FileNode.

#[export] Instance NodeType_eq_dec : EqDecision NodeType.
Proof. solve_decision. Defined.

(** A reference to a node object: its address in the heap, with its class
    and its [ident], both fixed by [BaseNode.__init__] before the node is
    shared. Two references to the same instance have the same [addr]. *)
Record NodeRef := {
  addr : nat;
  node_ident : string;
  node_type : NodeType;
}.

#[export] Instance NodeRef_eq_dec : EqDecision NodeRef.
Proof. solve_decision. Defined.

(** [BaseNode.__eq__] and [BaseNode.__lt__] *)
Definition node_eq (a b : NodeRef) : bool :=
  String.eqb (node_ident a) (node_ident b).

Definition node_lt (a b : NodeRef) : bool :=
  String.ltb (node_ident a) (node_ident b).

(** A Python [set] of nodes: no two members are [node_eq]; the list order
    is the order of insertion, one admissible iteration order. *)
Definition set_in (x : NodeRef) (s : list NodeRef) : bool :=
  existsb (node_eq x) s.

Definition set_add (x : NodeRef) (s : list NodeRef) : list NodeRef :=
  if set_in x s then s else s ++ [x].

Definition set_update (s xs : list NodeRef) : list NodeRef :=
  foldl (λ acc x, set_add x acc) s xs.

(** [sorted(xs)]: a stable sort that compares with [<] only. *)
Fixpoint insert_sorted {A} (lt : A → A → bool) (x : A) (l : list A) : list A :=
  match l with
  | [] => [x]
  | y :: l' => if lt y x then y :: insert_sorted lt x l' else x :: y :: l'
  end.

Definition sorted_by {A} (lt : A → A → bool) (l : list A) : list A :=
  foldr (insert_sorted lt) [] l.

Definition sorted (l : list NodeRef) : list NodeRef := sorted_by node_lt l.

(** A [dict] keyed by nodes (insertion-ordered). *)
Fixpoint dict_get (k : NodeRef) (d : list (NodeRef * string)) : option string :=
  match d with
  | [] => None
  | (k', v) :: d' => if node_eq k k' then Some v else dict_get k d'
  end.

Fixpoint dict_set (k : NodeRef) (v : string) (d : list (NodeRef * string))
  : list (NodeRef * string) :=
  match d with
  | [] => [(k, v)]
  | (k', v') :: d' =>
      if node_eq k k' then (k', v) :: d' else (k', v') :: dict_set k v d'
  end.

(** The value of a node attribute. *)
Inductive attrval :=
  | ANone
  | ABool (b : bool)
  | AInt (z : Z)
  | AStr (s : string)
  | ANode (r : NodeRef)
  | ASet (s : list NodeRef)
  | ADict (d : list (NodeRef * string))
  | AAttribs (d : list (string * string)).

(** A node object: its class and its instance [__dict__]. *)
Record Node := {
  n_class : NodeType;
  n_dict : gmap string attrval;
}.

(** Dictionaries of the registry. *)
Inductive Collection :=
  | Submodules | Modules | Types | Procedures | Programs | Sourcefiles
  | Blockdata.

#[export] Instance Collection_eq_dec : EqDecision Collection.
Proof. solve_decision. Defined.

(** [GraphData]: one dictionary per kind, from entity object to node. *)
Record GraphData := {
  gd_submodules : gmap nat NodeRef;
  gd_modules : gmap nat NodeRef;
  gd_types : gmap nat NodeRef;
  gd_procedures : gmap nat NodeRef;
  gd_programs : gmap nat NodeRef;
  gd_sourcefiles : gmap nat NodeRef;
  gd_blockdata : gmap nat NodeRef;
}.

(** [GraphData.__init__] *)
Definition GraphData_init : GraphData :=
  {| gd_submodules := ∅; gd_modules := ∅; gd_types := ∅; gd_procedures := ∅;
     gd_programs := ∅; gd_sourcefiles := ∅; gd_blockdata := ∅ |}.

Definition collection (c : Collection) (d : GraphData) : gmap nat NodeRef :=
  match c with
  | Submodules => gd_submodules d
  | Modules => gd_modules d
  | Types => gd_types d
  | Procedures => gd_procedures d
  | Programs => gd_programs d
  | Sourcefiles => gd_sourcefiles d
  | Blockdata => gd_blockdata d
  end.

Definition set_collection (c : Collection) (m : gmap nat NodeRef)
    (d : GraphData) : GraphData :=
  match c with
  | Submodules =>
      {| gd_submodules := m; gd_modules := gd_modules d;
         gd_types := gd_types d; gd_procedures := gd_procedures d;
         gd_programs := gd_programs d; gd_sourcefiles := gd_sourcefiles d;
         gd_blockdata := gd_blockdata d |}
  | Modules =>
      {| gd_submodules := gd_submodules d; gd_modules := m;
         gd_types := gd_types d; gd_procedures := gd_procedures d;
         gd_programs := gd_programs d; gd_sourcefiles := gd_sourcefiles d;
         gd_blockdata := gd_blockdata d |}
  | Types =>
      {| gd_submodules := gd_submodules d; gd_modules := gd_modules d;
         gd_types := m; gd_procedures := gd_procedures d;
         gd_programs := gd_programs d; gd_sourcefiles := gd_sourcefiles d;
         gd_blockdata := gd_blockdata d |}
  | Procedures =>
      {| gd_submodules := gd_submodules d; gd_modules := gd_modules d;
         gd_types := gd_types d; gd_procedures := m;
         gd_programs := gd_programs d; gd_sourcefiles := gd_sourcefiles d;
         gd_blockdata := gd_blockdata d |}
  | Programs =>
      {| gd_submodules := gd_submodules d; gd_modules := gd_modules d;
         gd_types := gd_types d; gd_procedures := gd_procedures d;
         gd_programs := m; gd_sourcefiles := gd_sourcefiles d;
         gd_blockdata := gd_blockdata d |}
  | Sourcefiles =>
      {| gd_submodules := gd_submodules d; gd_modules := gd_modules d;
         gd_types := gd_types d; gd_procedures := gd_procedures d;
         gd_programs := gd_programs d; gd_sourcefiles := m;
         gd_blockdata := gd_blockdata d |}
  | Blockdata =>
      {| gd_submodules := gd_submodules d; gd_modules := gd_modules d;
         gd_types := gd_types d; gd_procedures := gd_procedures d;
         gd_programs := gd_programs d; gd_sourcefiles := gd_sourcefiles d;
         gd_blockdata := m |}
  end.

(** The state the registry code runs in: the entity objects, the node
    objects, and the registry. *)
Record State := {
  objs : list FortranObj;
  heap : list Node;
  data : GraphData;
}.

(** State and exception monad. *)
Definition M (A : Type) : Type := State → result (A * State).

#[export] Instance M_ret : MRet M := λ A a s, Ok (a, s).
#[export] Instance M_bind : MBind M := λ A B f m s,
  match m s with
  | Ok (a, s') => f a s'
  | Raise e => Raise e
  | Diverge => Diverge
  end.

Definition raise {A} (e : exn) : M A := λ _, Raise e.
Definition diverge {A} : M A := λ _, Diverge.
Definition lift {A} (r : result A) : M A := λ s,
  match r with
  | Ok a => Ok (a, s)
  | Raise e => Raise e
  | Diverge => Diverge
  end.

(** [for x in xs: body(x)] *)
Fixpoint for_ {A} (xs : list A) (body : A → M ()) : M () :=
  match xs with
  | [] => mret ()
  | x :: xs' => body x ;; for_ xs' body
  end.

(** Reading the stores. *)
Definition deref (o : nat) : M FortranObj := λ s,
  match objs s !! o with
  | Some x => Ok (x, s)
  | None => Raise Dangling
  end.

Definition node_at (r : NodeRef) : M Node := λ s,
  match heap s !! addr r with
  | Some n => Ok (n, s)
  | None => Raise Dangling
  end.

(** Creating an object: a new entity (a placeholder) or a new node. *)
Definition new_obj (x : FortranObj) : M val := λ s,
  Ok (PObj (length (objs s)),
      {| objs := objs s ++ [x]; heap := heap s; data := data s |}).

Definition new_node (t : NodeType) (id : string) (d : gmap string attrval)
  : M NodeRef := λ s,
  Ok ({| addr := length (heap s); node_ident := id; node_type := t |},
      {| objs := objs s;
         heap := heap s ++ [{| n_class := t; n_dict := d |}];
         data := data s |}).

(** Attribute access on a node: [n.a], [n.a = v], [del n.a],
    [hasattr(n, a)]. *)
Definition getattr (r : NodeRef) (a : string) : M attrval :=
  n ← node_at r;
  match n_dict n !! a with
  | Some v => mret v
  | None => raise (AttributeError a)
  end.

Definition hasattr (r : NodeRef) (a : string) : M bool :=
  n ← node_at r; mret (bool_decide (is_Some (n_dict n !! a))).

Definition setattr (r : NodeRef) (a : string) (v : attrval) : M () := λ s,
  match heap s !! addr r with
  | Some n =>
      Ok ((), {| objs := objs s;
                 heap := <[addr r := {| n_class := n_class n;
                                        n_dict := <[a := v]> (n_dict n) |}]>
                           (heap s);
                 data := data s |})
  | None => Raise Dangling
  end.

Definition delattr (r : NodeRef) (a : string) : M () := λ s,
  match heap s !! addr r with
  | Some n =>
      match n_dict n !! a with
      | Some _ =>
          Ok ((), {| objs := objs s;
                     heap := <[addr r := {| n_class := n_class n;
                                            n_dict := delete a (n_dict n) |}]>
                               (heap s);
                     data := data s |})
      | None => Raise (AttributeError a)
      end
  | None => Raise Dangling
  end.

(** [n.a.add(x)] for a set-valued attribute. *)
Definition attr_add (r : NodeRef) (a : string) (x : NodeRef) : M () :=
  v ← getattr r a;
  match v with
  | ASet s => setattr r a (ASet (set_add x s))
  | _ => raise (AttributeError "add")
  end.

(** [n.a += k] for an integer attribute. *)
Definition attr_incr (r : NodeRef) (a : string) (k : attrval) : M () :=
  v ← getattr r a;
  match v, k with
  | AInt z, AInt z' => setattr r a (AInt (z + z'))
  | _, _ => raise TypeError
  end.

(** [if self in n.a: n.a[self] += ", " + name else: n.a[self] = name]
    for a dict-valued attribute. *)
Definition attr_label (r : NodeRef) (a : string) (k : NodeRef)
    (nm : string) : M () :=
  v ← getattr r a;
  match v with
  | ADict d =>
      match dict_get k d with
      | Some old => setattr r a (ADict (dict_set k (old +:+ ", " +:+ nm) d))
      | None => setattr r a (ADict (dict_set k nm d))
      end
  | _ => raise TypeError
  end.

(** The registry dictionaries: [obj in collection], [collection[obj]],
    [collection[obj] = node]. *)
Definition coll_contains (c : Collection) (o : nat) : M bool := λ s,
  Ok (bool_decide (is_Some (collection c (data s) !! o)), s).

Definition coll_getitem (c : Collection) (o : nat) : M NodeRef := λ s,
  match collection c (data s) !! o with
  | Some r => Ok (r, s)
  | None => Raise KeyError
  end.

Definition coll_setitem (c : Collection) (o : nat) (r : NodeRef) : M () := λ s,
  Ok ((), {| objs := objs s; heap := heap s;
             data := set_collection c (<[o := r]> (collection c (data s)))
                       (data s) |}).

End Store.
Export Store.

(** ** Module-level configuration and external collaborators *)

Module Graphviz.

(** The dict built by [_edge]. *)
Record Edge := {
  tail_name : string;
  head_name : string;
  style : string;
  color : string;
  label : option string;
}.

(** What a graph sends to its [Digraph]: [dot.node], [dot.edge],
    [dot.attr]. *)
Inductive DotStmt :=
  | DotNode (nm : string) (attrs : list (string * string))
  | DotEdge (e : Edge)
  | DotAttr (kw : string) (attrs : list (string * string)).

Record Digraph := {
  dot_name : string;
  dot_rankdir : string;
  dot_body : list DotStmt;
}.

End Graphviz.
Export Graphviz.

(** The globals of [graphs.py] ([graphviz_installed], [_coloured_edges],
    [_parentdir]) and the library calls it relies on: the three regular
    expressions, [str.strip], the colour string [rainbowcolour] formats from
    [colorsys.hsv_to_rgb], the renderer behind [Digraph.pipe], and the four
    legend images rendered when the module is loaded. *)
Record Config := {
  graphviz_installed : bool;
  _coloured_edges : bool;
  _parentdir : string;
  HYPERLINK_RE_match : string → option (string * string);
  EM_RE_search : string → option string;
  WIDTH_RE_search : string → option Z;
  strip : string → string;
  hsv_colour : nat → nat → string;
  dot_pipe : Digraph → string;
  mod_svg : string;
  type_svg : string;
  call_svg : string;
  file_svg : string;
}.

(** ** The node registry *)

Module Registry.

Section WithConfig.
Context (cfg : Config).

(** *** Entity classifier *)

Definition isinstance (c : pyclass) (ds : list pyclass) : bool :=
  issubclass_any c ds.

Definition is_module (c : pyclass) : bool := isinstance c [FortranModule].
Definition is_submodule (c : pyclass) : bool := isinstance c [FortranSubmodule].
Definition is_type (c : pyclass) : bool := isinstance c [FortranType].
Definition is_proc (c : pyclass) : bool :=
  isinstance c [FortranFunction; FortranSubroutine; FortranInterface;
                FortranSubmoduleProcedure].
Definition is_program (c : pyclass) : bool := isinstance c [FortranProgram].
Definition is_sourcefile (c : pyclass) : bool :=
  isinstance c [FortranSourceFile].
Definition is_blockdata (c : pyclass) : bool := isinstance c [FortranBlockData].

Definition bad_type_message (c : pyclass) : string :=
  "Unrecognised object type '" +:+ class_name c
  +:+ "' when constructing graphs".

(** The chain of tests of [GraphData._get_collection_and_node_type], on the
    class of its argument. *)
Definition collection_and_node_type (c : pyclass)
  : result (Collection * NodeType) :=
  if is_submodule c then Ok (Submodules, SubmodNode)
  else if is_module c then Ok (Modules, ModNode)
  else if is_type c then Ok (Types, TypeNode)
  else if is_proc c then Ok (Procedures, ProcNode)
  else if is_program c then Ok (Programs, ProgNode)
  else if is_sourcefile c then Ok (Sourcefiles, FileNode)
  else if is_blockdata c then Ok (Blockdata, BlockNode)
  else Raise (BadType (bad_type_message c)).

Definition type_of (obj : val) : M pyclass :=
  match obj with
  | PNone => mret PyNoneType
  | PBool _ => mret PyBool
  | PStr _ => mret PyStr
  | PObj o => x ← deref o; mret (cls x)
  end.

(** [GraphData._get_collection_and_node_type]; an accepted argument is an
    entity object, whose reference is the key of the dictionary. *)
Definition _get_collection_and_node_type (obj : val)
  : M (nat * Collection * NodeType) :=
  c ← type_of obj;
  '(coll, t) ← lift (collection_and_node_type c);
  match obj with
  | PObj o => mret (o, coll, t)
  | _ => raise (BadType (bad_type_message c))
  end.

(** *** Reading entity attributes *)

Definition obj_of (a : string) (obj : val) : M FortranObj :=
  match obj with
  | PObj o => deref o
  | _ => raise (AttributeError a)
  end.

(** [obj.a] for an attribute that may be absent. *)
Definition required {A} (a : string) (x : option A) : M A :=
  match x with
  | Some v => mret v
  | None => raise (AttributeError a)
  end.

(** [getattr(v, "visible", default)] *)
Definition getattr_visible (v : val) (default : bool) : M bool :=
  match v with
  | PObj o => x ← deref o; mret (from_option id default (visible x))
  | _ => mret default
  end.

(** [hist] maps the entities under construction on the current chain to
    their nodes. *)
Definition in_hist (v : val) (hist : gmap nat NodeRef) : option NodeRef :=
  match v with
  | PObj o => hist !! o
  | _ => None
  end.

Definition newdict (old : gmap nat NodeRef) (key : val) (v : NodeRef)
  : gmap nat NodeRef :=
  match key with
  | PObj o => <[o := v]> old
  | _ => old
  end.

(** *** Node constructors *)

Definition External_classes : list pyclass :=
  [ExternalModule; ExternalSubmodule; ExternalType; ExternalSubroutine;
   ExternalFunction; ExternalInterface; ExternalSubroutine; ExternalProgram;
   ExternalSourceFile].

(** The class attribute [colour]; for [ProcNode] the property that looks
    [proctype.lower()] up in [COLOURS]. *)
Definition colour (t : NodeType) (ptype : string) : string :=
  match t with
  | ModNode => "#337AB7"
  | SubmodNode => "#5bc0de"
  | TypeNode => "#5cb85c"
  | ProcNode =>
      let p := lower ptype in
      if String.eqb p "subroutine" then "#d9534f"
      else if String.eqb p "function" then "#d94e8f"
      else if String.eqb p "interface" then "#A7506F"
      else "#777777"
  | ProgNode => "#f0ad4e"
  | BlockNode => "#5cb85c"
  | FileNode => "#f0ad4e"
  end.

Definition url_truthy (u : option string) : bool :=
  match u with
  | Some s => negb (String.eqb s EmptyString)
  | None => false
  end.

Definition opt_str (u : option string) : attrval :=
  match u with
  | Some s => AStr s
  | None => ANone
  end.

(** [BaseNode.__init__]: the ident, [fromstr] and the attributes it sets.
    [t] and [ptype] give [self.colour]. *)
Definition BaseNode_init (t : NodeType) (ptype : string) (obj : val)
  : M (string * bool * gmap string attrval) :=
  c ← type_of obj;
  let attribs := [("color", colour t ptype); ("fontcolor", "white");
                  ("style", "filled")] in
  '(fromstr, obj) ←
    (if isinstance c External_classes
     then x ← obj_of "name" obj; mret (true, PStr (name x))
     else mret (bool_decide (c = PyStr), obj));
  '(url, nm, id) ←
    (if fromstr : bool then
       match obj with
       | PStr s =>
           match HYPERLINK_RE_match cfg s with
           | Some (g1, g2) => mret (Some (slice_1_m1 g1), g2, g2)
           | None => mret (None, s, s)
           end
       | _ => raise TypeError
       end
     else
       x ← obj_of "get_dir" obj;
       let d := match get_dir x with
                | Some d => if String.eqb d EmptyString then "none" else d
                | None => "none"
                end in
       let nm := match EM_RE_search cfg (name x) with
                 | Some g => "<<i>" +:+ strip cfg g +:+ "</i>>"
                 | None => name x
                 end in
       mret (get_url x, nm, d +:+ "~" +:+ ident x));
  let attribs := (attribs ++ [("label", nm)])%list in
  vis ← getattr_visible obj true;
  ext ← match obj with
        | PObj o => x ← deref o; mret (bool_decide (is_Some (external_url x)))
        | _ => mret false
        end;
  let attribs :=
    if url_truthy url && vis then
      if fromstr || ext
      then (attribs ++ [("URL", default EmptyString url)])%list
      else (attribs ++ [("URL", _parentdir cfg +:+ default EmptyString url)])%list
    else attribs in
  mret (id, fromstr,
        <["efferent" := AInt 0]> (<["afferent" := AInt 0]>
        (<["ident" := AStr id]> (<["name" := AStr nm]>
        (<["url" := opt_str url]> (<["fromstr" := ABool fromstr]>
        (<["attribs" := AAttribs attribs]> ∅))))))).

Definition GetNode : Type := val → option (gmap nat NodeRef) → M NodeRef.

(** [ModNode.__init__], also run by [SubmodNode] through [super()]; [t] is
    the class of the object under construction. [hist] is not used. *)
Definition ModNode_init (t : NodeType) (get_node : GetNode) (obj : val)
    (hist : option (gmap nat NodeRef)) : M NodeRef :=
  '(id, fromstr, d) ← BaseNode_init t EmptyString obj;
  self ← new_node t id
    (<["children" := ASet []]> (<["used_by" := ASet []]>
     (<["uses" := ASet []]> d)));
  if fromstr : bool then mret self else
  x ← obj_of "uses" obj;
  us ← required "uses" (uses x);
  for_ us (λ u,
    n ← get_node u None;
    attr_add n "used_by" self;;
    attr_incr n "afferent" (AInt 1);;
    attr_add self "uses" n;;
    e ← getattr n "efferent";
    attr_incr self "efferent" e);;
  mret self.

(** [self.fromstr] *)
Definition self_fromstr (self : NodeRef) : M bool :=
  v ← getattr self "fromstr";
  match v with
  | ABool b => mret b
  | _ => mret true
  end.

(** [SubmodNode.__init__] *)
Definition SubmodNode_init (get_node : GetNode) (obj : val)
    (hist : option (gmap nat NodeRef)) : M NodeRef :=
  self ← ModNode_init SubmodNode get_node obj None;
  delattr self "used_by";;
  fromstr ← self_fromstr self;
  if fromstr : bool then mret self else
  x ← obj_of "parent_submodule" obj;
  ancestor ← (if truthy (parent_submodule x)
              then get_node (parent_submodule x) None
              else get_node (ancestor_module x) None);
  setattr self "ancestor" (ANode ancestor);;
  attr_add ancestor "children" self;;
  attr_incr self "efferent" (AInt 1);;
  attr_incr ancestor "afferent" (AInt 1);;
  mret self.

(** The node of a relation target guarded by [hist]: [hist[v]] when [v] is
    on the current chain, a registry lookup that extends the chain
    otherwise. *)
Definition hist_or_get (get_node : GetNode) (hist : gmap nat NodeRef)
    (obj : val) (self : NodeRef) (v : val) : M NodeRef :=
  match in_hist v hist with
  | Some n => mret n
  | None => get_node v (Some (newdict hist obj self))
  end.

(** [TypeNode.__init__] *)
Definition TypeNode_init (get_node : GetNode) (obj : val)
    (hist : option (gmap nat NodeRef)) : M NodeRef :=
  '(id, fromstr, d) ← BaseNode_init TypeNode EmptyString obj;
  self ← new_node TypeNode id
    (<["comp_of" := ADict []]> (<["comp_types" := ADict []]>
     (<["children" := ASet []]> (<["ancestor" := ANone]> d))));
  let hist := default ∅ hist in
  if fromstr : bool then mret self else
  x ← obj_of "external_url" obj;
  if bool_decide (is_Some (external_url x)) then mret self else
  (if truthy (extends x) then
     ancestor ← hist_or_get get_node hist obj self (extends x);
     setattr self "ancestor" (ANode ancestor);;
     attr_add ancestor "children" self;;
     vis ← getattr_visible (extends x) true;
     setattr ancestor "visible" (ABool vis)
   else mret ());;
  for_ (local_variables x) (λ var,
    if negb (bool_decide (vartype var ∈ ["type"; "class"])) then mret () else
    match proto var with
    | [] => raise IndexError
    | proto :: _ =>
        if bool_decide (proto = PStr "*") then mret () else
        node ← (if bool_decide (proto = obj) then mret self
                else hist_or_get get_node hist obj self proto);
        vis ← getattr_visible proto true;
        setattr node "visible" (ABool vis);;
        attr_label node "comp_of" self (var_name var);;
        attr_label self "comp_types" node (var_name var)
    end);;
  mret self.

(** [ProcNode.__init__] *)
Definition ProcNode_init (get_node : GetNode) (obj : val)
    (hist : option (gmap nat NodeRef)) : M NodeRef :=
  ptype ← match obj with
          | PObj o => x ← deref o; mret (default EmptyString (proctype x))
          | _ => mret EmptyString
          end;
  '(id, fromstr, d) ← BaseNode_init ProcNode ptype obj;
  self ← new_node ProcNode id
    (<["interfaced_by" := ASet []]> (<["interfaces" := ASet []]>
     (<["called_by" := ASet []]> (<["calls" := ASet []]>
     (<["uses" := ASet []]> (<["proctype" := AStr ptype]> d))))));
  let hist := default ∅ hist in
  if fromstr : bool then mret self else
  x ← obj_of "uses" obj;
  for_ (default [] (uses x)) (λ u,
    n ← get_node u None;
    attr_add n "used_by" self;;
    attr_add self "uses" n);;
  for_ (default [] (calls x)) (λ c,
    vis ← getattr_visible c true;
    if vis : bool then
      n ← (if bool_decide (c = obj) then mret self
           else hist_or_get get_node hist obj self c);
      attr_add n "called_by" self;;
      attr_add self "calls" n
    else mret ());;
  pt ← required "proctype" (proctype x);
  if negb (String.eqb (lower pt) "interface") then mret self else
  for_ (default [] (modprocs x)) (λ m,
    vis ← getattr_visible m true;
    if truthy m && vis then
      n ← hist_or_get get_node hist obj self m;
      attr_add n "interfaced_by" self;;
      attr_add self "interfaces" n
    else mret ());;
  match procedure_module x with
  | Some pm =>
      vis ← getattr_visible pm true;
      if truthy pm && negb (bool_decide (pm = PBool true)) && vis then
        n ← hist_or_get get_node hist obj self pm;
        attr_add n "interfaced_by" self;;
        attr_add self "interfaces" n
      else mret ()
  | None => mret ()
  end;;
  mret self.

(** The bodies of the two loops of [ProgNode.__init__]. *)
Definition ProgNode_use (get_node : GetNode) (self : NodeRef) (u : val)
  : M () :=
  usee ← match u with
         | PStr s => new_obj (external ExternalModule s)
         | _ => mret u
         end;
  n ← get_node usee None;
  attr_add n "used_by" self;;
  attr_add self "uses" n.

Definition ProgNode_call (get_node : GetNode) (self : NodeRef) (c : val)
  : M () :=
  vis ← getattr_visible c false;
  if negb vis then mret () else
  callee ← match c with
           | PStr s => new_obj (external ExternalSubmodule s)
           | _ => mret c
           end;
  n ← get_node callee None;
  attr_add n "called_by" self;;
  attr_add self "calls" n.

(** [ProgNode.__init__] *)
Definition ProgNode_init (get_node : GetNode) (obj : val)
    (hist : option (gmap nat NodeRef)) : M NodeRef :=
  '(id, fromstr, d) ← BaseNode_init ProgNode EmptyString obj;
  self ← new_node ProgNode id
    (<["calls" := ASet []]> (<["uses" := ASet []]> d));
  if fromstr : bool then mret self else
  x ← obj_of "uses" obj;
  us ← required "uses" (uses x);
  for_ us (ProgNode_use get_node self);;
  cs ← required "calls" (calls x);
  for_ cs (ProgNode_call get_node self);;
  mret self.

(** [BlockNode.__init__] *)
Definition BlockNode_init (get_node : GetNode) (obj : val)
    (hist : option (gmap nat NodeRef)) : M NodeRef :=
  '(id, fromstr, d) ← BaseNode_init BlockNode EmptyString obj;
  self ← new_node BlockNode id (<["uses" := ASet []]> d);
  if fromstr : bool then mret self else
  x ← obj_of "uses" obj;
  us ← required "uses" (uses x);
  for_ us (λ u,
    n ← get_node u None;
    attr_add n "used_by" self;;
    attr_add self "uses" n);;
  mret self.

(** [FileNode.__init__]; [afferent] and [efferent] are sets here. *)
Definition FileNode_init (get_node : GetNode) (obj : val)
    (hist : option (gmap nat NodeRef)) : M NodeRef :=
  '(id, fromstr, d) ← BaseNode_init FileNode EmptyString obj;
  self ← new_node FileNode id
    (<["efferent" := ASet []]> (<["afferent" := ASet []]> d));
  let hist := default ∅ hist in
  if fromstr : bool then mret self else
  x ← obj_of "modules" obj;
  for_ (modules x ++ submodules x ++ functions x ++ subroutines x
        ++ programs x ++ blockdata x)%list (λ mod_,
    m ← deref mod_;
    for_ (deplist m) (λ dep,
      dp ← deref dep;
      match hierarchy dp with
      | [] => raise IndexError
      | top :: _ =>
          if bool_decide (top = obj) then mret () else
          n ← hist_or_get get_node hist obj self top;
          attr_add n "afferent" self;;
          attr_add self "efferent" n
      end));;
  mret self.

(** [NodeType(obj, self, hist)] *)
Definition construct (t : NodeType) (get_node : GetNode) (obj : val)
    (hist : option (gmap nat NodeRef)) : M NodeRef :=
  match t with
  | ModNode => ModNode_init ModNode get_node obj hist
  | SubmodNode => SubmodNode_init get_node obj hist
  | TypeNode => TypeNode_init get_node obj hist
  | ProcNode => ProcNode_init get_node obj hist
  | ProgNode => ProgNode_init get_node obj hist
  | BlockNode => BlockNode_init get_node obj hist
  | FileNode => FileNode_init get_node obj hist
  end.

(** *** [GraphData.register] and [GraphData.get_node]

    The two methods and the node constructors call each other; the
    recursion is tied by [get_node], whose [fuel] bounds the depth of nested
    lookups. *)
Definition register_with (get_node : GetNode) (obj : val)
    (hist : option (gmap nat NodeRef)) : M () :=
  '(o, coll, NodeType) ← _get_collection_and_node_type obj;
  present ← coll_contains coll o;
  if present : bool then mret () else
  n ← construct NodeType get_node obj hist;
  coll_setitem coll o n.

Definition get_node_with (get_node : GetNode) (obj : val)
    (hist : option (gmap nat NodeRef)) : M NodeRef :=
  '(o, coll, _) ← _get_collection_and_node_type obj;
  present ← coll_contains coll o;
  (if present : bool then mret () else register_with get_node obj hist);;
  coll_getitem coll o.

Fixpoint get_node (fuel : nat) (obj : val)
    (hist : option (gmap nat NodeRef)) : M NodeRef :=
  match fuel with
  | O => diverge
  | S fuel' => get_node_with (get_node fuel') obj hist
  end.

Definition register (fuel : nat) (obj : val)
    (hist : option (gmap nat NodeRef)) : M () :=
  register_with (get_node fuel) obj hist.

End WithConfig.
End Registry.
Export Registry.

(** ** The bounded graph builder *)

Module Graphs.

(** The graph classes: [FortranGraph] itself and its twelve subclasses. *)
Inductive GraphClass :=
  | FortranGraphBase
  | ModuleGraph | UsesGraph | UsedByGraph | FileGraph | EfferentGraph
  | AfferentGraph | TypeGraph | InheritsGraph | InheritedByGraph
  | CallGraph | CallsGraph | CalledByGraph.

#[export] Instance GraphClass_eq_dec : EqDecision GraphClass.
Proof. solve_decision. Defined.

(** [self.__class__.__name__] *)
Definition graph_class_name (c : GraphClass) : string :=
  match c with
  | FortranGraphBase => "FortranGraph"
  | ModuleGraph => "ModuleGraph"
  | UsesGraph => "UsesGraph"
  | UsedByGraph => "UsedByGraph"
  | FileGraph => "FileGraph"
  | EfferentGraph => "EfferentGraph"
  | AfferentGraph => "AfferentGraph"
  | TypeGraph => "TypeGraph"
  | InheritsGraph => "InheritsGraph"
  | InheritedByGraph => "InheritedByGraph"
  | CallGraph => "CallGraph"
  | CallsGraph => "CallsGraph"
  | CalledByGraph => "CalledByGraph"
  end.

Definition RANKDIR (c : GraphClass) : string :=
  match c with
  | CallGraph | CallsGraph | CalledByGraph => "LR"
  | _ => "RL"
  end.

Definition _should_add_nested_nodes (c : GraphClass) : bool :=
  match c with
  | UsesGraph | UsedByGraph | EfferentGraph | AfferentGraph | InheritsGraph
  | InheritedByGraph | CallsGraph | CalledByGraph => true
  | _ => false
  end.

(** A graph object. [admitted] is a history variable of the model: it
    records, for every hop [add_to_graph] admits, the hop number and the
    nodes of that hop; no operation reads it. *)
Record FortranGraph := {
  g_class : GraphClass;
  root : list NodeRef;
  hop_nodes : list NodeRef;
  hop_edges : list Edge;
  added : list NodeRef;
  max_nesting : Z;
  max_nodes : Z;
  warn : bool;
  truncated : Z;
  webdir : string;
  g_ident : string;
  imgfile : string;
  dot : Digraph;
  svg_src : string;
  scaled : bool;
  admitted : list (Z * list NodeRef);
}.

Definition set_hop (g : FortranGraph) (ns : list NodeRef) (es : list Edge)
  : FortranGraph :=
  let '(Build_FortranGraph c r _ _ a mn mx w t wd i im d sv sc ad) := g in
  Build_FortranGraph c r ns es a mn mx w t wd i im d sv sc ad.

Definition set_truncated (g : FortranGraph) (t : Z) : FortranGraph :=
  let '(Build_FortranGraph c r hn he a mn mx w _ wd i im d sv sc ad) := g in
  Build_FortranGraph c r hn he a mn mx w t wd i im d sv sc ad.

Definition set_added (g : FortranGraph) (a : list NodeRef) : FortranGraph :=
  let '(Build_FortranGraph c r hn he _ mn mx w t wd i im d sv sc ad) := g in
  Build_FortranGraph c r hn he a mn mx w t wd i im d sv sc ad.

Definition set_admitted (g : FortranGraph) (ad : list (Z * list NodeRef))
  : FortranGraph :=
  let '(Build_FortranGraph c r hn he a mn mx w t wd i im d sv sc _) := g in
  Build_FortranGraph c r hn he a mn mx w t wd i im d sv sc ad.

Definition set_svg (g : FortranGraph) (sv : string) (sc : bool)
  : FortranGraph :=
  let '(Build_FortranGraph c r hn he a mn mx w t wd i im d _ _ ad) := g in
  Build_FortranGraph c r hn he a mn mx w t wd i im d sv sc ad.

(** Appending statements to [self.dot]. *)
Definition dot_add (g : FortranGraph) (stmts : list DotStmt) : FortranGraph :=
  let '(Build_FortranGraph c r hn he a mn mx w t wd i im d sv sc ad) := g in
  Build_FortranGraph c r hn he a mn mx w t wd i im
    {| dot_name := dot_name d; dot_rankdir := dot_rankdir d;
       dot_body := dot_body d ++ stmts |} sv sc ad.

Section WithConfig.
Context (cfg : Config).

Definition NODE_DIAGRAM : string :=
  "<p>Nodes of different colours represent the following: </p>".

Definition MOD_GRAPH_KEY : string :=
  nl +:+ NODE_DIAGRAM +:+ nl +:+ mod_svg cfg
  +:+ nl
  +:+ "<p>Solid arrows point from a submodule to the (sub)module which it is"
  +:+ nl +:+ "descended from" +:+ period
  +:+ " Dashed arrows point from a module or program unit to " +:+ nl
  +:+ "modules which it uses" +:+ period +:+ nl +:+ "</p>" +:+ nl.

Definition TYPE_GRAPH_KEY : string :=
  nl +:+ NODE_DIAGRAM +:+ nl +:+ type_svg cfg
  +:+ nl
  +:+ "<p>Solid arrows point from a derived type to the parent type which it"
  +:+ nl +:+ "extends" +:+ period
  +:+ " Dashed arrows point from a derived type to the other" +:+ nl
  +:+ "types it contains as a components, with a label listing the name(s) of"
  +:+ nl +:+ "said component(s)" +:+ period +:+ nl +:+ "</p>" +:+ nl.

Definition CALL_GRAPH_KEY : string :=
  nl +:+ NODE_DIAGRAM +:+ nl +:+ call_svg cfg
  +:+ nl +:+ "<p>Solid arrows point from a procedure to one which it calls"
  +:+ period +:+ " Dashed " +:+ nl
  +:+ "arrows point from an interface to procedures which implement that interface"
  +:+ period +:+ nl
  +:+ "This could include the module procedures in a generic interface or the"
  +:+ nl
  +:+ "implementation in a submodule of an interface in a parent module"
  +:+ period +:+ nl +:+ "</p>" +:+ nl.

Definition FILE_GRAPH_KEY : string :=
  nl +:+ NODE_DIAGRAM +:+ nl +:+ file_svg cfg
  +:+ nl +:+ "<p>Solid arrows point from a file to a file which it depends on"
  +:+ period +:+ " A file" +:+ nl
  +:+ "is dependent upon another if the latter must be compiled before the former"
  +:+ nl +:+ "can be" +:+ period +:+ nl +:+ "</p>" +:+ nl.

Definition COLOURED_NOTICE : string :=
  "Where possible, edges connecting nodes are" +:+ nl
  +:+ "given different colours to make them easier to distinguish in" +:+ nl
  +:+ "large graphs" +:+ period.

Definition legend (c : GraphClass) : string :=
  match c with
  | FortranGraphBase => EmptyString
  | ModuleGraph | UsesGraph | UsedByGraph => MOD_GRAPH_KEY
  | FileGraph | EfferentGraph | AfferentGraph => FILE_GRAPH_KEY
  | TypeGraph | InheritsGraph | InheritedByGraph => TYPE_GRAPH_KEY
  | CallGraph | CallsGraph | CalledByGraph => CALL_GRAPH_KEY
  end.

(** [rainbowcolour] *)
Definition rainbowcolour (depth maxd : nat) : string :=
  if negb (_coloured_edges cfg) then "#000000" else hsv_colour cfg depth maxd.

(** *** Reading nodes *)

Definition lookup_attr (h : list Node) (r : NodeRef) (a : string)
  : result (option attrval) :=
  match h !! addr r with
  | Some n => Ok (n_dict n !! a)
  | None => Raise Dangling
  end.

(** The nodes a [for] loop meets when it iterates the value of an
    attribute: the members of a set, the keys of a dict. *)
Definition iterate (v : attrval) : result (list NodeRef) :=
  match v with
  | ASet s => Ok s
  | ADict d => Ok d.*1
  | _ => Raise TypeError
  end.

(** [node.a], iterated *)
Definition iter_attr (h : list Node) (r : NodeRef) (a : string)
  : result (list NodeRef) :=
  v ← lookup_attr h r a;
  match v with
  | Some v => iterate v
  | None => Raise (AttributeError a)
  end.

(** [getattr(node, a, [])], iterated *)
Definition iter_attr_default (h : list Node) (r : NodeRef) (a : string)
  : result (list NodeRef) :=
  v ← lookup_attr h r a;
  match v with
  | Some v => iterate v
  | None => Ok []
  end.

(** [node.attribs] *)
Definition node_attribs (h : list Node) (r : NodeRef)
  : result (list (string * string)) :=
  v ← lookup_attr h r "attribs";
  match v with
  | Some (AAttribs d) => Ok d
  | Some _ => Raise TypeError
  | None => Raise (AttributeError "attribs")
  end.

(** [d[k]] on an [attribs] dict *)
Fixpoint attribs_getitem (k : string) (d : list (string * string))
  : result string :=
  match d with
  | [] => Raise KeyError
  | (k', v) :: d' => if String.eqb k k' then Ok v else attribs_getitem k d'
  end.

(** *** Edges *)

Definition _edge (tail head : NodeRef) (style colour : string)
    (label : option string) : Edge :=
  {| tail_name := node_ident tail; head_name := node_ident head;
     style := style; color := colour; label := label |}.

Definition _solid_edge (tail head : NodeRef) (colour : string)
    (label : option string) : Edge :=
  _edge tail head "solid" colour label.

Definition _dashed_edge (tail head : NodeRef) (colour : string)
    (label : option string) : Edge :=
  _edge tail head "dashed" colour label.

(** *** [_add_node], one per graph class

    [hop] is the pair of [hop_nodes] (a set) and [hop_edges] (a list) that
    [add_nodes] fills. *)
Definition Hop : Type := list NodeRef * list Edge.

(** [if n not in self.added: hop_nodes.add(n)], then
    [hop_edges.append(e)] *)
Definition visit (added : list NodeRef) (edge : NodeRef → Edge) (hop : Hop)
    (n : NodeRef) : Hop :=
  ((if set_in n added then hop.1 else set_add n hop.1), hop.2 ++ [edge n]).

(** [if n not in hop_nodes: hop_nodes.add(n)], then
    [hop_edges.append(e)] *)
Definition visit_any (edge : NodeRef → Edge) (hop : Hop) (n : NodeRef) : Hop :=
  ((if set_in n hop.1 then hop.1 else set_add n hop.1), hop.2 ++ [edge n]).

(** The [hasattr(node, "ancestor")] step of [ModuleGraph] and [UsesGraph]:
    an ancestor that is not a node has no [ident] for the edge. *)
Definition visit_ancestor_if_present (h : list Node) (added : list NodeRef)
    (node : NodeRef) (colour : string) (hop : Hop) : result Hop :=
  v ← lookup_attr h node "ancestor";
  match v with
  | None => Ok hop
  | Some (ANode a) =>
      Ok (visit added (λ a, _solid_edge node a colour None) hop a)
  | Some _ => Raise (AttributeError "ident")
  end.

(** The [if node.ancestor:] step of [TypeGraph] and [InheritsGraph]. *)
Definition visit_ancestor_if_truthy (h : list Node) (added : list NodeRef)
    (node : NodeRef) (colour : string) (hop : Hop) : result Hop :=
  v ← lookup_attr h node "ancestor";
  match v with
  | None => Raise (AttributeError "ancestor")
  | Some (ANode a) =>
      Ok (visit added (λ a, _solid_edge node a colour None) hop a)
  | Some ANone | Some (ABool false) | Some (AInt 0) | Some (ASet [])
  | Some (ADict []) | Some (AAttribs []) => Ok hop
  | Some (AStr s) =>
      if String.eqb s EmptyString then Ok hop
      else Raise (AttributeError "ident")
  | Some _ => Raise (AttributeError "ident")
  end.

(** [node.a] as a dict from nodes to labels. *)
Definition dict_attr (h : list Node) (r : NodeRef) (a : string)
  : result (list (NodeRef * string)) :=
  v ← lookup_attr h r a;
  match v with
  | Some (ADict d) => Ok d
  | Some _ => Raise TypeError
  | None => Raise (AttributeError a)
  end.

Definition uses_add_node (h : list Node) (added : list NodeRef) (hop : Hop)
    (node : NodeRef) (colour : string) : result Hop :=
  us ← iter_attr h node "uses";
  let hop := foldl (visit added (λ nu, _dashed_edge node nu colour None))
               hop (sorted us) in
  visit_ancestor_if_present h added node colour hop.

Definition inherits_add_node (h : list Node) (added : list NodeRef)
    (hop : Hop) (node : NodeRef) (colour : string) : result Hop :=
  d ← dict_attr h node "comp_types";
  let hop := foldl (λ hop '(c, lbl),
                      visit added (λ c, _dashed_edge node c colour (Some lbl))
                        hop c) hop d in
  visit_ancestor_if_truthy h added node colour hop.

Definition _add_node (c : GraphClass) (h : list Node) (added : list NodeRef)
    (hop : Hop) (node : NodeRef) (colour : string) : result Hop :=
  match c with
  | FortranGraphBase => Raise NotImplementedError
  | ModuleGraph | UsesGraph => uses_add_node h added hop node colour
  | UsedByGraph =>
      ub ← iter_attr_default h node "used_by";
      let hop := foldl (visit added (λ nu, _dashed_edge nu node colour None))
                   hop (sorted ub) in
      ch ← iter_attr_default h node "children";
      Ok (foldl (visit added (λ c, _solid_edge c node colour None))
            hop (sorted ch))
  | FileGraph =>
      ef ← iter_attr h node "efferent";
      Ok (foldl (visit added (λ ne, _solid_edge ne node colour None))
            hop (sorted ef))
  | EfferentGraph =>
      ef ← iter_attr h node "efferent";
      Ok (foldl (visit added (λ ne, _dashed_edge node ne colour None))
            hop (sorted ef))
  | AfferentGraph =>
      af ← iter_attr h node "afferent";
      Ok (foldl (visit added (λ na, _dashed_edge na node colour None))
            hop (sorted af))
  | TypeGraph =>
      ks ← iter_attr h node "comp_types";
      let hop := foldl (λ hop k,
                          ((if set_in k added then hop.1 else set_add k hop.1),
                           hop.2)) hop ks in
      inherits_add_node h added hop node colour
  | InheritsGraph => inherits_add_node h added hop node colour
  | InheritedByGraph =>
      d ← dict_attr h node "comp_of";
      let hop := foldl (λ hop '(c, lbl),
                          visit added
                            (λ c, _dashed_edge c node colour (Some lbl))
                            hop c) hop d in
      ch ← iter_attr h node "children";
      Ok (foldl (visit added (λ c, _solid_edge c node colour None)) hop ch)
  | CallGraph =>
      cs ← iter_attr h node "calls";
      let hop := foldl (visit_any (λ p, _solid_edge node p colour None))
                   hop (sorted cs) in
      ifs ← iter_attr_default h node "interfaces";
      Ok (foldl (visit_any (λ p, _dashed_edge node p colour None))
            hop (sorted ifs))
  | CallsGraph =>
      cs ← iter_attr h node "calls";
      let hop := foldl (visit added (λ p, _solid_edge node p colour None))
                   hop (sorted cs) in
      ifs ← iter_attr_default h node "interfaces";
      Ok (foldl (visit added (λ p, _dashed_edge node p colour None))
            hop (sorted ifs))
  | CalledByGraph =>
      if bool_decide (node_type node = ProgNode) then Ok hop else
      cb ← iter_attr h node "called_by";
      let hop := foldl (visit added (λ p, _solid_edge p node colour None))
                   hop (sorted cb) in
      ib ← iter_attr_default h node "interfaced_by";
      Ok (foldl (visit added (λ p, _dashed_edge p node colour None))
            hop (sorted ib))
  end.

(** [_extra_attributes] *)
Definition _extra_attributes (g : FortranGraph) : FortranGraph :=
  match g_class g with
  | ModuleGraph | TypeGraph =>
      dot_add g [DotAttr "graph" [("size", "11.875,1000.0")]]
  | CallGraph =>
      dot_add g [DotAttr "graph" [("size", "11.875,1000.0")];
                 DotAttr "graph" [("concentrate", "false")]]
  | CallsGraph | CalledByGraph =>
      dot_add g [DotAttr "graph" [("concentrate", "false")]]
  | _ => g
  end.

(** *** [add_to_graph] *)

(** [for x in xs: ys.append(f(x))] for an [f] that can raise. *)
Fixpoint mapM_result {A B} (f : A → result B) (xs : list A)
  : result (list B) :=
  match xs with
  | [] => Ok []
  | x :: xs' => y ← f x; ys ← mapM_result f xs'; Ok (y :: ys)
  end.

Definition len {A} (l : list A) : Z := Z.of_nat (length l).

Definition add_to_graph (h : list Node) (g : FortranGraph)
    (nodes : list NodeRef) (edges : list Edge) (nesting : Z)
  : result (FortranGraph * bool) :=
  if len nodes + len (added g) >? max_nodes g then
    let g := if nesting <? 2 then set_hop g nodes edges else g in
    Ok (set_truncated g nesting, false)
  else
    stmts ← mapM_result
               (λ n, strattribs ← node_attribs h n;
                     Ok (DotNode (node_ident n) strattribs))
               (sorted nodes);
    let g := dot_add g stmts in
    let g := dot_add g (DotEdge <$> edges) in
    let g := set_added g (set_update (added g) nodes) in
    Ok (set_admitted g (admitted g ++ [(nesting, nodes)]), true).

(** *** [add_nodes] and [_add_nested_nodes]

    The two call each other; [add_nodes] carries the fuel. *)

(** [for i, node in enumerate(sorted(nodes))] of [add_nodes] *)
Fixpoint collect_hop (c : GraphClass) (h : list Node) (added : list NodeRef)
    (total_len : nat) (i : nat) (nodes : list NodeRef) (hop : Hop)
  : result Hop :=
  match nodes with
  | [] => Ok hop
  | node :: rest =>
      hop ← _add_node c h added hop node (rainbowcolour i total_len);
      collect_hop c h added total_len (S i) rest hop
  end.

Definition _add_nested_nodes
    (add_nodes : FortranGraph → list NodeRef → Z → result FortranGraph)
    (g : FortranGraph) (hop_nodes : list NodeRef) (nesting : Z)
  : result FortranGraph :=
  if len hop_nodes =? 0 then Ok g
  else if nesting <? max_nesting g then add_nodes g hop_nodes (nesting + 1)
  else Ok (set_truncated g nesting).

Definition add_nodes_with
    (add_nodes : FortranGraph → list NodeRef → Z → result FortranGraph)
    (h : list Node) (g : FortranGraph) (nodes : list NodeRef) (nesting : Z)
  : result FortranGraph :=
  '(hop_nodes, hop_edges) ←
    collect_hop (g_class g) h (added g) (length nodes) 0 (sorted nodes)
      ([], []);
  '(g, extended) ← add_to_graph h g hop_nodes hop_edges nesting;
  if negb extended then Ok g else
  let g := _extra_attributes g in
  if _should_add_nested_nodes (g_class g)
  then _add_nested_nodes add_nodes g hop_nodes nesting
  else Ok g.

Fixpoint add_nodes (fuel : nat) (h : list Node) (g : FortranGraph)
    (nodes : list NodeRef) (nesting : Z) : result FortranGraph :=
  match fuel with
  | O => Diverge
  | S fuel' => add_nodes_with (add_nodes fuel' h) h g nodes nesting
  end.

(** *** [FortranGraph.__init__] *)

Definition get_heap : M (list Node) := λ s, Ok (heap s, s).

(** [str(x)] for a value that may be [None] *)
Definition str_opt (x : option string) : string := default "None" x.

(** [node.name] *)
Definition node_name (h : list Node) (r : NodeRef) : result string :=
  v ← lookup_attr h r "name";
  match v with
  | Some (AStr s) => Ok s
  | Some _ => Raise TypeError
  | None => Raise (AttributeError "name")
  end.

(** Modelled from the spec: [sorted(root)] orders entity objects with the
    [__lt__] of [ford.sourceform], which compares their unique
    identifiers. *)
Definition entity_lt (a b : nat * FortranObj) : bool :=
  String.ltb (ident a.2) (ident b.2).

(** The first loop of [__init__]: the root nodes and the limits. *)
Fixpoint resolve_roots (fuel : nat) (rs : list (nat * FortranObj))
    (acc : list NodeRef * Z * Z * bool) : M (list NodeRef * Z * Z * bool) :=
  match rs with
  | [] => mret acc
  | (o, r) :: rs' =>
      let '(root, max_nesting, max_nodes, warn) := acc in
      n ← get_node cfg fuel (PObj o) None;
      resolve_roots fuel rs'
        (root ++ [n], Z.max max_nesting (graph_maxdepth r),
         Z.max max_nodes (graph_maxnodes r), warn || settings_warn r)
  end.

Fixpoint deref_all (os : list nat) : M (list (nat * FortranObj)) :=
  match os with
  | [] => mret []
  | o :: os' => x ← deref o; xs ← deref_all os'; mret ((o, x) :: xs)
  end.

(** The loop of [__init__] that adds the root nodes to the graph. *)
Definition add_roots (h : list Node) (g : FortranGraph) : result FortranGraph :=
  stmts ← mapM_result
             (λ n, if len (root g) =? 1
                   then nm ← node_name h n;
                        Ok (DotNode (node_ident n) [("label", nm)])
                   else attrs ← node_attribs h n;
                        Ok (DotNode (node_ident n) attrs))
             (root g);
  Ok (set_added (dot_add g stmts) (set_update (added g) (root g))).

(** Rendering at the end of [__init__]. *)
Definition render (g : FortranGraph) : result FortranGraph :=
  if graphviz_installed cfg then
    let svg := dot_pipe cfg (dot g) in
    let svg := replace "<svg " ("<svg id=" +:+ dq +:+ sub_nonword (g_ident g)
                                +:+ dq +:+ " ") svg in
    match WIDTH_RE_search cfg svg with
    | None => Raise (AttributeError "group")
    | Some w =>
        if bool_decide (g_class g ∈ [ModuleGraph; CallGraph; TypeGraph])
        then Ok (set_svg g svg (855 <=? w))
        else Ok (set_svg g svg (641 <=? w))
    end
  else Ok (set_svg g EmptyString false).

(** [ident or f"{root[0].get_dir()}~~{root[0].ident}"] *)
Definition graph_ident (ident_ : option string)
    (rs : list (nat * FortranObj)) : result string :=
  let given := match ident_ with
               | Some i => if String.eqb i EmptyString then None else Some i
               | None => None
               end in
  match given, rs with
  | Some i, _ => Ok i
  | None, (_, r0) :: _ => Ok (str_opt (get_dir r0) +:+ "~~" +:+ ident r0)
  | None, [] => Raise IndexError
  end.

(** The attributes [__init__] sets before it adds any node; [id] is the
    ident given or made from the first root. *)
Definition new_graph (c : GraphClass) (root_nodes : list NodeRef)
    (max_nesting max_nodes : Z) (warn : bool) (webdir id : string)
  : FortranGraph :=
  let id := id +:+ "~~" +:+ graph_class_name c in
  {| g_class := c; root := root_nodes; hop_nodes := []; hop_edges := [];
     added := []; max_nesting := max_nesting; max_nodes := max_nodes;
     warn := warn; truncated := -1; webdir := webdir; g_ident := id;
     imgfile := id;
     dot := {| dot_name := id; dot_rankdir := RANKDIR c; dot_body := [] |};
     svg_src := EmptyString; scaled := false; admitted := [] |}.

(** [FortranGraph.__init__]; [root] is the list of root entities (a single
    root is passed as a list of one), [fuel] bounds the registry lookups.
    The recursion of [add_nodes] is bounded by [max_nesting]. *)
Definition __init__ (fuel : nat) (c : GraphClass) (root : list nat)
    (webdir : string) (ident_ : option string) : M FortranGraph :=
  rs ← deref_all root;
  '(root_nodes, max_nesting, max_nodes, warn) ←
    resolve_roots fuel (sorted_by entity_lt rs) ([], 0, 1, false);
  id ← lift (graph_ident ident_ rs);
  let g := new_graph c root_nodes max_nesting max_nodes warn webdir id in
  h ← get_heap;
  g ← lift (add_roots h g);
  g ← lift (add_nodes (S (Z.to_nat (Graphs.max_nesting g))) h g
              (Graphs.root g) 1);
  lift (render g).

(** *** [FortranGraph.__str__] *)

(** Keys and values of the dict an edge is. *)
Inductive key :=
  | KInt (z : Z)
  | KStr (s : string).

Definition edge_items (e : Edge) : list (string * option string) :=
  [("tail_name", Some (tail_name e)); ("head_name", Some (head_name e));
   ("style", Some (style e)); ("color", Some (color e)); ("label", label e)].

(** [e[k]] *)
Definition edge_getitem (e : Edge) (k : key) : result (option string) :=
  match k with
  | KInt _ => Raise KeyError
  | KStr s =>
      match list_find (λ kv, kv.1 = s) (edge_items e) with
      | Some (_, (_, v)) => Ok v
      | None => Raise KeyError
      end
  end.

(** [v.a] for a value of an edge, a string or [None]: neither has the
    attributes of a node. *)
Definition value_attr {A} (a : string) (v : option string) : result A :=
  Raise (AttributeError a).

Definition index0 {A} (l : list A) : result A :=
  match l with
  | x :: _ => Ok x
  | [] => Raise IndexError
  end.

(** The two templates of [arrowtemp], applied by [format]. *)
Definition arrow_right (a0 a1 a2 : string) : string :=
  "<td class=" +:+ dq +:+ a0 +:+ a1 +:+ dq +:+ ">" +:+ a2
  +:+ "</td><td rowspan=" +:+ dq +:+ "2" +:+ dq +:+ " class=" +:+ dq
  +:+ "triangle-right" +:+ dq +:+ "></td>".

Definition arrow_left (a0 a1 a2 : string) : string :=
  "<td rowspan=" +:+ dq +:+ "2" +:+ dq +:+ " class=" +:+ dq
  +:+ "triangle-left" +:+ dq +:+ "></td><td class=" +:+ dq
  +:+ a0 +:+ a1 +:+ dq +:+ ">" +:+ a2 +:+ "</td>".

(** The table a graph is shown as when its first hop exceeded the limit.
    [hop_edges.sort] reorders the list the rows are built from. *)
Definition table (h : list Node) (g : FortranGraph) : result string :=
  r0 ← index0 (root g);
  root_attribs ← node_attribs h r0;
  root_label ← attribs_getitem "label" root_attribs;
  let root_td :=
    "<td class=" +:+ dq +:+ "root" +:+ dq +:+ " rowspan=" +:+ dq
    +:+ pretty (len (hop_nodes g) * 2 + 1) +:+ dq +:+ ">" +:+ root_label
    +:+ "</td>" in
  e0 ← index0 (hop_edges g);
  v0 ← edge_getitem e0 (KInt 0);
  id0 ← value_attr "ident" v0;
  let '(k, root_on_left, arrowtemp) :=
    if String.eqb id0 (node_ident r0) then
      let root_on_left := String.eqb (RANKDIR (g_class g)) "LR" in
      (1, root_on_left, if root_on_left then arrow_right else arrow_left)
    else
      let root_on_left := String.eqb (RANKDIR (g_class g)) "RL" in
      (0, root_on_left, if root_on_left then arrow_left else arrow_right) in
  keyed ← mapM_result
             (λ x, n ← edge_getitem x (KInt k);
                   at_ ← value_attr "attribs" n;
                   lbl ← attribs_getitem "label" at_;
                   Ok (lower lbl, x))
             (hop_edges g);
  let edges := (sorted_by (λ a b, String.ltb a.1 b.1) keyed).*2 in
  '(rows, _) ←
    foldl (λ acc e,
             '(rows, root_td) ← acc;
             n ← edge_getitem e (KInt k);
             e2 ← edge_getitem e (KInt 2);
             arrow ←
               (if Z.of_nat (length (edge_items e)) =? 5
                then e4 ← edge_getitem e (KInt 4);
                     Ok (arrowtemp (str_opt e2) "Text" (str_opt e4))
                else Ok (arrowtemp (str_opt e2) "Bottom" "w"));
             at_ ← value_attr "attribs" n;
             colour ← attribs_getitem "color" at_;
             lbl ← attribs_getitem "label" at_;
             let node :=
               "<td rowspan=" +:+ dq +:+ "2" +:+ dq +:+ " class=" +:+ dq
               +:+ "node" +:+ dq +:+ " bgcolor=" +:+ dq +:+ colour +:+ dq
               +:+ ">"
               +:+ match attribs_getitem "URL" at_ with
                   | Ok u =>
                       "<a href=" +:+ dq +:+ u +:+ dq +:+ ">" +:+ lbl
                       +:+ "</a></td>"
                   | _ => lbl +:+ "</td>"
                   end in
             let root_arrow :=
               if root_on_left : bool then root_td +:+ arrow +:+ node
               else node +:+ arrow +:+ root_td in
             Ok (rows +:+ "<tr>" +:+ root_arrow +:+ "</tr>" +:+ nl
                 +:+ "<tr><td class=" +:+ dq +:+ str_opt e2 +:+ "Top" +:+ dq
                 +:+ ">w</td></tr>" +:+ nl,
                 EmptyString))
          (Ok (EmptyString, root_td)) edges;
  Ok ("<table class=" +:+ dq +:+ "graph" +:+ dq +:+ ">" +:+ nl +:+ rows
      +:+ "</table>" +:+ nl).

Definition legend_graph (g : FortranGraph) : string :=
  "        <div><a type=" +:+ dq +:+ "button" +:+ dq +:+ " class=" +:+ dq
  +:+ "graph-help" +:+ dq +:+ " data-toggle=" +:+ dq +:+ "modal" +:+ dq
  +:+ " href=" +:+ dq +:+ "#graph-help-text" +:+ dq +:+ ">Help</a></div>"
  +:+ nl +:+ "          <div class=" +:+ dq +:+ "modal fade" +:+ dq
  +:+ " id=" +:+ dq +:+ "graph-help-text" +:+ dq +:+ " tabindex=" +:+ dq
  +:+ "-1" +:+ dq +:+ " role=" +:+ dq +:+ "dialog" +:+ dq +:+ ">" +:+ nl
  +:+ "            <div class=" +:+ dq +:+ "modal-dialog modal-lg" +:+ dq
  +:+ " role=" +:+ dq +:+ "document" +:+ dq +:+ ">" +:+ nl
  +:+ "              <div class=" +:+ dq +:+ "modal-content" +:+ dq +:+ ">"
  +:+ nl +:+ "                <div class=" +:+ dq +:+ "modal-header" +:+ dq
  +:+ ">" +:+ nl +:+ "                  <button type=" +:+ dq +:+ "button"
  +:+ dq +:+ " class=" +:+ dq +:+ "close" +:+ dq +:+ " data-dismiss=" +:+ dq
  +:+ "modal" +:+ dq +:+ " aria-label=" +:+ dq +:+ "Close" +:+ dq +:+ ">"
  +:+ nl +:+ "                    <span aria-hidden=" +:+ dq +:+ "true"
  +:+ dq +:+ ">&times;</span>" +:+ nl +:+ "                  </button>"
  +:+ nl +:+ "                  <h4 class=" +:+ dq +:+ "modal-title" +:+ dq
  +:+ " id=" +:+ dq +:+ "-graph-help-label" +:+ dq +:+ ">Graph Key</h4>"
  +:+ nl +:+ "                </div>" +:+ nl +:+ "              <div class="
  +:+ dq +:+ "modal-body" +:+ dq +:+ ">"
  +:+ legend (g_class g) +:+ " "
  +:+ (if _coloured_edges cfg then COLOURED_NOTICE else EmptyString)
  +:+ "</div>" +:+ nl +:+ "            </div>" +:+ nl +:+ "          </div>"
  +:+ nl +:+ "        </div>".

(** [__str__] returns the warnings it emits and the text. *)
Definition __str__ (h : list Node) (g : FortranGraph)
  : result (list string * string) :=
  let graph_as_table := (len (hop_nodes g) >? 0) && (len (root g) =? 1) in
  if (len (added g) <=? 1) && negb graph_as_table then Ok ([], EmptyString)
  else if (len (added g) >? max_nodes g) && warn g then
    Ok (["Warning: Not showing graph " +:+ g_ident g
         +:+ " as it would exceed the maximal number of "
         +:+ pretty (max_nodes g) +:+ " nodes"], EmptyString)
  else if (len (added g) <? len (root g)) && warn g then
    Ok (["Warning: Not showing graph " +:+ g_ident g
         +:+ " as it would be incomplete"], EmptyString)
  else
    let warnings :=
      if (truncated g >? 0) && warn g
      then ["Warning: Graph " +:+ g_ident g +:+ " is truncated after "
            +:+ pretty (truncated g) +:+ " hops"]
      else [] in
    rettext ←
      (if graph_as_table then table h g
       else
         let zoomName := sub_nonword (g_ident g) in
         Ok ("<div class=" +:+ dq +:+ "depgraph" +:+ dq +:+ ">" +:+ svg_src g
             +:+ "</div>"
             +:+ (if scaled g
                  then "                <script>" +:+ nl
                       +:+ "                  var pan" +:+ zoomName
                       +:+ " = svgPanZoom('#" +:+ zoomName +:+ "'," +:+ nl
                       +:+ "                    {zoomEnabled: true, "
                       +:+ "controlIconsEnabled: true, fit: true, "
                       +:+ "center: true,}"
                       +:+ nl +:+ "                  );" +:+ nl
                       +:+ "                </script>"
                  else EmptyString)));
    Ok (warnings, rettext +:+ legend_graph g).

(** [__bool__] *)
Definition __bool__ (h : list Node) (g : FortranGraph) : result bool :=
  '(_, text) ← __str__ h g;
  Ok (negb (String.eqb text EmptyString)).

End WithConfig.
End Graphs.
Export Graphs.

(** * Predicates of the specification *)

Module Predicates.

(** What a lookup may do to the state. [ext s s']: the entity store only
    grows at its end and every entry of a registry dictionary is still
    there, with the same node. *)
Definition ext (s s' : State) : Prop :=
  objs s `prefix_of` objs s' ∧
  ∀ c o r, collection c (data s) !! o = Some r →
           collection c (data s') !! o = Some r.

(** A class the classifier rejects. *)
Definition unrecognised (c : pyclass) : Prop :=
  collection_and_node_type c = Raise (BadType (bad_type_message c)).

(** [BadType] is only ever raised for a rejected class. *)
Definition fair (e : exn) : Prop :=
  ∀ msg, e = BadType msg → ∃ c, msg = bad_type_message c ∧ unrecognised c.

(** [sound m]: when [m] returns, the state has only been extended; when it
    raises, the exception is fair. *)
Definition sound {A} (m : M A) : Prop :=
  ∀ s, match m s with
       | Ok (_, s') => ext s s'
       | Raise e => fair e
       | Diverge => True
       end.

(** The total order of nodes: by ident, as strings. *)
Definition node_le (a b : NodeRef) : Prop :=
  String.le (node_ident a) (node_ident b).

(** A step of the builder that does not run out of fuel. *)
Definition returns {A} (r : result A) : Prop := r ≠ Diverge.

(** The fields of a graph a hop never writes. *)
Definition same_limits (g g' : FortranGraph) : Prop :=
  g_class g' = g_class g ∧ root g' = root g ∧ max_nodes g' = max_nodes g
  ∧ max_nesting g' = max_nesting g ∧ warn g' = warn g.

(** The seven recognised kinds: module, submodule, type, procedure, program,
    source file, block data. *)
Definition recognised (c : pyclass) : bool :=
  is_module c || is_submodule c || is_type c || is_proc c || is_program c
  || is_sourcefile c || is_blockdata c.

(** [lookups cfg s s']: the registry went from [s] to [s'] through any
    number of calls of [get_node] and [register] that returned. *)
Inductive lookups (cfg : Config) : State → State → Prop :=
  | lookups_refl s : lookups cfg s s
  | lookups_get_node s s1 s2 fuel obj hist r :
      get_node cfg fuel obj hist s = Ok (r, s1) →
      lookups cfg s1 s2 → lookups cfg s s2
  | lookups_register s s1 s2 fuel obj hist :
      register cfg fuel obj hist s = Ok ((), s1) →
      lookups cfg s1 s2 → lookups cfg s s2.

End Predicates.
Export Predicates.

(** * Sample corpora *)

Module Samples.

(** A configuration without renderer: no hyperlinks or emphasis in names,
    black edges. *)
Definition plain : Config := {|
  graphviz_installed := false; _coloured_edges := false;
  _parentdir := EmptyString;
  HYPERLINK_RE_match := λ _, None; EM_RE_search := λ _, None;
  WIDTH_RE_search := λ _, None; strip := λ s, s;
  hsv_colour := λ _ _, "#000000"; dot_pipe := λ _, EmptyString;
  mod_svg := EmptyString; type_svg := EmptyString; call_svg := EmptyString;
  file_svg := EmptyString |}.

(** An internal entity of class [c] in directory [dir] with the given
    [uses] and [calls] and graph settings. *)
Definition entity (c : pyclass) (nm dir : string) (us cs : list val)
    (maxdepth maxnodes : Z) (w : bool) : FortranObj := {|
  cls := c; name := nm; ident := nm;
  get_dir := Some dir; get_url := None; visible := None;
  external_url := None; proctype := None;
  uses := Some us; calls := Some cs;
  extends := PNone; local_variables := [];
  modprocs := None; procedure_module := None;
  parent_submodule := PNone; ancestor_module := PNone;
  modules := []; submodules := []; functions := []; subroutines := [];
  programs := []; blockdata := []; deplist := []; hierarchy := [];
  graph_maxdepth := maxdepth; graph_maxnodes := maxnodes;
  settings_warn := w;
|}.

(** A run that starts with the entities [os] and an empty registry. *)
Definition start (os : list FortranObj) : State :=
  {| objs := os; heap := []; data := GraphData_init |}.

(** Module [a] uses [b], and [b] uses [a]. *)
Definition mutual_modules : list FortranObj :=
  [entity FortranModule "a" "module" [PObj 1%nat] [] 10 10 false;
   entity FortranModule "b" "module" [PObj 0%nat] [] 10 10 false].

(** Module [a] uses [b] and [c]; [b] uses [d]. *)
Definition chain_modules (maxdepth maxnodes : Z) (w : bool)
  : list FortranObj :=
  [entity FortranModule "a" "module" [PObj 1%nat; PObj 2%nat] []
     maxdepth maxnodes w;
   entity FortranModule "b" "module" [PObj 3%nat] [] 10 10 false;
   entity FortranModule "c" "module" [] [] 10 10 false;
   entity FortranModule "d" "module" [] [] 10 10 false].

(** Three unrelated modules, each with [graph_maxnodes = 1]. *)
Definition three_modules (w : bool) : list FortranObj :=
  [entity FortranModule "a" "module" [] [] 5 1 w;
   entity FortranModule "b" "module" [] [] 5 1 w;
   entity FortranModule "c" "module" [] [] 5 1 w].

(** A program that names the module "mpi" twice and calls "foo", all three
    by plain strings. *)
Definition string_program : list FortranObj :=
  [entity FortranProgram "p" "program" [PStr "mpi"; PStr "mpi"]
     [PStr "foo"] 5 10 true].

(** A program without relations. *)
Definition lone_program : list FortranObj :=
  [entity FortranProgram "p" "program" [] [] 5 10 true].

(** A subroutine that calls itself. *)
Definition recursive_subroutine : list FortranObj :=
  [{| cls := FortranSubroutine; name := "walk"; ident := "walk";
      get_dir := Some "proc"; get_url := None; visible := None;
      external_url := None; proctype := Some "Subroutine";
      uses := Some []; calls := Some [PObj 0%nat];
      extends := PNone; local_variables := [];
      modprocs := None; procedure_module := None;
      parent_submodule := PNone; ancestor_module := PNone;
      modules := []; submodules := []; functions := []; subroutines := [];
      programs := []; blockdata := []; deplist := []; hierarchy := [];
      graph_maxdepth := 5; graph_maxnodes := 10; settings_warn := true |}].

(** A derived type with a component [next] of its own type. *)
Definition linked_list_type : list FortranObj :=
  [{| cls := FortranType; name := "cell"; ident := "cell";
      get_dir := Some "type"; get_url := None; visible := None;
      external_url := None; proctype := None;
      uses := None; calls := None;
      extends := PNone;
      local_variables :=
        [{| vartype := "type"; proto := [PObj 0%nat]; var_name := "next" |}];
      modprocs := None; procedure_module := None;
      parent_submodule := PNone; ancestor_module := PNone;
      modules := []; submodules := []; functions := []; subroutines := [];
      programs := []; blockdata := []; deplist := []; hierarchy := [];
      graph_maxdepth := 5; graph_maxnodes := 10; settings_warn := true |}].

(** An entity of a class the registry does not know. *)
Definition a_variable : list FortranObj :=
  [entity (OtherClass "FortranVariable") "v" "variable" [] [] 5 10 true].

End Samples.
Export Samples.

(** * Invariants of the stores *)

Module Invariants.

(** [keeps R m]: when [m] returns, the state it leaves is related by [R] to
    the state it started in. *)
Definition keeps (R : State → State → Prop) {A} (m : M A) : Prop :=
  ∀ s a s', m s = Ok (a, s') → R s s'.

(** [yields P m]: when [m] returns, its value satisfies [P]. *)
Definition yields {A} (P : A → Prop) (m : M A) : Prop :=
  ∀ s a s', m s = Ok (a, s') → P a.

(** The node class each registry dictionary is filled with. *)
Definition node_type_of (c : Collection) : NodeType :=
  match c with
  | Submodules => SubmodNode
  | Modules => ModNode
  | Types => TypeNode
  | Procedures => ProcNode
  | Programs => ProgNode
  | Sourcefiles => FileNode
  | Blockdata => BlockNode
  end.

(** A registry whose every entry has the node class of its dictionary. *)
Definition well_typed (s : State) : Prop :=
  ∀ c o r, collection c (data s) !! o = Some r → node_type r = node_type_of c.

Definition typed_step (s s' : State) : Prop := well_typed s → well_typed s'.

(** The attributes [BaseNode.__init__] sets. *)
Definition base_attrs : list string :=
  ["attribs"; "fromstr"; "url"; "name"; "ident"].

Definition is_base_attr (a : string) : bool := bool_decide (a ∈ base_attrs).

(** [stable s s']: every node of [s] is still there in [s'], at its
    address, with its class and with the attributes of [BaseNode.__init__]
    as they were. *)
Definition stable (s s' : State) : Prop :=
  ∀ a n, heap s !! a = Some n →
    ∃ n', heap s' !! a = Some n' ∧ n_class n' = n_class n
          ∧ ∀ k, k ∈ base_attrs → n_dict n' !! k = n_dict n !! k.

(** The entity store is as it was: no object added, none changed. *)
Definition same_entities (s s' : State) : Prop := objs s' = objs s.

End Invariants.
Export Invariants.

Module InvariantsMore.

(** [avoids E m]: [m] raises no exception of [E]. *)
Definition avoids (E : exn → Prop) {A} (m : M A) : Prop :=
  ∀ s e, m s = Raise e → ¬ E e.

(** The exceptions of a failed dictionary access and of the abstract
    [_add_node]. *)
Definition lookup_error (e : exn) : Prop :=
  e = KeyError ∨ e = NotImplementedError.

(** The state after the node [n] was allocated. *)
Definition allocated (s : State) (n : Node) : State :=
  {| objs := objs s; heap := heap s ++ [n]; data := data s |}.

(** The state after node [r] was entered for entity [o] in dictionary
    [c]. *)
Definition entered (s : State) (c : Collection) (o : nat) (r : NodeRef)
  : State :=
  {| objs := objs s; heap := heap s;
     data := set_collection c (<[o := r]> (collection c (data s))) (data s) |}.

(** [self.name] of a node made from a string or a placeholder: the text of
    the link when the name is a hyperlink, the name otherwise. *)
Definition display_name (cfg : Config) (nm : string) : string :=
  match HYPERLINK_RE_match cfg nm with
  | Some (_, g2) => g2
  | None => nm
  end.

(** An edge between [node] and [m], in either direction. *)
Definition joins (node m : NodeRef) (e : Edge) : Prop :=
  (tail_name e = node_ident node ∧ head_name e = node_ident m)
  ∨ (tail_name e = node_ident m ∧ head_name e = node_ident node).

(** What a step of [_add_node] for [node] makes of the hop, where [ms] are
    the nodes it visits: it appends edges of the given colour, each between
    [node] and a visited node; it only adds to the hop nodes, and only
    visited nodes; every visited node is in [added] or in the hop
    afterwards. *)
Definition hop_step (added : list NodeRef) (node : NodeRef) (colour : string)
    (ms : list NodeRef) (hop hop' : Hop) : Prop :=
  (∃ es, hop'.2 = hop.2 ++ es
         ∧ ∀ e, e ∈ es → color e = colour ∧ ∃ m, m ∈ ms ∧ joins node m e)
  ∧ (∀ x, set_in x hop.1 = true → set_in x hop'.1 = true)
  ∧ (∀ m, m ∈ hop'.1 → m ∈ hop.1 ∨ m ∈ ms)
  ∧ (∀ m, m ∈ ms → set_in m added = true ∨ set_in m hop'.1 = true).

(** [reaches c h n m]: [m] is a node that [_add_node] of class [c] puts in
    the hop of [n] when no node was added before. *)
Definition reaches (c : GraphClass) (h : list Node) (n m : NodeRef) : Prop :=
  ∃ colour hop, _add_node c h [] ([], []) n colour = Ok hop ∧ m ∈ hop.1.

(** The idents of the nodes a diagram declares, and its edges. *)
Definition declared (g : FortranGraph) : list string :=
  omap (λ st, match st with DotNode nm _ => Some nm | _ => None end)
    (dot_body (dot g)).

Definition drawn (g : FortranGraph) : list Edge :=
  omap (λ st, match st with DotEdge e => Some e | _ => None end)
    (dot_body (dot g)).

(** A diagram in which the declared nodes are the added nodes, and every
    edge joins two declared nodes and has a colour of [C]. *)
Definition well_drawn (C : string → Prop) (g : FortranGraph) : Prop :=
  (∀ nm, nm ∈ declared g ↔ nm ∈ node_ident <$> added g)
  ∧ ∀ e, e ∈ drawn g →
      tail_name e ∈ declared g ∧ head_name e ∈ declared g ∧ C (color e).

(** The attributes of a graph that name it and its diagram. *)
Definition same_names (g g' : FortranGraph) : Prop :=
  g_ident g' = g_ident g ∧ imgfile g' = imgfile g ∧ webdir g' = webdir g
  ∧ dot_name (dot g') = dot_name (dot g)
  ∧ dot_rankdir (dot g') = dot_rankdir (dot g).

(** A derived type whose [extends] is the type itself. *)
Definition self_extending_type : list FortranObj :=
  [{| cls := FortranType; name := "t"; ident := "t";
      get_dir := Some "type"; get_url := None; visible := None;
      external_url := None; proctype := None;
      uses := None; calls := None;
      extends := PObj 0%nat; local_variables := [];
      modprocs := None; procedure_module := None;
      parent_submodule := PNone; ancestor_module := PNone;
      modules := []; submodules := []; functions := []; subroutines := [];
      programs := []; blockdata := []; deplist := []; hierarchy := [];
      graph_maxdepth := 5; graph_maxnodes := 10; settings_warn := true |}].

(** A module that names the module it uses by a plain string. *)
Definition string_user : list FortranObj :=
  [entity FortranModule "m" "module" [PStr "iso_c_binding"] [] 5 10 true].

(** Module [a] uses module [b], which uses nothing. *)
Definition using_module : list FortranObj :=
  [entity FortranModule "a" "module" [PObj 1%nat] [] 10 10 false;
   entity FortranModule "b" "module" [] [] 10 10 false].

(** The same, where [a] allows [maxdepth] hops and [maxnodes] nodes. *)
Definition limited_module (maxdepth maxnodes : Z) : list FortranObj :=
  [entity FortranModule "a" "module" [PObj 1%nat] [] maxdepth maxnodes true;
   entity FortranModule "b" "module" [] [] 10 10 false].

End InvariantsMore.
Export InvariantsMore.

Module ClaimDefs.

(** The edges [_add_node] makes for node [n] in the given colour. *)
Definition edges_of (c : GraphClass) (h : list Node) (n : NodeRef)
    (colour : string) : list Edge :=
  match _add_node c h [] ([], []) n colour with
  | Ok hop => hop.2
  | _ => []
  end.

(** The edges [add_nodes] collects in one hop for the collection [F]: those
    of its nodes taken in their total order, each in the colour of its
    rank. *)
Definition edges_of_hop (cfg : Config) (c : GraphClass) (h : list Node)
    (F : list NodeRef) : list Edge :=
  concat (imap (λ i n, edges_of c h n (rainbowcolour cfg i (length F)))
            (sorted F)).

(** [emits k]: whether the step [k] of [_add_node] returns, and the edges it
    appends when it does, depend neither on what was added before nor on
    the hop so far. *)
Definition emits (k : list NodeRef → Hop → result Hop) : Prop :=
  (∃ es, ∀ added hop, ∃ hop', k added hop = Ok hop' ∧ hop'.2 = hop.2 ++ es)
  ∨ (∀ added hop hop', k added hop ≠ Ok hop').

End ClaimDefs.
Export ClaimDefs.

(** * Properties of the registry *)

Module RegistryFacts.

(** ** Running the monad *)

Lemma bind_Ok {A B} (m : M A) (k : A → M B) s b s'' :
  (m ≫= k) s = Ok (b, s'') ↔
  ∃ a s', m s = Ok (a, s') ∧ k a s' = Ok (b, s'').
Proof.
  unfold mbind, M_bind. split.
  - destruct (m s) as [[a s']| |]; [eauto|done..].
  - by intros (a & s' & -> & ?).
Qed.

Lemma bind_run {A B} (m : M A) (k : A → M B) s a s' :
  m s = Ok (a, s') → (m ≫= k) s = k a s'.
Proof. unfold mbind, M_bind. by intros ->. Qed.

Lemma bind_Diverge {A B} (m : M A) (k : A → M B) s :
  m s = Diverge → (m ≫= k) s = Diverge.
Proof. unfold mbind, M_bind. by intros ->. Qed.

Lemma bind_Raise {A B} (m : M A) (k : A → M B) s e :
  m s = Raise e → (m ≫= k) s = Raise e.
Proof. unfold mbind, M_bind. by intros ->. Qed.

#[export] Instance ext_refl : Reflexive ext.
Proof. intros s. split; [done|auto]. Qed.

#[export] Instance ext_trans : Transitive ext.
Proof. intros s1 s2 s3 [? H12] [? H23]. split; [by etrans|auto]. Qed.

Lemma ext_objs s s' o x :
  ext s s' → objs s !! o = Some x → objs s' !! o = Some x.
Proof. intros [[k ->] _] ?. by apply lookup_app_l_Some. Qed.

Lemma sound_ret {A} (a : A) : sound (mret a : M A).
Proof. intros s. simpl. reflexivity. Qed.

Lemma sound_bind {A B} (m : M A) (k : A → M B) :
  sound m → (∀ a, sound (k a)) → sound (m ≫= k).
Proof.
  intros Hm Hk s. unfold mbind, M_bind. specialize (Hm s).
  destruct (m s) as [[a s']| |]; [|done..].
  specialize (Hk a s'). destruct (k a s') as [[b s'']| |]; [|done..].
  by etrans.
Qed.

Lemma sound_raise {A} (e : exn) :
  (∀ msg, e ≠ BadType msg) → sound (raise e : M A).
Proof. intros He s msg ->. by destruct (He msg). Qed.

Lemma sound_diverge {A} : sound (diverge : M A).
Proof. by intros s. Qed.

Lemma sound_for {A} (xs : list A) (body : A → M ()) :
  (∀ x, sound (body x)) → sound (for_ xs body).
Proof.
  intros Hb. induction xs as [|x xs IH]; simpl.
  - apply sound_ret.
  - apply sound_bind; [apply Hb|by intros _].
Qed.

(** A step that leaves the entity store and the registry alone and raises
    no [BadType]. *)
Lemma sound_frame {A} (m : M A) :
  (∀ s, match m s with
        | Ok (_, s') => objs s' = objs s ∧ data s' = data s
        | Raise e => ∀ msg, e ≠ BadType msg
        | Diverge => True
        end) →
  sound m.
Proof.
  intros H s. specialize (H s). destruct (m s) as [[a s']|e|]; [| |done].
  - destruct H as [Ho Hd]. split; [by rewrite Ho|by rewrite Hd].
  - intros msg ->. by destruct (H msg).
Qed.

Lemma sound_deref o : sound (deref o).
Proof. apply sound_frame. intros s. unfold deref. by destruct (objs s !! o). Qed.

Lemma sound_node_at r : sound (node_at r).
Proof.
  apply sound_frame. intros s. unfold node_at. by destruct (heap s !! addr r).
Qed.

Lemma sound_getattr r a : sound (getattr r a).
Proof.
  apply sound_bind; [apply sound_node_at|]. intros n.
  destruct (n_dict n !! a); [apply sound_ret|by apply sound_raise].
Qed.

Lemma sound_setattr r a v : sound (setattr r a v).
Proof.
  apply sound_frame. intros s. unfold setattr. by destruct (heap s !! addr r).
Qed.

Lemma sound_delattr r a : sound (delattr r a).
Proof.
  apply sound_frame. intros s. unfold delattr.
  destruct (heap s !! addr r) as [n|]; [|done]. by destruct (n_dict n !! a).
Qed.

Lemma sound_attr_add r a x : sound (attr_add r a x).
Proof.
  apply sound_bind; [apply sound_getattr|]. intros v.
  destruct v; (apply sound_setattr || by apply sound_raise).
Qed.

Lemma sound_attr_incr r a k : sound (attr_incr r a k).
Proof.
  apply sound_bind; [apply sound_getattr|]. intros v.
  destruct v, k; (apply sound_setattr || by apply sound_raise).
Qed.

Lemma sound_attr_label r a k nm : sound (attr_label r a k nm).
Proof.
  apply sound_bind; [apply sound_getattr|]. intros v.
  destruct v; try by apply sound_raise.
  destruct (dict_get k d); apply sound_setattr.
Qed.

Lemma sound_new_node t id d : sound (new_node t id d).
Proof. by apply sound_frame. Qed.

Lemma sound_new_obj x : sound (new_obj x).
Proof. intros s. simpl. split; [by apply prefix_app_r|done]. Qed.

Lemma sound_coll_contains c o : sound (coll_contains c o).
Proof. by apply sound_frame. Qed.

Lemma sound_coll_getitem c o : sound (coll_getitem c o).
Proof.
  apply sound_frame. intros s. unfold coll_getitem.
  by destruct (collection c (data s) !! o).
Qed.

Lemma sound_lift {A} (r : result A) :
  (∀ e, r = Raise e → fair e) → sound (lift r).
Proof. intros H s. destruct r; simpl; [reflexivity|by apply H|done]. Qed.

Create HintDb sound discriminated.

#[export] Hint Resolve sound_ret sound_diverge sound_deref sound_node_at
  sound_getattr sound_setattr sound_delattr sound_attr_add sound_attr_incr
  sound_attr_label sound_new_node sound_new_obj sound_coll_contains
  sound_coll_getitem : sound.

(** Walks through a monadic program: binds, loops, branches, and the
    primitive steps of the hint base. *)
Ltac sound_step :=
  match goal with
  | |- sound (mbind _ _) => apply sound_bind; [|intros ?]
  | |- sound (for_ _ _) => apply sound_for; intros ?
  | |- sound (raise _) => by apply sound_raise
  | |- sound (let '(_, _) := ?x in _) => destruct x
  | |- sound (match ?x with _ => _ end) => destruct x
  | |- sound _ => solve [auto with sound]
  end.

Ltac sound_tac := repeat sound_step.

Section Constructors.
Context (cfg : Config) (get_node : GetNode).
Hypothesis get_node_sound : ∀ v hist, sound (get_node v hist).

Local Hint Resolve get_node_sound : sound.

Lemma sound_type_of v : sound (type_of v).
Proof. unfold type_of. sound_tac. Qed.

Lemma sound_obj_of a v : sound (obj_of a v).
Proof. unfold obj_of. sound_tac. Qed.

Lemma sound_required {A} a (x : option A) : sound (required a x).
Proof. unfold required. sound_tac. Qed.

Lemma sound_getattr_visible v b : sound (getattr_visible v b).
Proof. unfold getattr_visible. sound_tac. Qed.

Local Hint Resolve sound_type_of sound_obj_of sound_required
  sound_getattr_visible : sound.

Lemma sound_BaseNode_init t ptype obj : sound (BaseNode_init cfg t ptype obj).
Proof. unfold BaseNode_init. sound_tac. Qed.

Lemma sound_hist_or_get hist obj self v :
  sound (hist_or_get get_node hist obj self v).
Proof. unfold hist_or_get. sound_tac. Qed.

Lemma sound_self_fromstr self : sound (self_fromstr self).
Proof. unfold self_fromstr. sound_tac. Qed.

Local Hint Resolve sound_BaseNode_init sound_hist_or_get sound_self_fromstr
  : sound.

Lemma sound_ModNode_init t obj hist :
  sound (ModNode_init cfg t get_node obj hist).
Proof. unfold ModNode_init. sound_tac. Qed.

Local Hint Resolve sound_ModNode_init : sound.

Lemma sound_SubmodNode_init obj hist :
  sound (SubmodNode_init cfg get_node obj hist).
Proof. unfold SubmodNode_init. sound_tac. Qed.

Lemma sound_TypeNode_init obj hist :
  sound (TypeNode_init cfg get_node obj hist).
Proof. unfold TypeNode_init. sound_tac. Qed.

Lemma sound_ProcNode_init obj hist :
  sound (ProcNode_init cfg get_node obj hist).
Proof. unfold ProcNode_init. sound_tac. Qed.

Lemma sound_ProgNode_init obj hist :
  sound (ProgNode_init cfg get_node obj hist).
Proof. unfold ProgNode_init, ProgNode_use, ProgNode_call. sound_tac. Qed.

Lemma sound_BlockNode_init obj hist :
  sound (BlockNode_init cfg get_node obj hist).
Proof. unfold BlockNode_init. sound_tac. Qed.

Lemma sound_FileNode_init obj hist :
  sound (FileNode_init cfg get_node obj hist).
Proof. unfold FileNode_init. sound_tac. Qed.

Lemma sound_construct t obj hist : sound (construct cfg t get_node obj hist).
Proof.
  destruct t; simpl;
    auto using sound_ModNode_init, sound_SubmodNode_init, sound_TypeNode_init,
      sound_ProcNode_init, sound_ProgNode_init, sound_BlockNode_init,
      sound_FileNode_init.
Qed.

(** *** The classifier *)

Lemma classify_cases c :
  (∃ coll t, collection_and_node_type c = Ok (coll, t)) ∨ unrecognised c.
Proof.
  unfold unrecognised, collection_and_node_type.
  repeat (case_match; [eauto|]). by right.
Qed.

Lemma collection_set_eq c m d : collection c (set_collection c m d) = m.
Proof. by destruct c. Qed.

Lemma collection_set_ne c c' m d :
  c ≠ c' → collection c' (set_collection c m d) = collection c' d.
Proof. by destruct c, c'. Qed.

(** What [_get_collection_and_node_type] answers. *)
Lemma classify_Ok obj o coll t s s' :
  _get_collection_and_node_type obj s = Ok (o, coll, t, s') ↔
  s' = s ∧ obj = PObj o ∧
  ∃ x, objs s !! o = Some x ∧ collection_and_node_type (cls x) = Ok (coll, t).
Proof.
  unfold _get_collection_and_node_type.
  destruct obj as [| |?|o']; try (by split; [|intros (_ & ? & _)]).
  cbv [mbind M_bind mret M_ret deref lift type_of].
  destruct (objs s !! o') as [x|] eqn:Hx.
  - destruct (collection_and_node_type (cls x)) as [[c' t']| |] eqn:Hc;
      (split; [try done|]).
    + intros [= -> -> -> ->]. eauto.
    + intros (-> & [= ->] & x' & Hx' & Hc'). congruence.
    + intros (_ & [= ->] & x' & Hx' & Hc'). congruence.
    + intros (_ & [= ->] & x' & Hx' & Hc'). congruence.
  - split; [done|]. intros (_ & [= ->] & x' & ? & _). congruence.
Qed.

Lemma sound_classify obj : sound (_get_collection_and_node_type obj).
Proof.
  intros s. unfold _get_collection_and_node_type.
  assert (∀ c, sound (lift (collection_and_node_type c))) as Hl.
  { intros c. apply sound_lift. intros e He msg ->.
    destruct (classify_cases c) as [(? & ? & Hc)|Hc]; rewrite Hc in He; [done|].
    injection He as <-. eauto. }
  destruct obj as [| |?|o];
    cbv [mbind M_bind mret M_ret deref lift type_of raise].
  - intros msg [= <-]. by exists PyNoneType.
  - intros msg [= <-]. by exists PyBool.
  - intros msg [= <-]. by exists PyStr.
  - destruct (objs s !! o) as [x|]; [|done].
    specialize (Hl (cls x) s). unfold lift in Hl.
    by destruct (collection_and_node_type (cls x)) as [[]| |].
Qed.

(** [register] with a sound [get_node] is sound: the entry it writes was
    absent when it started. *)
Lemma sound_register_with obj hist :
  sound (register_with cfg get_node obj hist).
Proof.
  intros s. unfold register_with.
  pose proof (sound_classify obj s) as Hc.
  unfold mbind at 1, M_bind.
  destruct (_get_collection_and_node_type obj s) as [[[[o coll] t] s0]|e|] eqn:E;
    [|done..].
  apply classify_Ok in E as (-> & -> & x & Hx & Hcls).
  unfold mbind at 1, M_bind, coll_contains.
  case_bool_decide as Hin; [cbv [mret M_ret]; reflexivity|].
  unfold mbind, M_bind.
  pose proof (sound_construct t (PObj o) hist s) as Hn.
  destruct (construct cfg t get_node (PObj o) hist s) as [[n s1]|e|]; [|done..].
  simpl. destruct Hn as [Hpre Hreg]. split; [done|]. simpl.
  intros c o' r Hr. destruct (decide (c = coll)) as [->|Hne].
  - rewrite collection_set_eq. rewrite lookup_insert_ne; [by apply Hreg|].
    intros <-. apply Hin. by rewrite Hr.
  - rewrite collection_set_ne by done. by apply Hreg.
Qed.

Lemma sound_get_node_with obj hist :
  sound (get_node_with cfg get_node obj hist).
Proof.
  unfold get_node_with. pose proof sound_classify. pose proof sound_register_with.
  sound_tac.
Qed.

End Constructors.

(** Every lookup is sound, whatever its fuel. *)
Lemma sound_get_node cfg fuel obj hist : sound (get_node cfg fuel obj hist).
Proof.
  revert obj hist. induction fuel as [|fuel IH]; intros obj hist; simpl.
  - apply sound_diverge.
  - by apply sound_get_node_with.
Qed.

Lemma sound_register cfg fuel obj hist : sound (register cfg fuel obj hist).
Proof. apply sound_register_with, sound_get_node. Qed.

Lemma get_node_ext cfg fuel obj hist s r s' :
  get_node cfg fuel obj hist s = Ok (r, s') → ext s s'.
Proof.
  intros H. pose proof (sound_get_node cfg fuel obj hist s) as Hs.
  by rewrite H in Hs.
Qed.

(** A lookup that returns has read its answer from the dictionary of the
    entity's kind. *)
Lemma get_node_entry cfg fuel obj hist s r s' :
  get_node cfg fuel obj hist s = Ok (r, s') →
  ∃ o x coll t,
    obj = PObj o ∧ objs s !! o = Some x ∧
    collection_and_node_type (cls x) = Ok (coll, t) ∧
    collection coll (data s') !! o = Some r.
Proof.
  destruct fuel as [|fuel]; [done|]. simpl. unfold get_node_with.
  intros H. apply bind_Ok in H as ([[o coll] t] & s0 & Hc & H).
  apply classify_Ok in Hc as (-> & -> & x & Hx & Hcls).
  apply bind_Ok in H as (b & s1 & _ & H).
  apply bind_Ok in H as ([] & s2 & _ & H).
  unfold coll_getitem in H.
  destruct (collection coll (data s2) !! o) as [r'|] eqn:Hr; [|done].
  injection H as -> ->. eauto 10.
Qed.

(** A lookup of a registered entity answers from the dictionary and leaves
    the state as it is. *)
Lemma get_node_hit cfg fuel o x coll t hist s r :
  objs s !! o = Some x →
  collection_and_node_type (cls x) = Ok (coll, t) →
  collection coll (data s) !! o = Some r →
  get_node cfg (S fuel) (PObj o) hist s = Ok (r, s).
Proof.
  intros Hx Hcls Hr. simpl. unfold get_node_with.
  assert (_get_collection_and_node_type (PObj o) s = Ok (o, coll, t, s)) as Hc.
  { apply classify_Ok. eauto. }
  rewrite (bind_run _ _ _ _ _ Hc).
  unfold mbind at 1, M_bind, coll_contains. rewrite Hr.
  rewrite bool_decide_eq_true_2 by eauto.
  unfold mbind, M_bind, mret, M_ret, coll_getitem. by rewrite Hr.
Qed.

(** ** Modules that use each other *)

Lemma type_of_obj o x s :
  objs s !! o = Some x → type_of (PObj o) s = Ok (cls x, s).
Proof. intros Hx. cbv [type_of mbind M_bind mret M_ret deref]. by rewrite Hx. Qed.

Lemma deref_run o x s : objs s !! o = Some x → deref o s = Ok (x, s).
Proof. intros Hx. unfold deref. by rewrite Hx. Qed.

(** [BaseNode.__init__] on a module of the corpus returns, with [fromstr]
    false, and leaves the state alone. *)
Lemma BaseNode_init_module cfg t ptype o x s :
  objs s !! o = Some x → cls x = FortranModule →
  ∃ id d, BaseNode_init cfg t ptype (PObj o) s = Ok (id, false, d, s).
Proof.
  intros Hx Hcls. unfold BaseNode_init.
  rewrite (bind_run _ _ _ _ _ (type_of_obj _ _ _ Hx)), Hcls.
  change (isinstance FortranModule External_classes) with false.
  change (bool_decide (FortranModule = PyStr)) with false.
  cbv [mbind M_bind mret M_ret obj_of getattr_visible].
  rewrite !(deref_run _ _ _ Hx). eauto.
Qed.

(** [ModNode.__init__] looks its first use up before anything else can end
    the construction: when that lookup does not return, neither does the
    constructor. *)
Lemma ModNode_init_diverges cfg get_node o x u us hist s :
  objs s !! o = Some x → cls x = FortranModule → uses x = Some (u :: us) →
  (∀ s', objs s' = objs s → data s' = data s → get_node u None s' = Diverge) →
  ModNode_init cfg ModNode get_node (PObj o) hist s = Diverge.
Proof.
  intros Hx Hcls Huses Hdiv. unfold ModNode_init.
  destruct (BaseNode_init_module cfg ModNode EmptyString o x s Hx Hcls)
    as (id & d & Hbase).
  rewrite (bind_run _ _ _ _ _ Hbase).
  unfold mbind at 1, M_bind at 1, new_node.
  cbv [obj_of]. erewrite bind_run; [|by apply deref_run].
  rewrite Huses. cbv [required]. erewrite bind_run; [|reflexivity].
  apply bind_Diverge. simpl. apply bind_Diverge, bind_Diverge. by apply Hdiv.
Qed.

(** Two modules of which each names the other first in its [uses]: as long
    as neither is registered, looking either up never returns. Nothing on
    the way registers a module, and [ModNode.__init__] ignores [hist]. *)
Lemma mutual_use_diverges cfg fuel : ∀ o1 o2 x1 x2 us1 us2 hist s,
  objs s !! o1 = Some x1 → objs s !! o2 = Some x2 →
  cls x1 = FortranModule → cls x2 = FortranModule →
  uses x1 = Some (PObj o2 :: us1) → uses x2 = Some (PObj o1 :: us2) →
  gd_modules (data s) !! o1 = None → gd_modules (data s) !! o2 = None →
  get_node cfg fuel (PObj o1) hist s = Diverge.
Proof.
  induction fuel as [|fuel IH]; intros o1 o2 x1 x2 us1 us2 hist s
    Hx1 Hx2 Hc1 Hc2 Hu1 Hu2 Hr1 Hr2; [done|].
  simpl. unfold get_node_with.
  assert (_get_collection_and_node_type (PObj o1) s = Ok (o1, Modules, ModNode, s))
    as Hcl.
  { apply classify_Ok. do 2 (split; [done|]). exists x1. by rewrite Hc1. }
  rewrite (bind_run _ _ _ _ _ Hcl).
  unfold mbind at 1, M_bind at 1, coll_contains. simpl. rewrite Hr1.
  rewrite bool_decide_eq_false_2 by (by intros [? ?]).
  apply bind_Diverge. unfold register_with.
  rewrite (bind_run _ _ _ _ _ Hcl).
  unfold mbind at 1, M_bind at 1, coll_contains. simpl. rewrite Hr1.
  rewrite bool_decide_eq_false_2 by (by intros [? ?]).
  apply bind_Diverge. simpl.
  eapply ModNode_init_diverges; [done..|].
  intros s' Ho Hd. eapply (IH o2 o1); rewrite ?Ho, ?Hd; eauto.
Qed.

(** C2 (cycle termination), at its own scenario: module [a] uses module
    [b] and [b] uses [a]. Looking [a] up in an empty registry does not
    return, whatever the fuel, and so neither does the construction of
    [a]'s uses graph: [ModNode.__init__] enters the lookup of [b] before
    [a] is registered and does not consult [hist]. *)
Theorem C2_mutual_modules_never_return cfg fuel :
  get_node cfg fuel (PObj 0%nat) None (start mutual_modules) = Diverge
  ∧ __init__ cfg fuel UsesGraph [0%nat] EmptyString None (start mutual_modules)
    = Diverge.
Proof.
  assert (get_node cfg fuel (PObj 0%nat) None (start mutual_modules) = Diverge)
    as Hdiv by (by eapply (mutual_use_diverges cfg fuel 0%nat 1%nat)).
  split; [done|]. unfold __init__.
  erewrite bind_run; [|reflexivity]. apply bind_Diverge.
  simpl. by apply bind_Diverge.
Qed.

(** Where the constructor guards the cycle, the lookup returns and the
    node refers to itself once: a subroutine that calls itself, a derived
    type with a component of its own type. *)
Example recursive_subroutine_returns :
  ∃ r s',
    get_node plain 1 (PObj 0%nat) None (start recursive_subroutine)
    = Ok (r, s')
    ∧ length (heap s') = 1%nat
    ∧ (heap s' !! addr r) ≫= (λ n, n_dict n !! "calls") = Some (ASet [r])
    ∧ (heap s' !! addr r) ≫= (λ n, n_dict n !! "called_by")
      = Some (ASet [r]).
Proof. eexists _, _. split; [vm_compute; reflexivity|]. by vm_compute. Qed.

Example linked_list_type_returns :
  ∃ r s',
    get_node plain 1 (PObj 0%nat) None (start linked_list_type) = Ok (r, s')
    ∧ length (heap s') = 1%nat
    ∧ (heap s' !! addr r) ≫= (λ n, n_dict n !! "comp_types")
      = Some (ADict [(r, "next")]).
Proof. eexists _, _. split; [vm_compute; reflexivity|]. by vm_compute. Qed.

(** ** Lookups of one entity *)

Lemma lookups_ext cfg s s' : lookups cfg s s' → ext s s'.
Proof.
  induction 1 as [s|s s1 s2 fuel obj hist r Hg _ IH|s s1 s2 fuel obj hist Hr _ IH].
  - reflexivity.
  - etrans; [by eapply get_node_ext|done].
  - etrans; [|done].
    pose proof (sound_register cfg fuel obj hist s) as Hs. by rewrite Hr in Hs.
Qed.

Lemma node_eq_ident a b : node_eq a b = true ↔ node_ident a = node_ident b.
Proof. unfold node_eq. apply String.eqb_eq. Qed.

(** C5 (identity uniqueness), as the code has it. A lookup that returned
    node [r] for an entity object returns the same instance [r] at every
    later lookup of that object, whatever lookups and registrations
    returned in between, and leaves the registry as it is, so that it makes
    no node; an entry that a registry dictionary holds when a lookup has
    returned is still there, unchanged, after any lookups and registrations
    that return afterwards; a plain string is not looked up but rejected
    with [BadType]; and nodes compare by their ident alone. *)
Theorem C5_same_instance cfg fuel obj hist s r s1 :
  get_node cfg fuel obj hist s = Ok (r, s1) →
  (∀ s2 fuel' hist',
     lookups cfg s1 s2 →
     get_node cfg (S fuel') obj hist' s2 = Ok (r, s2))
  ∧ (∀ s2 c o r', lookups cfg s1 s2 →
       collection c (data s1) !! o = Some r' →
       collection c (data s2) !! o = Some r')
  ∧ (∀ str fuel' hist' s',
       get_node cfg (S fuel') (PStr str) hist' s'
       = Raise (BadType (bad_type_message PyStr)))
  ∧ (∀ a b, node_eq a b = true ↔ node_ident a = node_ident b).
Proof.
  intros Hget. split; [|split; [|split]].
  - intros s2 fuel' hist' Hl.
    pose proof (get_node_ext _ _ _ _ _ _ _ Hget) as Hext1.
    apply get_node_entry in Hget as (o & x & coll & t & -> & Hx & Hcls & Hr).
    apply lookups_ext in Hl as Hext2.
    eapply get_node_hit; [|done|by apply Hext2].
    eapply ext_objs; [done|]. by eapply ext_objs.
  - intros s2 c o r' Hl. by apply (lookups_ext _ _ _ Hl).
  - done.
  - apply node_eq_ident.
Qed.

(** [C5_same_instance] on the chain of modules: after module [a] was
    looked up, and module [d] after it, a second lookup of [a] returns the
    node of the first, and the entry of [b] is as it was. *)
Lemma C5_same_instance_witness :
  ∃ r s1 r' s2,
    get_node plain 3 (PObj 0%nat) None (start (chain_modules 10 10 false))
    = Ok (r, s1)
    ∧ get_node plain 1 (PObj 3%nat) None s1 = Ok (r', s2)
    ∧ get_node plain 1 (PObj 0%nat) None s2 = Ok (r, s2)
    ∧ gd_modules (data s2) !! 1%nat
      = Some {| addr := 1; node_ident := "module~b"; node_type := ModNode |}.
Proof.
  assert (∃ r s1,
            get_node plain 3 (PObj 0%nat) None
              (start (chain_modules 10 10 false)) = Ok (r, s1)
            ∧ gd_modules (data s1) !! 1%nat
              = Some {| addr := 1; node_ident := "module~b";
                        node_type := ModNode |}
            ∧ ∃ r' s2, get_node plain 1 (PObj 3%nat) None s1 = Ok (r', s2))
    as (r & s1 & Hfirst & Hentry & r' & s2 & Hnext).
  { eexists _, _. split; [vm_compute; reflexivity|].
    split; [vm_compute; reflexivity|].
    eexists _, _. vm_compute; reflexivity. }
  assert (lookups plain s1 s2) as Hl.
  { eapply lookups_get_node; [exact Hnext|apply lookups_refl]. }
  pose proof (C5_same_instance _ _ _ _ _ _ _ Hfirst) as (Hsame & Hkeep & _).
  exists r, s1, r', s2. split; [exact Hfirst|]. split; [exact Hnext|].
  split; [exact (Hsame s2 0%nat None Hl)|].
  exact (Hkeep s2 Modules 1%nat _ Hl Hentry).
Defined.

(** ** Program nodes *)

(** C8 (string-valued targets of a program) at its failing input. A call
    target that is a plain string has no [visible] attribute, so
    [getattr(c, "visible", False)] is false and the loop skips it before
    it is wrapped: the step changes nothing, for every string and every
    state. For the program that uses "mpi" and calls "foo", both by
    strings, the node has the placeholder of "mpi" in [uses] and nothing in
    [calls], and no placeholder object for "foo" was made. *)
Theorem C8_string_call_target_skipped :
  (∀ get_node self str s,
     ProgNode_call get_node self (PStr str) s = Ok ((), s))
  ∧ ∃ r s',
      get_node plain 3 (PObj 0%nat) None (start string_program) = Ok (r, s')
      ∧ (heap s' !! addr r) ≫= (λ n, n_dict n !! "uses")
        = Some (ASet [{| addr := 1; node_ident := "mpi";
                         node_type := ModNode |}])
      ∧ (heap s' !! addr r) ≫= (λ n, n_dict n !! "calls") = Some (ASet [])
      ∧ name <$> objs s' = ["p"; "mpi"; "mpi"].
Proof.
  split; [done|].
  eexists _, _. split; [vm_compute; reflexivity|]. by vm_compute.
Qed.

(** ** The classifier *)

Lemma recognised_false c : recognised c = false → unrecognised c.
Proof.
  unfold recognised, unrecognised, collection_and_node_type.
  by destruct (is_module c), (is_submodule c), (is_type c), (is_proc c),
    (is_program c), (is_sourcefile c), (is_blockdata c).
Qed.

Lemma recognised_true c :
  recognised c = true → ∃ coll t, collection_and_node_type c = Ok (coll, t).
Proof.
  unfold recognised, collection_and_node_type.
  destruct (is_module c), (is_submodule c), (is_type c), (is_proc c),
    (is_program c), (is_sourcefile c), (is_blockdata c); by eauto.
Qed.

Lemma unrecognised_false c : unrecognised c → recognised c = false.
Proof.
  intros Hu. destruct (recognised c) eqn:Hr; [|done].
  apply recognised_true in Hr as (? & ? & Hr). congruence.
Qed.

Lemma type_of_Ok obj s c s' :
  type_of obj s = Ok (c, s') →
  s' = s ∧ match obj with
           | PNone => c = PyNoneType
           | PBool _ => c = PyBool
           | PStr _ => c = PyStr
           | PObj o => ∃ x, objs s !! o = Some x ∧ c = cls x
           end.
Proof.
  destruct obj as [| | |o]; cbv [type_of mbind M_bind mret M_ret deref];
    try by intros [= <- <-].
  destruct (objs s !! o) as [x|]; [|done]. intros [= <- <-]. eauto.
Qed.

(** The classifier on the classes of [ford.sourceform]: a submodule goes
    to the submodules although it is a module too, the four kinds of
    procedure share a dictionary, a placeholder goes where its kind goes. *)
Example classifier_table :
  collection_and_node_type <$>
    [FortranSubmodule; FortranModule; FortranType; FortranFunction;
     FortranSubroutine; FortranInterface; FortranSubmoduleProcedure;
     FortranProgram; FortranSourceFile; FortranBlockData; ExternalModule;
     ExternalSubmodule]
  = Ok <$>
    [(Submodules, SubmodNode); (Modules, ModNode); (Types, TypeNode);
     (Procedures, ProcNode); (Procedures, ProcNode); (Procedures, ProcNode);
     (Procedures, ProcNode); (Programs, ProgNode); (Sourcefiles, FileNode);
     (Blockdata, BlockNode); (Modules, ModNode); (Submodules, SubmodNode)].
Proof. reflexivity. Qed.

End RegistryFacts.

(** * Properties of the graph builder *)

Module GraphFacts.
Import RegistryFacts.

(** ** Running the exception monad *)

Lemma rbind_Ok {A B} (m : result A) (k : A → result B) b :
  m ≫= k = Ok b ↔ ∃ a, m = Ok a ∧ k a = Ok b.
Proof.
  unfold mbind, result_bind. split.
  - destruct m; [eauto|done..].
  - by intros (a & -> & ?).
Qed.

Lemma lift_Ok {A} (r : result A) s a s' :
  lift r s = Ok (a, s') ↔ r = Ok a ∧ s' = s.
Proof.
  unfold lift. destruct r; split; try done.
  - by intros [= -> ->].
  - by intros [[= ->] ->].
  - by intros [? _].
  - by intros [? _].
Qed.

(** ** Sets of nodes *)

Lemma set_add_length x s : (length (set_add x s) ≤ S (length s))%nat.
Proof.
  unfold set_add. destruct (set_in x s); [lia|]. rewrite length_app. simpl. lia.
Qed.

Lemma set_update_length s xs :
  (length (set_update s xs) ≤ length s + length xs)%nat.
Proof.
  unfold set_update. revert s. induction xs as [|x xs IH]; intros s; simpl.
  - lia.
  - etrans; [apply IH|]. pose proof (set_add_length x s). lia.
Qed.

Lemma set_in_add x y s : set_in x s = true → set_in x (set_add y s) = true.
Proof.
  unfold set_add. destruct (set_in y s); [done|].
  unfold set_in. rewrite existsb_app. by intros ->.
Qed.

Lemma set_in_add_eq x s : set_in x (set_add x s) = true.
Proof.
  unfold set_add. destruct (set_in x s) eqn:E; [done|].
  unfold set_in. rewrite existsb_app. simpl.
  unfold node_eq. by rewrite String.eqb_refl, orb_true_r.
Qed.

Lemma set_in_update_l x s xs :
  set_in x s = true → set_in x (set_update s xs) = true.
Proof.
  unfold set_update. revert s. induction xs as [|y xs IH]; intros s; simpl.
  - done.
  - intros H. by apply IH, set_in_add.
Qed.

Lemma set_in_update_r x s xs : x ∈ xs → set_in x (set_update s xs) = true.
Proof.
  unfold set_update. revert s. induction xs as [|y xs IH]; intros s; simpl.
  - by intros ?%elem_of_nil.
  - intros [->|Hx]%elem_of_cons.
    + apply (set_in_update_l _ _ xs), set_in_add_eq.
    + by apply IH.
Qed.

(** ** One hop *)

#[export] Instance same_limits_refl : Reflexive same_limits.
Proof. by intros g. Qed.

Lemma same_limits_trans g1 g2 g3 :
  same_limits g1 g2 → same_limits g2 g3 → same_limits g1 g3.
Proof.
  unfold same_limits. intros (?&?&?&?&?) (?&?&?&?&?).
  by repeat split; congruence.
Qed.

Lemma extra_attributes_fields g :
  same_limits g (_extra_attributes g)
  ∧ added (_extra_attributes g) = added g
  ∧ admitted (_extra_attributes g) = admitted g
  ∧ truncated (_extra_attributes g) = truncated g
  ∧ hop_nodes (_extra_attributes g) = hop_nodes g
  ∧ hop_edges (_extra_attributes g) = hop_edges g.
Proof. unfold _extra_attributes. by destruct g as [[] ???????????? ???]. Qed.

Lemma set_truncated_fields g t :
  same_limits g (set_truncated g t)
  ∧ added (set_truncated g t) = added g
  ∧ admitted (set_truncated g t) = admitted g
  ∧ truncated (set_truncated g t) = t
  ∧ hop_nodes (set_truncated g t) = hop_nodes g
  ∧ hop_edges (set_truncated g t) = hop_edges g.
Proof. by destruct g. Qed.

(** [add_to_graph] admits a hop whole or not at all. *)
Lemma add_to_graph_Ok h g nodes edges nesting g' extended :
  add_to_graph h g nodes edges nesting = Ok (g', extended) →
  same_limits g g'
  ∧ if extended then
      len nodes + len (added g) ≤ max_nodes g
      ∧ added g' = set_update (added g) nodes
      ∧ admitted g' = admitted g ++ [(nesting, nodes)]
      ∧ truncated g' = truncated g
      ∧ hop_nodes g' = hop_nodes g ∧ hop_edges g' = hop_edges g
    else
      max_nodes g < len nodes + len (added g)
      ∧ added g' = added g ∧ admitted g' = admitted g
      ∧ truncated g' = nesting ∧ dot g' = dot g
      ∧ (nesting < 2 → hop_nodes g' = nodes ∧ hop_edges g' = edges)
      ∧ (2 ≤ nesting →
         hop_nodes g' = hop_nodes g ∧ hop_edges g' = hop_edges g).
Proof.
  unfold add_to_graph.
  destruct (len nodes + len (added g) >? max_nodes g) eqn:Hgt.
  - intros [= <- <-]. apply Z.gtb_lt in Hgt.
    destruct (nesting <? 2) eqn:Hn;
      [apply Z.ltb_lt in Hn|apply Z.ltb_ge in Hn];
      destruct g; simpl in *; repeat split; (done || lia).
  - intros (stmts & _ & [= <- <-])%rbind_Ok.
    assert (len nodes + len (added g) ≤ max_nodes g) as Hle.
    { destruct (Z.gtb_spec (len nodes + len (added g)) (max_nodes g));
        [done|lia]. }
    by destruct g.
Qed.

Lemma add_nodes_fuel_Ok cfg fuel h g nodes nesting g' :
  add_nodes cfg fuel h g nodes nesting = Ok g' →
  ∃ fuel' hn he g1 extended,
    fuel = S fuel'
    ∧ collect_hop cfg (g_class g) h (added g) (length nodes) 0 (sorted nodes)
        ([], []) = Ok (hn, he)
    ∧ add_to_graph h g hn he nesting = Ok (g1, extended)
    ∧ if extended then
        if _should_add_nested_nodes (g_class g1) then
          if len hn =? 0 then g' = _extra_attributes g1
          else if nesting <? max_nesting g1
               then add_nodes cfg fuel' h (_extra_attributes g1) hn
                      (nesting + 1) = Ok g'
               else g' = set_truncated (_extra_attributes g1) nesting
        else g' = _extra_attributes g1
      else g' = g1.
Proof.
  destruct fuel as [|fuel']; [done|]. simpl. unfold add_nodes_with.
  intros ([hn he] & Hc & ([g1 extended] & Ha & H)%rbind_Ok)%rbind_Ok.
  exists fuel', hn, he, g1, extended. do 3 (split; [done|]).
  destruct extended; simpl in H; [|by injection H].
  pose proof (extra_attributes_fields g1) as ((Hcl & _ & _ & Hmn & _) & _).
  rewrite Hcl in H. destruct (_should_add_nested_nodes (g_class g1)).
  - unfold _add_nested_nodes in H. rewrite Hmn in H.
    destruct (len hn =? 0); [by injection H|].
    destruct (nesting <? max_nesting g1); [done|by injection H].
  - by injection H.
Qed.

(** What [add_nodes] keeps: the limits; the size of [added] within the
    node limit, unless it was larger before; the hops it admits between
    its own and the depth limit. *)
Lemma add_nodes_spec cfg fuel : ∀ h g nodes nesting g',
  add_nodes cfg fuel h g nodes nesting = Ok g' →
  same_limits g g'
  ∧ len (added g') ≤ Z.max (len (added g)) (max_nodes g)
  ∧ ∀ j ns, (j, ns) ∈ admitted g' →
      (j, ns) ∈ admitted g ∨ nesting ≤ j ≤ Z.max nesting (max_nesting g).
Proof.
  induction fuel as [|fuel IH]; intros h g nodes nesting g' Hrun; [done|].
  apply add_nodes_fuel_Ok in Hrun
    as (fuel' & hn & he & g1 & extended & [= <-] & _ & Hadd & Hrest).
  apply add_to_graph_Ok in Hadd as [Hlim Hadd].
  destruct extended; [|destruct Hadd as (_ & Ha & Hd & _); subst g'].
  2:{ split; [done|]. rewrite Ha, Hd. split; [lia|auto]. }
  destruct Hadd as (Hle & Ha & Hd & _).
  pose proof (extra_attributes_fields g1) as (Hlim' & Ha' & Hd' & _).
  assert (len (added g1) ≤ Z.max (len (added g)) (max_nodes g)) as Hsize.
  { rewrite Ha. pose proof (set_update_length (added g) hn).
    unfold len in *. lia. }
  assert (∀ j ns, (j, ns) ∈ admitted g1 →
            (j, ns) ∈ admitted g ∨ nesting ≤ j ≤ Z.max nesting (max_nesting g))
    as Hhops.
  { intros j ns. rewrite Hd. intros [?|[= -> ->]%list_elem_of_singleton]%elem_of_app;
      [by left|right; lia]. }
  assert (same_limits g (_extra_attributes g1)) as Hlim2
    by (by eapply same_limits_trans).
  assert (g' = _extra_attributes g1 →
          same_limits g g'
          ∧ len (added g') ≤ Z.max (len (added g)) (max_nodes g)
          ∧ ∀ j ns, (j, ns) ∈ admitted g' →
              (j, ns) ∈ admitted g
              ∨ nesting ≤ j ≤ Z.max nesting (max_nesting g)) as Hdone.
  { intros ->. rewrite Ha', Hd'. auto. }
  destruct (_should_add_nested_nodes (g_class g1)); [|auto].
  destruct (len hn =? 0); [auto|].
  destruct (nesting <? max_nesting g1) eqn:Hdepth.
  - apply Z.ltb_lt in Hdepth.
    apply IH in Hrest as (Hlim3 & Hsize3 & Hhops3).
    destruct Hlim as (_ & _ & Hmx & Hmn & _).
    pose proof Hlim2 as (_ & _ & Hmx2 & Hmn2 & _).
    split; [by eapply same_limits_trans|]. rewrite Ha', Hmx2 in Hsize3.
    split; [lia|]. intros j ns Hj.
    destruct (Hhops3 j ns Hj) as [Hold|Hnew].
    + rewrite Hd' in Hold. auto.
    + right. rewrite Hmn2 in Hnew. rewrite Hmn in Hdepth. lia.
  - subst g'.
    pose proof (set_truncated_fields (_extra_attributes g1) nesting)
      as (Hlim3 & Ha3 & Hd3 & _).
    split; [by eapply same_limits_trans|]. rewrite Ha3, Hd3, Ha', Hd'. auto.
Qed.

(** ** The hops end

    No step of the builder diverges by itself, and the fuel [__init__] gives
    [add_nodes] covers every hop up to the depth limit. *)
Lemma returns_bind {A B} (m : result A) (k : A → result B) :
  returns m → (∀ a, returns (k a)) → returns (m ≫= k).
Proof. unfold returns. destruct m; simpl; [auto|done..]. Qed.

Ltac returns_tac :=
  repeat first
    [ done
    | apply returns_bind; [|intros ?]
    | match goal with
      | |- returns (match ?x with _ => _ end) => destruct x
      end ].

Lemma returns_lookup_attr h r a : returns (lookup_attr h r a).
Proof. unfold lookup_attr. returns_tac. Qed.

Lemma returns_iterate v : returns (iterate v).
Proof. unfold iterate. returns_tac. Qed.

Lemma returns_iter_attr h r a : returns (iter_attr h r a).
Proof.
  unfold iter_attr. pose proof returns_lookup_attr.
  pose proof returns_iterate. returns_tac.
Qed.

Lemma returns_iter_attr_default h r a : returns (iter_attr_default h r a).
Proof.
  unfold iter_attr_default. pose proof returns_lookup_attr.
  pose proof returns_iterate. returns_tac.
Qed.

Lemma returns_dict_attr h r a : returns (dict_attr h r a).
Proof. unfold dict_attr. pose proof returns_lookup_attr. returns_tac. Qed.

Lemma returns_node_attribs h r : returns (node_attribs h r).
Proof. unfold node_attribs. pose proof returns_lookup_attr. returns_tac. Qed.

Lemma returns_node_name h r : returns (node_name h r).
Proof. unfold node_name. pose proof returns_lookup_attr. returns_tac. Qed.

Lemma returns_mapM {A B} (f : A → result B) l :
  (∀ x, returns (f x)) → returns (mapM_result f l).
Proof. intros Hf. induction l; simpl; returns_tac. Qed.

Lemma returns_add_node c h added hop node colour :
  returns (_add_node c h added hop node colour).
Proof.
  pose proof returns_lookup_attr. pose proof returns_iter_attr.
  pose proof returns_iter_attr_default. pose proof returns_dict_attr.
  destruct c; simpl;
    unfold uses_add_node, inherits_add_node, visit_ancestor_if_present,
      visit_ancestor_if_truthy; returns_tac.
Qed.

Lemma returns_collect_hop cfg c h added total nodes : ∀ i hop,
  returns (collect_hop cfg c h added total i nodes hop).
Proof.
  induction nodes as [|n nodes IH]; intros i hop; simpl; [done|].
  apply returns_bind; [apply returns_add_node|auto].
Qed.

Lemma returns_add_to_graph h g nodes edges nesting :
  returns (add_to_graph h g nodes edges nesting).
Proof.
  unfold add_to_graph. pose proof returns_node_attribs.
  destruct (_ >? _); [done|]. apply returns_bind; [|done].
  apply returns_mapM. intros n. returns_tac.
Qed.

Lemma add_nodes_returns cfg fuel : ∀ h g nodes nesting,
  (Z.to_nat (max_nesting g - nesting) < fuel)%nat →
  returns (add_nodes cfg fuel h g nodes nesting).
Proof.
  induction fuel as [|fuel IH]; intros h g nodes nesting Hfuel; [lia|].
  simpl. unfold add_nodes_with.
  apply returns_bind; [apply returns_collect_hop|]. intros [hn he].
  pose proof (add_to_graph_Ok h g hn he nesting) as Hadd.
  pose proof (returns_add_to_graph h g hn he nesting) as Hret.
  destruct (add_to_graph h g hn he nesting) as [[g1 extended]| |]; [|done..].
  simpl. destruct (Hadd _ _ eq_refl) as [(_ & _ & _ & Hmn & _) _].
  destruct extended; simpl; [|done].
  pose proof (extra_attributes_fields g1) as ((_ & _ & _ & Hmn' & _) & _).
  destruct (_should_add_nested_nodes _); [|done].
  unfold _add_nested_nodes. destruct (_ =? _); [done|].
  destruct (nesting <? max_nesting (_extra_attributes g1)) eqn:Hdepth; [|done].
  apply Z.ltb_lt in Hdepth. apply IH. lia.
Qed.

(** ** Construction *)

Lemma deref_all_Ok os : ∀ s rs s',
  deref_all os s = Ok (rs, s') →
  s' = s ∧ Forall (λ r, objs s !! r.1 = Some r.2) rs.
Proof.
  induction os as [|o os IH]; intros s rs s'; simpl.
  - by intros [= <- <-].
  - intros (x & s1 & Hx & (xs & s2 & Hxs & [= <- <-])%bind_Ok)%bind_Ok.
    unfold deref in Hx. destruct (objs s !! o) as [x'|] eqn:Ho; [|done].
    injection Hx as -> <-. apply IH in Hxs as [-> ?]. by split; [|constructor].
Qed.

Lemma deref_all_ext os : ∀ s rs s',
  deref_all os s = Ok (rs, s) → ext s s' → deref_all os s' = Ok (rs, s').
Proof.
  induction os as [|o os IH]; intros s rs s'; simpl.
  - by intros [= <-].
  - intros (x & s1 & Hx & (xs & s2 & Hxs & [= <- <-])%bind_Ok)%bind_Ok Hext.
    apply deref_all_Ok in Hxs as Hs. destruct Hs as [-> _].
    unfold deref in Hx. destruct (objs s1 !! o) as [x'|] eqn:Ho; [|done].
    injection Hx as ->.
    erewrite bind_run; [|by apply deref_run, (ext_objs s1)].
    erewrite bind_run; [done|]. by eapply IH.
Qed.

(** The root loop returns as many nodes as it was given roots and only
    raises the limits. *)
Lemma resolve_roots_Ok cfg fuel rs : ∀ root mn mx w s root' mn' mx' w' s',
  resolve_roots cfg fuel rs (root, mn, mx, w) s = Ok (root', mn', mx', w', s') →
  ext s s' ∧ length root' = (length root + length rs)%nat
  ∧ mn ≤ mn' ∧ mx ≤ mx'.
Proof.
  induction rs as [|[o r] rs IH]; intros root mn mx w s root' mn' mx' w' s';
    simpl.
  - intros [= <- <- <- <- <-]. split; [reflexivity|lia].
  - intros (n & s1 & Hn & Hrest)%bind_Ok.
    apply IH in Hrest as (Hext & Hlen & ? & ?).
    apply get_node_ext in Hn. split; [by etrans|].
    rewrite length_app in Hlen. simpl in *. lia.
Qed.

(** Run again on the state it left, the root loop finds every root in
    the registry: it returns the same nodes and changes nothing. *)
Lemma resolve_roots_again cfg fuel rs : ∀ acc s res s' s'' fuel',
  Forall (λ r, objs s !! r.1 = Some r.2) rs →
  resolve_roots cfg fuel rs acc s = Ok (res, s') →
  ext s' s'' →
  resolve_roots cfg (S fuel') rs acc s'' = Ok (res, s'').
Proof.
  induction rs as [|[o r] rs IH];
    intros [[[root mn] mx] w] s [[[root' mn'] mx'] w'] s' s'' fuel' Hrs Hrun Hext.
  - simpl in *. by injection Hrun as <- <- <- <- <-.
  - simpl in Hrun. apply bind_Ok in Hrun as (n & s1 & Hn & Hrest).
    apply Forall_cons in Hrs as [Hr Hrs]. simpl in Hr.
    pose proof (get_node_ext _ _ _ _ _ _ _ Hn) as Hext1.
    pose proof (resolve_roots_Ok _ _ _ _ _ _ _ _ _ _ _ _ _ Hrest) as (Hext2 & _).
    apply get_node_entry in Hn as (o' & x & coll & t & [= <-] & Hx & Hcls & Hentry).
    cbn [resolve_roots]. erewrite bind_run.
    + eapply IH; [|done..]. eapply Forall_impl; [done|].
      intros [o2 r2] ?. by eapply ext_objs.
    + eapply get_node_hit; [|done|].
      * eapply (ext_objs s); [|done]. by do 2 (etrans; [done|]).
      * by apply Hext, Hext2.
Qed.

Lemma init_Ok cfg fuel c root webdir ident_ s g s' :
  __init__ cfg fuel c root webdir ident_ s = Ok (g, s') ↔
  ∃ rs root_nodes mn mx w id g1 g2,
    deref_all root s = Ok (rs, s)
    ∧ resolve_roots cfg fuel (sorted_by entity_lt rs) ([], 0, 1, false) s
      = Ok (root_nodes, mn, mx, w, s')
    ∧ graph_ident ident_ rs = Ok id
    ∧ add_roots (heap s') (new_graph c root_nodes mn mx w webdir id) = Ok g1
    ∧ add_nodes cfg (S (Z.to_nat (max_nesting g1))) (heap s') g1
        (Graphs.root g1) 1 = Ok g2
    ∧ render cfg g2 = Ok g.
Proof.
  unfold __init__. split.
  - intros (rs & s1 & Hrs & H)%bind_Ok.
    apply deref_all_Ok in Hrs as Hs. destruct Hs as [-> _].
    apply bind_Ok in H as ([[[root_nodes mn] mx] w] & s2 & Hroots & H).
    apply bind_Ok in H as (id & s3 & [Hid ->]%lift_Ok & H).
    apply bind_Ok in H as (h & s4 & [= <- <-] & H).
    apply bind_Ok in H as (g1 & s5 & [Hg1 ->]%lift_Ok & H).
    apply bind_Ok in H as (g2 & s6 & [Hg2 ->]%lift_Ok & [Hg ->]%lift_Ok).
    eauto 15.
  - intros (rs & root_nodes & mn & mx & w & id & g1 & g2
            & Hrs & Hroots & Hid & Hg1 & Hg2 & Hg).
    rewrite (bind_run _ _ _ _ _ Hrs), (bind_run _ _ _ _ _ Hroots).
    erewrite bind_run; [|by apply lift_Ok].
    erewrite bind_run; [|reflexivity].
    erewrite bind_run; [|by apply lift_Ok].
    erewrite bind_run; [|by apply lift_Ok].
    by apply lift_Ok.
Qed.

Lemma add_roots_Ok h g g1 :
  add_roots h g = Ok g1 →
  same_limits g g1 ∧ added g1 = set_update (added g) (root g)
  ∧ admitted g1 = admitted g ∧ truncated g1 = truncated g
  ∧ hop_nodes g1 = hop_nodes g ∧ hop_edges g1 = hop_edges g.
Proof.
  unfold add_roots. intros (stmts & _ & [= <-])%rbind_Ok. by destruct g.
Qed.

Lemma render_Ok cfg g g' :
  render cfg g = Ok g' →
  same_limits g g' ∧ added g' = added g ∧ admitted g' = admitted g
  ∧ truncated g' = truncated g ∧ hop_nodes g' = hop_nodes g
  ∧ hop_edges g' = hop_edges g ∧ dot g' = dot g.
Proof.
  unfold render. repeat case_match; try done; intros [= <-]; by destruct g.
Qed.




(** C6 as the specification words it fails at a depth of zero: the uses
    graph of module [a] with [graph_maxdepth = 0] still admits [b] and [c]
    at hop 1. *)
Lemma C6_counterexample :
  ¬ ∀ cfg fuel c root webdir ident_ s g s',
      __init__ cfg fuel c root webdir ident_ s = Ok (g, s') →
      ∀ j ns, (j, ns) ∈ admitted g → ns ≠ [] → j ≤ max_nesting g.
Proof.
  intros H.
  assert (∃ g s' ns,
            __init__ plain 3 UsesGraph [0%nat] EmptyString None
              (start (chain_modules 0 10 false)) = Ok (g, s')
            ∧ admitted g = [(1, ns)] ∧ ns ≠ [] ∧ max_nesting g = 0)
    as (g & s' & ns & Hrun & Ha & Hns & Hm).
  { eexists _, _, _. split; [vm_compute; reflexivity|]. by vm_compute. }
  specialize (H _ _ _ _ _ _ _ _ _ Hrun 1 ns). rewrite Ha, Hm in H.
  assert (1 ≤ 0); [|lia]. apply H; [by left|done].
Qed.

(** The uses graph of module [a], which uses [b] and [c], of which [b]
    uses [d]: hop 1 admits [b] and [c], hop 2 admits [d], hop 3 is empty. *)
Example uses_graph_of_chain :
  ∃ g s',
    __init__ plain 3 UsesGraph [0%nat] EmptyString None
      (start (chain_modules 10 10 false)) = Ok (g, s')
    ∧ node_ident <$> added g
      = ["module~a"; "module~b"; "module~c"; "module~d"]
    ∧ (λ e, (tail_name e, head_name e)) <$>
        omap (λ st, match st with DotEdge e => Some e | _ => None end)
          (dot_body (dot g))
      = [("module~a", "module~b"); ("module~a", "module~c");
         ("module~b", "module~d")]
    ∧ truncated g = -1.
Proof. eexists _, _. split; [vm_compute; reflexivity|]. by vm_compute. Qed.

(** ** Program roots of a called-by graph *)

Lemma called_by_program h added hop n colour :
  node_type n = ProgNode →
  _add_node CalledByGraph h added hop n colour = Ok hop.
Proof. intros Hn. simpl. by rewrite bool_decide_eq_true_2. Qed.

Lemma collect_hop_programs cfg h added total nodes : ∀ i hop,
  Forall (λ n, node_type n = ProgNode) nodes →
  collect_hop cfg CalledByGraph h added total i nodes hop = Ok hop.
Proof.
  induction nodes as [|n nodes IH]; intros i hop Hall; [done|].
  apply Forall_cons in Hall as [Hn Hall]. cbn [collect_hop].
  rewrite called_by_program by done. simpl. by apply IH.
Qed.

Lemma returns_graph_ident ident_ rs : returns (graph_ident ident_ rs).
Proof. unfold graph_ident. returns_tac. Qed.

Lemma returns_add_roots h g : returns (add_roots h g).
Proof.
  unfold add_roots. pose proof returns_node_name.
  pose proof returns_node_attribs.
  apply returns_bind; [|done]. apply returns_mapM. intros n. returns_tac.
Qed.

Lemma returns_render cfg g : returns (render cfg g).
Proof. unfold render. returns_tac. Qed.

Lemma deref_all_returns os : ∀ s, deref_all os s ≠ Diverge.
Proof.
  induction os as [|o os IH]; intros s; simpl; [done|].
  cbv [mbind M_bind deref]. destruct (objs s !! o); [|done].
  specialize (IH s). by destruct (deref_all os s) as [[]| |].
Qed.

(** The construction of a graph runs out of fuel only inside a registry
    lookup: once the roots are resolved, [__init__] returns or raises. *)
Lemma init_diverges cfg fuel c root webdir ident_ s :
  __init__ cfg fuel c root webdir ident_ s = Diverge →
  ∃ rs, deref_all root s = Ok (rs, s)
        ∧ resolve_roots cfg fuel (sorted_by entity_lt rs) ([], 0, 1, false) s
          = Diverge.
Proof.
  unfold __init__. intros H.
  pose proof (deref_all_returns root s) as Hd.
  pose proof (deref_all_Ok root s) as Hs.
  unfold mbind at 1, M_bind at 1 in H.
  destruct (deref_all root s) as [[rs s1]| |]; [|done..].
  destruct (Hs _ _ eq_refl) as [-> _]. exists rs. split; [done|].
  unfold mbind at 1, M_bind at 1 in H.
  destruct (resolve_roots _ _ _ _ _) as [[[[[rn mn] mx] w] s2]| |];
    [exfalso|done..].
  cbv [mbind M_bind lift get_heap] in H.
  pose proof (returns_graph_ident ident_ rs) as Hid.
  destruct (graph_ident ident_ rs) as [id| |]; [|done..].
  pose proof (returns_add_roots (heap s2) (new_graph c rn mn mx w webdir id))
    as Hr.
  destruct (add_roots _ _) as [g1| |]; [|done..].
  pose proof (add_nodes_returns cfg (S (Z.to_nat (max_nesting g1))) (heap s2)
                g1 (Graphs.root g1) 1) as Ha.
  destruct (add_nodes _ _ _ _ _ _) as [g2| |]; [|done|apply Ha; [lia|done]].
  pose proof (returns_render cfg g2) as Hg.
  by destruct (render cfg g2).
Qed.

(** C10 (programs in a called-by graph). [CalledByGraph._add_node] returns
    at once for a program node: it adds no hop node and no edge, whatever
    the node's relations. So a called-by graph with a single root that is a
    program node admits one hop, which is empty, holds only its root, keeps
    no fallback data, and its string is empty. *)
Theorem C10_called_by_program cfg fuel o webdir ident_ s g s' :
  __init__ cfg fuel CalledByGraph [o] webdir ident_ s = Ok (g, s') →
  (∀ n, n ∈ Graphs.root g → node_type n = ProgNode) →
  (∀ h added hop n colour,
     node_type n = ProgNode →
     _add_node CalledByGraph h added hop n colour = Ok hop)
  ∧ length (Graphs.root g) = 1%nat
  ∧ added g = Graphs.root g
  ∧ admitted g = [(1, [])]
  ∧ hop_nodes g = [] ∧ hop_edges g = []
  ∧ __str__ cfg (heap s') g = Ok ([], EmptyString).
Proof.
  intros (rs & root_nodes & mn & mx & w & id & g1 & g2
          & Hrs & Hroots & _ & Hg1 & Hg2 & Hg)%init_Ok Hprog.
  split; [apply called_by_program|].
  (* one root, and a limit of at least one node *)
  assert (length rs = 1%nat) as Hlen.
  { clear -Hrs. simpl in Hrs.
    apply bind_Ok in Hrs as (x & s1 & _ & (xs & s2 & Hxs & [= <- _])%bind_Ok).
    by injection Hxs as <- _. }
  destruct rs as [|r [|??]]; try done.
  cbn [sorted_by foldr insert_sorted] in Hroots.
  apply resolve_roots_Ok in Hroots as (_ & Hlen' & _ & Hmx).
  destruct root_nodes as [|n [|??]]; try done. clear Hlen Hlen'.
  apply add_roots_Ok in Hg1 as (Hl1 & Ha1 & Hd1 & _ & Hhn1 & He1).
  apply render_Ok in Hg as (Hl3 & Ha3 & Hd3 & _ & Hhn3 & He3 & _).
  destruct Hl1 as (Hc1 & Hr1 & Hmx1 & _).
  simpl in Hc1, Hr1, Hmx1, Ha1, Hd1, Hhn1, He1.
  apply add_nodes_fuel_Ok in Hg2
    as (fuel' & hn & he & g1' & extended & _ & Hhop & Hadd & Hrest).
  assert (node_type n = ProgNode) as Hn.
  { apply Hprog. destruct Hl3 as (_ & -> & _).
    destruct extended.
    - cut (Graphs.root g2 = [n]); [intros ->; by left|].
      apply add_to_graph_Ok in Hadd as [(Hc & Hr & _) _].
      pose proof (extra_attributes_fields g1') as ((_ & Hr' & _) & _).
      pose proof (set_truncated_fields (_extra_attributes g1') 1)
        as ((_ & Hr'' & _) & _).
      repeat case_match; subst; try congruence.
      apply add_nodes_spec in Hrest as ((_ & -> & _) & _). congruence.
    - subst. apply add_to_graph_Ok in Hadd as [(_ & -> & _) _].
      rewrite Hr1. by left. }
  rewrite Hc1, Ha1, Hr1 in Hhop. cbn [sorted sorted_by foldr insert_sorted] in Hhop.
  rewrite collect_hop_programs in Hhop by (by constructor).
  injection Hhop as <- <-.
  apply add_to_graph_Ok in Hadd as [(Hc2 & Hr2 & Hmx2 & _) Hadd].
  destruct extended.
  2:{ destruct Hadd as (Hover & _). rewrite Hmx1, Ha1 in Hover.
      unfold len in Hover. simpl in Hover. lia. }
  destruct Hadd as (_ & Ha2 & Hd2 & _ & Hhn2 & He2).
  rewrite Hc2, Hc1 in Hrest. simpl in Hrest. subst g2.
  pose proof (extra_attributes_fields g1')
    as ((_ & Hr & _) & Ha & Hd & _ & Hhn & He).
  destruct Hl3 as (_ & Hr3 & Hmx3 & _).
  assert (Graphs.root g = [n]) as Hroot by congruence.
  assert (added g = [n]) as Hadded.
  { rewrite Ha3, Ha, Ha2, Ha1. reflexivity. }
  assert (hop_nodes g = []) as Hhnil by congruence.
  rewrite Hroot. do 2 (split; [done|]).
  split; [by rewrite Hd3, Hd, Hd2, Hd1|].
  do 2 (split; [congruence|]).
  unfold __str__. by rewrite Hhnil, Hadded.
Qed.

(** [C10_called_by_program] on a program without relations. *)
Lemma C10_called_by_program_witness :
  ∃ g s',
    __init__ plain 3 CalledByGraph [0%nat] EmptyString None
      (start lone_program) = Ok (g, s')
    ∧ (∀ n, n ∈ Graphs.root g → node_type n = ProgNode)
    ∧ added g = Graphs.root g
    ∧ __str__ plain (heap s') g = Ok ([], EmptyString).
Proof.
  assert (∃ g s',
            __init__ plain 3 CalledByGraph [0%nat] EmptyString None
              (start lone_program) = Ok (g, s')
            ∧ Graphs.root g
              = [{| addr := 0; node_ident := "program~p";
                    node_type := ProgNode |}])
    as (g & s' & Hrun & Hroot)
    by (eexists _, _; split; vm_compute; reflexivity).
  assert (∀ n, n ∈ Graphs.root g → node_type n = ProgNode) as Hprog.
  { rewrite Hroot. by intros n ->%list_elem_of_singleton. }
  exists g, s'. split; [exact Hrun|]. split; [exact Hprog|].
  pose proof (C10_called_by_program _ _ _ _ _ _ _ _ Hrun Hprog)
    as (_ & _ & Ha & _ & _ & _ & Hstr).
  by split.
Defined.

(** ** The string of a graph *)

Lemma attribs_getitem_returns k d :
  (∃ v, attribs_getitem k d = Ok v) ∨ attribs_getitem k d = Raise KeyError.
Proof.
  induction d as [|[k' v] d IH]; simpl; [by right|].
  destruct (String.eqb k k'); eauto.
Qed.

(** The table is never produced: an edge is a dict with the five string
    keys of [_edge], so [self.hop_edges[0][0]] raises [KeyError] when no
    earlier step has raised. *)
Lemma table_raises h g : ∃ e, table h g = Raise e.
Proof.
  unfold table. destruct (root g) as [|r0 ?]; simpl; [eauto|].
  unfold node_attribs, lookup_attr.
  destruct (h !! addr r0) as [n|]; simpl; [|eauto].
  destruct (n_dict n !! "attribs") as [[]|]; simpl; eauto.
  destruct (attribs_getitem_returns "label" d) as [[v ->]| ->]; simpl; [|eauto].
  destruct (hop_edges g); simpl; eauto.
Qed.

(** The suppression of an empty graph: at most one node added and no table
    to show. *)
Lemma str_empty_graph cfg h g :
  len (added g) ≤ 1 → hop_nodes g = [] ∨ length (Graphs.root g) ≠ 1%nat →
  __str__ cfg h g = Ok ([], EmptyString).
Proof.
  intros Ha Htab. unfold __str__.
  rewrite (proj2 (Z.leb_le _ _) Ha).
  destruct Htab as [->|Hr]; [done|].
  replace (len (Graphs.root g) =? 1) with false; [by rewrite andb_false_r|].
  symmetry. apply Z.eqb_neq. unfold len. lia.
Qed.

(** Without [warn], a graph with more than one node and no table to show
    gets its diagram, whatever the sizes of [added], [root] and
    [max_nodes]. *)
Lemma str_without_warn cfg h g :
  warn g = false → 1 < len (added g) → hop_nodes g = [] →
  __bool__ cfg h g = Ok true.
Proof.
  intros Hw Ha Hhn. unfold __bool__, __str__. rewrite Hw, Hhn, !andb_false_r.
  replace (len (added g) <=? 1) with false by (symmetry; apply Z.leb_gt; lia).
  reflexivity.
Qed.

(** C3 (table fallback) at its scenario, a single root whose first hop
    exceeds the node limit: module [a] uses [b] and [c], with a limit of one
    node. The construction admits nothing, keeps the two nodes and the two
    edges of hop 1 as fallback data and marks the graph truncated at hop 1,
    as claimed; but the string of the graph is no table: [__str__] raises
    [KeyError] at [self.hop_edges[0][0]], as it does for every graph that
    reaches the table code. *)
Theorem C3_table_raises_KeyError :
  (∀ h g, ∃ e, table h g = Raise e)
  ∧ ∃ g s',
      __init__ plain 3 UsesGraph [0%nat] EmptyString None
        (start (chain_modules 5 1 true)) = Ok (g, s')
      ∧ node_ident <$> Graphs.root g = ["module~a"]
      ∧ added g = Graphs.root g
      ∧ admitted g = []
      ∧ node_ident <$> hop_nodes g = ["module~b"; "module~c"]
      ∧ (λ e, (tail_name e, head_name e, style e)) <$> hop_edges g
        = [("module~a", "module~b", "dashed");
           ("module~a", "module~c", "dashed")]
      ∧ truncated g = 1
      ∧ __str__ plain (heap s') g = Raise KeyError.
Proof.
  split; [apply table_raises|].
  eexists _, _. split; [vm_compute; reflexivity|]. by vm_compute.
Qed.

(** C4 (suppression) at its failing input: the overview graph of three
    modules whose node limit is one. With [warn] set the graph is
    suppressed, with a warning; with [warn] unset the same graph, three
    nodes against a limit of one, gets its diagram: the test of the limit
    is joined to [self.warn] by [and]. *)
Theorem C4_suppression_depends_on_warn :
  (∃ g s',
     __init__ plain 3 ModuleGraph [0%nat; 1%nat; 2%nat] EmptyString
       (Some "module~~graph") (start (three_modules false)) = Ok (g, s')
     ∧ len (added g) = 3 ∧ max_nodes g = 1 ∧ warn g = false
     ∧ __bool__ plain (heap s') g = Ok true)
  ∧ ∃ g s',
      __init__ plain 3 ModuleGraph [0%nat; 1%nat; 2%nat] EmptyString
        (Some "module~~graph") (start (three_modules true)) = Ok (g, s')
      ∧ len (added g) = 3 ∧ max_nodes g = 1 ∧ warn g = true
      ∧ __bool__ plain (heap s') g = Ok false.
Proof.
  split; (eexists _, _; split; [vm_compute; reflexivity|]; by vm_compute).
Qed.

(** ** The order of processing *)

Lemma ltb_false_le a b : String.ltb b a = false ↔ String.le a b.
Proof.
  unfold String.le, String.ltb, String.leb.
  rewrite (String.compare_antisym a b). by destruct (String.compare b a).
Qed.

Lemma node_lt_false a b : node_lt b a = false ↔ node_le a b.
Proof. apply ltb_false_le. Qed.

#[export] Instance node_le_trans : Transitive node_le.
Proof. intros a b c. unfold node_le. apply transitivity. Qed.

Lemma node_le_total a b : node_le a b ∨ node_le b a.
Proof. unfold node_le. apply (total String.le). Qed.

Lemma insert_sorted_perm {A} (lt : A → A → bool) x l :
  insert_sorted lt x l ≡ₚ x :: l.
Proof.
  induction l as [|y l IH]; simpl; [done|].
  destruct (lt y x); [|done]. by rewrite IH, Permutation_swap.
Qed.

Lemma sorted_by_perm {A} (lt : A → A → bool) l : sorted_by lt l ≡ₚ l.
Proof.
  induction l as [|x l IH]; simpl; [done|].
  by rewrite insert_sorted_perm, IH.
Qed.

Lemma insert_sorted_nodes x l :
  StronglySorted node_le l → StronglySorted node_le (insert_sorted node_lt x l).
Proof.
  induction 1 as [|y l Hl IH Hy]; simpl; [by repeat constructor|].
  destruct (node_lt y x) eqn:Hlt.
  - constructor; [done|]. rewrite insert_sorted_perm. constructor; [|done].
    destruct (node_le_total y x) as [?|Hxy]; [done|].
    apply node_lt_false in Hxy. congruence.
  - apply node_lt_false in Hlt. constructor; [by constructor|].
    constructor; [done|]. eapply Forall_impl; [done|].
    intros z ?. by etrans.
Qed.

(** [sorted] puts the nodes in their total order. *)
Lemma sorted_nodes l : StronglySorted node_le (sorted l).
Proof.
  induction l as [|x l IH]; simpl; [constructor|].
  by apply insert_sorted_nodes.
Qed.

Lemma NoDup_fmap_eq {A B} (f : A → B) l x y :
  NoDup (f <$> l) → x ∈ l → y ∈ l → f x = f y → x = y.
Proof.
  induction l as [|z l IH]; simpl; [by intros _ ?%elem_of_nil|].
  intros [Hz Hl]%NoDup_cons [->|Hx]%elem_of_cons [->|Hy]%elem_of_cons Hf;
    [done| | |by apply IH].
  - destruct Hz. rewrite Hf. by apply list_elem_of_fmap_2.
  - destruct Hz. rewrite <-Hf. by apply list_elem_of_fmap_2.
Qed.

(** The order in which a collection of distinct nodes hands its members
    over does not show after [sorted]. *)
Lemma sorted_unique nodes nodes' :
  nodes ≡ₚ nodes' → NoDup (node_ident <$> nodes) →
  sorted nodes = sorted nodes'.
Proof.
  intros Hperm Hnd.
  apply (StronglySorted_unique_strong node_le); [|apply sorted_nodes..|].
  - intros x1 x2 Hx1 Hx2 H12 H21.
    unfold sorted in Hx1, Hx2. rewrite sorted_by_perm in Hx1, Hx2.
    rewrite <-Hperm in Hx2.
    apply (NoDup_fmap_eq node_ident nodes); [done..|].
    by apply (anti_symm String.le).
  - unfold sorted. by rewrite !sorted_by_perm.
Qed.

End GraphFacts.

(** * Invariants of the registry *)

Module RegistryInvariants.
Import RegistryFacts.

(** ** A relation every step keeps *)

Create HintDb keeps discriminated.

Section Keeping.
Context (R : State → State → Prop).
Context `{!Reflexive R, !Transitive R}.

(** What the relation must allow: new objects, and writing or deleting a
    node attribute that is none of those of [BaseNode.__init__]. *)
Hypothesis R_new_node : ∀ t id d, keeps R (new_node t id d).
Hypothesis R_new_obj : ∀ x, keeps R (new_obj x).
Hypothesis R_setattr :
  ∀ r a v, is_base_attr a = false → keeps R (setattr r a v).
Hypothesis R_delattr : ∀ r a, is_base_attr a = false → keeps R (delattr r a).

Lemma keeps_ret {A} (a : A) : keeps R (mret a : M A).
Proof. by intros s a' s' [= _ <-]. Qed.

Lemma keeps_bind {A B} (m : M A) (k : A → M B) :
  keeps R m → (∀ a, keeps R (k a)) → keeps R (m ≫= k).
Proof.
  intros Hm Hk s b s'' (a & s' & H1 & H2)%bind_Ok.
  etrans; [by eapply Hm|by eapply Hk].
Qed.

Lemma keeps_raise {A} e : keeps R (raise e : M A).
Proof. by intros s a s'. Qed.

Lemma keeps_diverge {A} : keeps R (diverge : M A).
Proof. by intros s a s'. Qed.

Lemma keeps_for {A} (xs : list A) (body : A → M ()) :
  (∀ x, keeps R (body x)) → keeps R (for_ xs body).
Proof.
  intros Hb. induction xs as [|x xs IH]; simpl.
  - apply keeps_ret.
  - apply keeps_bind; [apply Hb|by intros _].
Qed.

(** A step that returns in the state it was given. *)
Lemma keeps_read {A} (m : M A) :
  (∀ s a s', m s = Ok (a, s') → s' = s) → keeps R m.
Proof. intros H s a s' ->%H. reflexivity. Qed.

Lemma keeps_deref o : keeps R (deref o).
Proof.
  apply keeps_read. intros s a s'. unfold deref.
  destruct (objs s !! o); [by intros [= _ <-]|done].
Qed.

Lemma keeps_node_at r : keeps R (node_at r).
Proof.
  apply keeps_read. intros s a s'. unfold node_at.
  destruct (heap s !! addr r); [by intros [= _ <-]|done].
Qed.

Lemma keeps_getattr r a : keeps R (getattr r a).
Proof.
  apply keeps_bind; [apply keeps_node_at|]. intros n.
  destruct (n_dict n !! a); [apply keeps_ret|apply keeps_raise].
Qed.

Lemma keeps_attr_add r a x :
  is_base_attr a = false → keeps R (attr_add r a x).
Proof.
  intros Ha. apply keeps_bind; [apply keeps_getattr|]. intros v.
  destruct v; (by apply R_setattr) || apply keeps_raise.
Qed.

Lemma keeps_attr_incr r a k :
  is_base_attr a = false → keeps R (attr_incr r a k).
Proof.
  intros Ha. apply keeps_bind; [apply keeps_getattr|]. intros v.
  destruct v, k; (by apply R_setattr) || apply keeps_raise.
Qed.

Lemma keeps_attr_label r a k nm :
  is_base_attr a = false → keeps R (attr_label r a k nm).
Proof.
  intros Ha. apply keeps_bind; [apply keeps_getattr|]. intros v.
  destruct v; try apply keeps_raise.
  destruct (dict_get k d); by apply R_setattr.
Qed.

Lemma keeps_coll_contains c o : keeps R (coll_contains c o).
Proof. apply keeps_read. by intros s a s' [= _ <-]. Qed.

Lemma keeps_coll_getitem c o : keeps R (coll_getitem c o).
Proof.
  apply keeps_read. intros s a s'. unfold coll_getitem.
  destruct (collection c (data s) !! o); [by intros [= _ <-]|done].
Qed.

Lemma keeps_classify obj : keeps R (_get_collection_and_node_type obj).
Proof.
  apply keeps_read. intros s [[o coll] t] s' H.
  by apply classify_Ok in H as (-> & _).
Qed.

Lemma keeps_lift {A} (r : result A) : keeps R (lift r).
Proof. apply keeps_read. intros s a s'. by destruct r; intros [= _ <-]. Qed.

Lemma keeps_type_of v : keeps R (type_of v).
Proof.
  destruct v; simpl; try apply keeps_ret.
  apply keeps_bind; [apply keeps_deref|intros; apply keeps_ret].
Qed.

Lemma keeps_obj_of a v : keeps R (obj_of a v).
Proof. destruct v; simpl; (apply keeps_deref || apply keeps_raise). Qed.

Lemma keeps_required {A} a (x : option A) : keeps R (required a x).
Proof. destruct x; simpl; [apply keeps_ret|apply keeps_raise]. Qed.

Lemma keeps_getattr_visible v b : keeps R (getattr_visible v b).
Proof.
  destruct v; simpl; try apply keeps_ret.
  apply keeps_bind; [apply keeps_deref|intros; apply keeps_ret].
Qed.

End Keeping.

#[export] Hint Resolve keeps_ret keeps_raise keeps_diverge keeps_deref
  keeps_node_at keeps_getattr keeps_coll_contains keeps_coll_getitem
  keeps_classify keeps_lift keeps_type_of keeps_obj_of keeps_required
  keeps_getattr_visible : keeps.

(** Walks through a monadic program, as [sound_tac] does. *)
Ltac keeps_step :=
  match goal with
  | |- keeps _ (mbind _ _) => apply keeps_bind; [try done..| |intros ?]
  | |- keeps _ (for_ _ _) => apply keeps_for; [try done..|intros ?]
  | |- keeps _ (attr_add _ _ _) => by apply keeps_attr_add
  | |- keeps _ (attr_incr _ _ _) => by apply keeps_attr_incr
  | |- keeps _ (attr_label _ _ _ _) => by apply keeps_attr_label
  | |- keeps _ (let '(_, _) := ?x in _) => destruct x
  | |- keeps _ (match ?x with _ => _ end) => destruct x
  | |- keeps _ _ => solve [eauto with keeps]
  end.

Ltac keeps_tac := repeat keeps_step.

Section KeepingConstructors.
Context (cfg : Config) (R : State → State → Prop).
Context `{!Reflexive R, !Transitive R}.
Hypothesis R_new_node : ∀ t id d, keeps R (new_node t id d).
Hypothesis R_new_obj : ∀ x, keeps R (new_obj x).
Hypothesis R_setattr :
  ∀ r a v, is_base_attr a = false → keeps R (setattr r a v).
Hypothesis R_delattr : ∀ r a, is_base_attr a = false → keeps R (delattr r a).
Context (get_node : GetNode).
Hypothesis R_get_node : ∀ v hist, keeps R (get_node v hist).

Local Hint Resolve R_new_node R_new_obj R_setattr R_delattr R_get_node
  : keeps.

Lemma keeps_BaseNode_init t ptype obj : keeps R (BaseNode_init cfg t ptype obj).
Proof. unfold BaseNode_init. keeps_tac. Qed.

Lemma keeps_hist_or_get hist obj self v :
  keeps R (hist_or_get get_node hist obj self v).
Proof. unfold hist_or_get. keeps_tac. Qed.

Lemma keeps_self_fromstr self : keeps R (self_fromstr self).
Proof. unfold self_fromstr. keeps_tac. Qed.

Local Hint Resolve keeps_BaseNode_init keeps_hist_or_get keeps_self_fromstr
  : keeps.

Lemma keeps_ModNode_init t obj hist :
  keeps R (ModNode_init cfg t get_node obj hist).
Proof. unfold ModNode_init. keeps_tac. Qed.

Local Hint Resolve keeps_ModNode_init : keeps.

Lemma keeps_SubmodNode_init obj hist :
  keeps R (SubmodNode_init cfg get_node obj hist).
Proof. unfold SubmodNode_init. keeps_tac. Qed.

Lemma keeps_TypeNode_init obj hist :
  keeps R (TypeNode_init cfg get_node obj hist).
Proof. unfold TypeNode_init. keeps_tac. Qed.

Lemma keeps_ProcNode_init obj hist :
  keeps R (ProcNode_init cfg get_node obj hist).
Proof. unfold ProcNode_init. keeps_tac. Qed.

Lemma keeps_ProgNode_init obj hist :
  keeps R (ProgNode_init cfg get_node obj hist).
Proof. unfold ProgNode_init, ProgNode_use, ProgNode_call. keeps_tac. Qed.

Lemma keeps_BlockNode_init obj hist :
  keeps R (BlockNode_init cfg get_node obj hist).
Proof. unfold BlockNode_init. keeps_tac. Qed.

Lemma keeps_FileNode_init obj hist :
  keeps R (FileNode_init cfg get_node obj hist).
Proof. unfold FileNode_init. keeps_tac. Qed.

Lemma keeps_construct t obj hist : keeps R (construct cfg t get_node obj hist).
Proof.
  destruct t; simpl;
    auto using keeps_ModNode_init, keeps_SubmodNode_init, keeps_TypeNode_init,
      keeps_ProcNode_init, keeps_ProgNode_init, keeps_BlockNode_init,
      keeps_FileNode_init.
Qed.

End KeepingConstructors.

(** ** The node a constructor returns *)

Lemma yields_ret {A} (P : A → Prop) (a : A) : P a → yields P (mret a : M A).
Proof. by intros HP s a' s' [= <- _]. Qed.

Lemma yields_raise {A} (P : A → Prop) e : yields P (raise e : M A).
Proof. by intros s a s'. Qed.

Lemma yields_bind {A B} (P : B → Prop) (m : M A) (k : A → M B) :
  (∀ a, yields P (k a)) → yields P (m ≫= k).
Proof. intros Hk s b s'' (a & s' & _ & H2)%bind_Ok. by eapply Hk. Qed.

Lemma yields_bind_with {A B} (Q : A → Prop) (P : B → Prop) (m : M A)
    (k : A → M B) :
  yields Q m → (∀ a, Q a → yields P (k a)) → yields P (m ≫= k).
Proof.
  intros Hm Hk s b s'' (a & s' & H1 & H2)%bind_Ok.
  eapply Hk; [by eapply Hm|done].
Qed.

Lemma yields_new_node t id d :
  yields (λ r, node_type r = t ∧ node_ident r = id) (new_node t id d).
Proof. by intros s r s' [= <- _]. Qed.

Ltac yields_step :=
  match goal with
  | |- yields _ (mbind _ (new_node _ _ _)) =>
      eapply yields_bind_with; [apply yields_new_node|intros ? [? ?]]
  | |- yields _ (mbind _ _) => apply yields_bind; intros ?
  | |- yields _ (mret _) => by apply yields_ret
  | |- yields _ (raise _) => apply yields_raise
  | |- yields _ (let '(_, _) := ?x in _) => destruct x
  | |- yields _ (match ?x with _ => _ end) => destruct x
  end.

Ltac yields_tac := repeat yields_step.

(** Every constructor returns the object it made, of the class that was
    called. *)
Lemma ModNode_init_class cfg t get_node obj hist :
  yields (λ r, node_type r = t) (ModNode_init cfg t get_node obj hist).
Proof. unfold ModNode_init. yields_tac. Qed.

Lemma construct_class cfg t get_node obj hist :
  yields (λ r, node_type r = t) (construct cfg t get_node obj hist).
Proof.
  destruct t; unfold construct.
  - apply ModNode_init_class.
  - unfold SubmodNode_init.
    eapply yields_bind_with; [apply ModNode_init_class|intros self Hself].
    yields_tac.
  - unfold TypeNode_init. yields_tac.
  - unfold ProcNode_init. yields_tac.
  - unfold ProgNode_init. yields_tac.
  - unfold BlockNode_init. yields_tac.
  - unfold FileNode_init. yields_tac.
Qed.

(** The classifier pairs each dictionary with its node class. *)
Lemma classifier_node_type c coll t :
  collection_and_node_type c = Ok (coll, t) → t = node_type_of coll.
Proof.
  unfold collection_and_node_type.
  repeat (case_match; [by intros [= <- <-]|]). done.
Qed.

(** ** Lookups keep the relation *)

Section KeepingLookups.
Context (cfg : Config) (R : State → State → Prop).
Context `{!Reflexive R, !Transitive R}.
Hypothesis R_new_node : ∀ t id d, keeps R (new_node t id d).
Hypothesis R_new_obj : ∀ x, keeps R (new_obj x).
Hypothesis R_setattr :
  ∀ r a v, is_base_attr a = false → keeps R (setattr r a v).
Hypothesis R_delattr : ∀ r a, is_base_attr a = false → keeps R (delattr r a).
Hypothesis R_coll_setitem :
  ∀ c o r, node_type r = node_type_of c → keeps R (coll_setitem c o r).

Lemma keeps_register_with get_node obj hist :
  (∀ v hist, keeps R (get_node v hist)) →
  keeps R (register_with cfg get_node obj hist).
Proof.
  intros Hget s [] s'. unfold register_with.
  intros ([[o coll] t] & s0 & Hc & H)%bind_Ok.
  apply classify_Ok in Hc as (-> & -> & x & Hx & Hcls).
  apply bind_Ok in H as (present & s1 & [= <- <-] & H).
  case_bool_decide; [by injection H as <-|].
  apply bind_Ok in H as (n & s1 & Hn & H).
  etrans; [by eapply keeps_construct|].
  eapply R_coll_setitem; [|done].
  apply construct_class in Hn. by rewrite Hn, (classifier_node_type _ _ _ Hcls).
Qed.

Lemma keeps_get_node fuel : ∀ obj hist, keeps R (get_node cfg fuel obj hist).
Proof.
  induction fuel as [|fuel IH]; intros obj hist; simpl.
  - apply keeps_diverge.
  - unfold get_node_with. pose proof (keeps_register_with _ obj hist IH).
    keeps_tac.
Qed.

Lemma keeps_register fuel obj hist : keeps R (register cfg fuel obj hist).
Proof. apply keeps_register_with, keeps_get_node. Qed.

Lemma keeps_lookups s s' : lookups cfg s s' → R s s'.
Proof.
  induction 1 as [s|s s1 s2 fuel obj hist r Hget _ IH
                 |s s1 s2 fuel obj hist Hreg _ IH]; [done|..].
  - etrans; [by eapply keeps_get_node|done].
  - etrans; [by eapply keeps_register|done].
Qed.

End KeepingLookups.

(** ** The registry stays well typed *)

#[export] Instance typed_step_refl : Reflexive typed_step.
Proof. by intros s ?. Qed.

#[export] Instance typed_step_trans : Transitive typed_step.
Proof. intros s1 s2 s3 H12 H23 H. auto. Qed.

Lemma typed_step_data {A} (m : M A) :
  (∀ s a s', m s = Ok (a, s') → data s' = data s) → keeps typed_step m.
Proof. intros H s a s' Hm%H Hs c o r. rewrite Hm. apply Hs. Qed.

Lemma typed_step_setattr r a v : keeps typed_step (setattr r a v).
Proof.
  apply typed_step_data. intros s [] s'. unfold setattr.
  destruct (heap s !! addr r); [by intros [= <-]|done].
Qed.

Lemma typed_step_delattr r a : keeps typed_step (delattr r a).
Proof.
  apply typed_step_data. intros s [] s'. unfold delattr.
  destruct (heap s !! addr r) as [n|]; [|done].
  destruct (n_dict n !! a); [by intros [= <-]|done].
Qed.

Lemma typed_step_coll_setitem c o r :
  node_type r = node_type_of c → keeps typed_step (coll_setitem c o r).
Proof.
  intros Hr s [] s' [= <-] Hs c' o' r'. simpl.
  destruct (decide (c = c')) as [<-|Hne].
  - rewrite collection_set_eq. destruct (decide (o = o')) as [<-|Ho].
    + rewrite lookup_insert_eq. by intros [= <-].
    + rewrite lookup_insert_ne by done. apply Hs.
  - rewrite collection_set_ne by done. apply Hs.
Qed.

Lemma lookups_typed cfg s s' : lookups cfg s s' → typed_step s s'.
Proof.
  apply keeps_lookups; try apply _.
  - intros. by apply typed_step_data; intros ??? [= _ <-].
  - intros. by apply typed_step_data; intros ??? [= _ <-].
  - intros. apply typed_step_setattr.
  - intros. apply typed_step_delattr.
  - apply typed_step_coll_setitem.
Qed.

Lemma well_typed_start os : well_typed (start os).
Proof. by intros [] o r. Qed.

(** X1 (typed registry). In every state reached from an empty registry by
    lookups and registrations that returned, each dictionary holds nodes of
    its own class only: [modules] holds [ModNode]s, [submodules]
    [SubmodNode]s, and so on. The node a further lookup returns has the class
    the classifier names for the entity looked up. *)
Theorem X1_registry_typed cfg os s :
  lookups cfg (start os) s →
  well_typed s
  ∧ ∀ fuel obj hist r s',
      get_node cfg fuel obj hist s = Ok (r, s') →
      ∃ o x coll,
        obj = PObj o ∧ objs s !! o = Some x
        ∧ collection_and_node_type (cls x) = Ok (coll, node_type r).
Proof.
  intros Hl. assert (well_typed s) as Hs.
  { by apply (lookups_typed _ _ _ Hl), well_typed_start. }
  split; [done|]. intros fuel obj hist r s' Hget.
  assert (well_typed s') as Hs'.
  { eapply (lookups_typed cfg s s'); [|done].
    eapply lookups_get_node; [done|apply lookups_refl]. }
  apply get_node_entry in Hget as (o & x & coll & t & -> & Hx & Hcls & Hr).
  exists o, x, coll. split_and!; [done..|].
  by rewrite (Hs' _ _ _ Hr), <-(classifier_node_type _ _ _ Hcls).
Qed.

(** [X1_registry_typed] on a module [a] that uses module [b], after [a]
    was looked up. *)
Lemma X1_registry_typed_witness :
  ∃ s, lookups plain (start using_module) s ∧ well_typed s.
Proof.
  assert (∃ r0 s, get_node plain 2 (PObj 0%nat) None (start using_module)
                  = Ok (r0, s))
    as (r0 & s & H0) by (eexists _, _; vm_compute; reflexivity).
  assert (lookups plain (start using_module) s) as Hl.
  { eapply lookups_get_node; [exact H0|apply lookups_refl]. }
  exists s. split; [exact Hl|].
  exact (proj1 (X1_registry_typed _ _ _ Hl)).
Defined.

(** ** Nodes are never taken back *)

#[export] Instance stable_refl : Reflexive stable.
Proof. intros s a n Hn. eauto. Qed.

#[export] Instance stable_trans : Transitive stable.
Proof.
  intros s1 s2 s3 H12 H23 a n Hn.
  destruct (H12 _ _ Hn) as (n' & Hn' & Hc & Hd).
  destruct (H23 _ _ Hn') as (n'' & Hn'' & Hc' & Hd').
  exists n''. split_and!; [done|congruence|].
  intros k Hk. by rewrite Hd', Hd.
Qed.

Lemma stable_heap {A} (m : M A) :
  (∀ s a s', m s = Ok (a, s') → heap s `prefix_of` heap s') → keeps stable m.
Proof.
  intros H s a s' [k Hk]%H a' n Hn. exists n. split; [|done].
  rewrite Hk. by apply lookup_app_l_Some.
Qed.

Lemma is_base_attr_false a k : is_base_attr a = false → k ∈ base_attrs → k ≠ a.
Proof.
  unfold is_base_attr. intros Ha%bool_decide_eq_false Hk ->. done.
Qed.

(** Writing a node's [__dict__] outside the attributes of [BaseNode]. *)
Lemma stable_update s r n d' :
  heap s !! addr r = Some n →
  (∀ k, k ∈ base_attrs → d' !! k = n_dict n !! k) →
  stable s {| objs := objs s;
              heap := <[addr r := {| n_class := n_class n; n_dict := d' |}]>
                        (heap s);
              data := data s |}.
Proof.
  intros Hr Hd a n' Hn'. simpl. destruct (decide (a = addr r)) as [->|Hne].
  - rewrite Hr in Hn'. injection Hn' as <-. eexists. split.
    + apply list_lookup_insert_eq. by eapply lookup_lt_Some.
    + done.
  - exists n'. by rewrite list_lookup_insert_ne.
Qed.

Lemma stable_setattr r a v :
  is_base_attr a = false → keeps stable (setattr r a v).
Proof.
  intros Ha s [] s'. unfold setattr.
  destruct (heap s !! addr r) as [n|] eqn:Hr; [|done]. intros [= <-].
  apply stable_update; [done|]. intros k Hk.
  apply lookup_insert_ne. intros ->. by eapply is_base_attr_false.
Qed.

Lemma stable_delattr r a :
  is_base_attr a = false → keeps stable (delattr r a).
Proof.
  intros Ha s [] s'. unfold delattr.
  destruct (heap s !! addr r) as [n|] eqn:Hr; [|done].
  destruct (n_dict n !! a); [|done]. intros [= <-].
  apply stable_update; [done|]. intros k Hk.
  apply lookup_delete_ne. intros ->. by eapply is_base_attr_false.
Qed.

Lemma lookups_stable cfg s s' : lookups cfg s s' → stable s s'.
Proof.
  apply keeps_lookups; try apply _.
  - intros. apply stable_heap. intros ??? [= _ <-]. by apply prefix_app_r.
  - intros. by apply stable_heap; intros ??? [= _ <-].
  - apply stable_setattr.
  - apply stable_delattr.
  - intros. by apply stable_heap; intros ??? [= _ <-].
Qed.

(** X2 (nodes persist). No lookup or registration removes a node object or
    changes its class or one of the attributes [BaseNode.__init__] gave it:
    [attribs], [fromstr], [url], [name], [ident]. Nor does it change an
    entity object: the entity store only gets placeholders appended. *)
Theorem X2_nodes_persist cfg s s' :
  lookups cfg s s' →
  (∀ a n, heap s !! a = Some n →
     ∃ n', heap s' !! a = Some n' ∧ n_class n' = n_class n
           ∧ ∀ k, k ∈ ["attribs"; "fromstr"; "url"; "name"; "ident"] →
                  n_dict n' !! k = n_dict n !! k)
  ∧ ∀ o x, objs s !! o = Some x → objs s' !! o = Some x.
Proof.
  intros Hl. split; [exact (lookups_stable _ _ _ Hl)|].
  intros o x. by apply ext_objs, lookups_ext with cfg.
Qed.

(** [X2_nodes_persist] on a module [a] that uses module [b]: [b] is looked
    up, then [a], which adds itself to [b.used_by]. *)
Lemma X2_nodes_persist_witness :
  ∃ s s',
    lookups plain s s'
    ∧ length (heap s) = 1%nat
    ∧ ∀ a n, heap s !! a = Some n →
        ∃ n', heap s' !! a = Some n' ∧ n_class n' = n_class n
              ∧ ∀ k, k ∈ ["attribs"; "fromstr"; "url"; "name"; "ident"] →
                     n_dict n' !! k = n_dict n !! k.
Proof.
  assert (∃ r0 s, get_node plain 1 (PObj 1%nat) None (start using_module)
                  = Ok (r0, s)
            ∧ length (heap s) = 1%nat
            ∧ ∃ r s', get_node plain 2 (PObj 0%nat) None s = Ok (r, s'))
    as (r0 & s & H0 & Hlen & r & s' & H1).
  { eexists _, _. split; [vm_compute; reflexivity|].
    split; [vm_compute; reflexivity|].
    eexists _, _. vm_compute; reflexivity. }
  assert (lookups plain s s') as Hl.
  { eapply lookups_get_node; [exact H1|apply lookups_refl]. }
  exists s, s'. split; [exact Hl|]. split; [exact Hlen|].
  exact (proj1 (X2_nodes_persist _ _ _ Hl)).
Defined.

(** ** Registering once *)

(** [register] that returned has left an entry for its entity. *)
Lemma register_with_entry cfg get_node obj hist s s1 :
  register_with cfg get_node obj hist s = Ok ((), s1) →
  ∃ o x coll t r,
    obj = PObj o ∧ objs s !! o = Some x
    ∧ collection_and_node_type (cls x) = Ok (coll, t)
    ∧ collection coll (data s1) !! o = Some r.
Proof.
  unfold register_with.
  intros ([[o coll] t] & s0 & Hc & H)%bind_Ok.
  apply classify_Ok in Hc as (-> & -> & x & Hx & Hcls).
  apply bind_Ok in H as (present & s0 & [= <- <-] & H).
  case_bool_decide as Hin.
  - injection H as <-. destruct Hin as [r Hr]. eauto 10.
  - apply bind_Ok in H as (n & s0 & Hn & [= <-]).
    exists o, x, coll, t, n. split_and!; [done..|]. simpl.
    by rewrite collection_set_eq, lookup_insert_eq.
Qed.

(** [register] on a registered entity returns at once. *)
Lemma register_with_hit cfg get_node o x coll t r hist s :
  objs s !! o = Some x →
  collection_and_node_type (cls x) = Ok (coll, t) →
  collection coll (data s) !! o = Some r →
  register_with cfg get_node (PObj o) hist s = Ok ((), s).
Proof.
  intros Hx Hcls Hr. unfold register_with.
  assert (_get_collection_and_node_type (PObj o) s = Ok (o, coll, t, s)) as Hc.
  { apply classify_Ok. eauto. }
  rewrite (bind_run _ _ _ _ _ Hc).
  unfold mbind, M_bind, coll_contains. rewrite Hr.
  by rewrite bool_decide_eq_true_2 by eauto.
Qed.

(** X3 (registering once). A call of [register] that returned has left an
    entry [r] for its entity, and in every state the registry reaches from
    there through calls of [get_node] and [register] that returned,
    registering the entity again returns at once and changes nothing, and
    every lookup of it returns that same [r] without constructing anything.
    (A construction that was under way when the call returned is no such
    call: it can still overwrite the entry.) *)
Theorem X3_register_once cfg fuel obj hist s s1 :
  register cfg fuel obj hist s = Ok ((), s1) →
  ∃ r,
    (∃ o coll, obj = PObj o ∧ collection coll (data s1) !! o = Some r)
    ∧ ∀ s2, lookups cfg s1 s2 →
        (∀ fuel' hist', register cfg fuel' obj hist' s2 = Ok ((), s2))
        ∧ (∀ fuel' hist', get_node cfg (S fuel') obj hist' s2 = Ok (r, s2)).
Proof.
  intros Hreg.
  assert (ext s s1) as Hext.
  { pose proof (sound_register cfg fuel obj hist s) as Hs.
    by rewrite Hreg in Hs. }
  apply register_with_entry in Hreg
    as (o & x & coll & t & r & -> & Hx & Hcls & Hr).
  exists r. split; [by exists o, coll|]. intros s2 Hl%lookups_ext.
  assert (objs s2 !! o = Some x) as Hx2 by eauto using ext_objs.
  assert (collection coll (data s2) !! o = Some r) as Hr2 by by apply Hl.
  split.
  - intros fuel' hist'. by eapply register_with_hit.
  - intros fuel' hist'. by eapply get_node_hit.
Qed.

(** [X3_register_once] on a module [a] that uses module [b]: [b] is
    registered, [a] is looked up, then [b] is registered and looked up
    again. *)
Lemma X3_register_once_witness :
  ∃ s1 s2 r,
    register plain 1 (PObj 1%nat) None (start using_module) = Ok ((), s1)
    ∧ lookups plain s1 s2
    ∧ register plain 0 (PObj 1%nat) None s2 = Ok ((), s2)
    ∧ get_node plain 1 (PObj 1%nat) None s2 = Ok (r, s2).
Proof.
  assert (∃ s1, register plain 1 (PObj 1%nat) None (start using_module)
                = Ok ((), s1)
            ∧ ∃ r' s2, get_node plain 2 (PObj 0%nat) None s1 = Ok (r', s2))
    as (s1 & H0 & r' & s2 & H1).
  { eexists. split; [vm_compute; reflexivity|].
    eexists _, _. vm_compute; reflexivity. }
  assert (lookups plain s1 s2) as Hl.
  { eapply lookups_get_node; [exact H1|apply lookups_refl]. }
  destruct (X3_register_once _ _ _ _ _ _ H0) as (r & _ & Hlater).
  destruct (Hlater s2 Hl) as [Hreg Hget].
  exists s1, s2, r. split; [exact H0|]. split; [exact Hl|].
  split; [apply Hreg|apply Hget].
Defined.

(** ** Exceptions a lookup does not raise *)

Lemma bind_Raise_inv {A B} (m : M A) (k : A → M B) s e :
  (m ≫= k) s = Raise e →
  m s = Raise e ∨ ∃ a s', m s = Ok (a, s') ∧ k a s' = Raise e.
Proof.
  unfold mbind, M_bind. destruct (m s) as [[a s']|e'|]; intros H.
  - right. eauto.
  - left. by injection H as ->.
  - discriminate H.
Qed.

Section Avoiding.
Context (E : exn → Prop).

Lemma avoids_ret {A} (a : A) : avoids E (mret a : M A).
Proof. by intros s e. Qed.

Lemma avoids_diverge {A} : avoids E (diverge : M A).
Proof. by intros s e. Qed.

Lemma avoids_raise {A} e : ¬ E e → avoids E (raise e : M A).
Proof. by intros He s e' [= <-]. Qed.

Lemma avoids_bind {A B} (m : M A) (k : A → M B) :
  avoids E m → (∀ a, avoids E (k a)) → avoids E (m ≫= k).
Proof.
  intros Hm Hk s e [H|(a & s' & _ & H)]%bind_Raise_inv;
    [by eapply Hm|by eapply Hk].
Qed.

Lemma avoids_for {A} (xs : list A) (body : A → M ()) :
  (∀ x, avoids E (body x)) → avoids E (for_ xs body).
Proof.
  intros Hb. induction xs as [|x xs IH]; simpl.
  - apply avoids_ret.
  - apply avoids_bind; [apply Hb|by intros _].
Qed.

(** The exceptions the primitive steps raise. *)
Hypothesis E_Dangling : ¬ E Dangling.
Hypothesis E_AttributeError : ∀ a, ¬ E (AttributeError a).
Hypothesis E_TypeError : ¬ E TypeError.
Hypothesis E_IndexError : ¬ E IndexError.

Lemma avoids_deref o : avoids E (deref o).
Proof.
  intros s e. unfold deref. destruct (objs s !! o); [done|by intros [= <-]].
Qed.

Lemma avoids_node_at r : avoids E (node_at r).
Proof.
  intros s e. unfold node_at.
  destruct (heap s !! addr r); [done|by intros [= <-]].
Qed.

Lemma avoids_getattr r a : avoids E (getattr r a).
Proof.
  apply avoids_bind; [apply avoids_node_at|]. intros n.
  destruct (n_dict n !! a); [apply avoids_ret|by apply avoids_raise].
Qed.

Lemma avoids_setattr r a v : avoids E (setattr r a v).
Proof.
  intros s e. unfold setattr.
  destruct (heap s !! addr r); [done|by intros [= <-]].
Qed.

Lemma avoids_delattr r a : avoids E (delattr r a).
Proof.
  intros s e. unfold delattr. destruct (heap s !! addr r) as [n|].
  - destruct (n_dict n !! a); [done|]. intros [= <-]. apply E_AttributeError.
  - by intros [= <-].
Qed.

Lemma avoids_attr_add r a x : avoids E (attr_add r a x).
Proof.
  apply avoids_bind; [apply avoids_getattr|]. intros v.
  destruct v; (apply avoids_setattr || by apply avoids_raise).
Qed.

Lemma avoids_attr_incr r a k : avoids E (attr_incr r a k).
Proof.
  apply avoids_bind; [apply avoids_getattr|]. intros v.
  destruct v, k; (apply avoids_setattr || by apply avoids_raise).
Qed.

Lemma avoids_attr_label r a k nm : avoids E (attr_label r a k nm).
Proof.
  apply avoids_bind; [apply avoids_getattr|]. intros v.
  destruct v; try by apply avoids_raise.
  destruct (dict_get k d); apply avoids_setattr.
Qed.

Lemma avoids_new_node t id d : avoids E (new_node t id d).
Proof. by intros s e. Qed.

Lemma avoids_new_obj x : avoids E (new_obj x).
Proof. by intros s e. Qed.

Lemma avoids_type_of v : avoids E (type_of v).
Proof.
  destruct v; simpl; try apply avoids_ret.
  apply avoids_bind; [apply avoids_deref|intros; apply avoids_ret].
Qed.

Lemma avoids_obj_of a v : avoids E (obj_of a v).
Proof. destruct v; simpl; (apply avoids_deref || by apply avoids_raise). Qed.

Lemma avoids_required {A} a (x : option A) : avoids E (required a x).
Proof. destruct x; simpl; [apply avoids_ret|by apply avoids_raise]. Qed.

Lemma avoids_getattr_visible v b : avoids E (getattr_visible v b).
Proof.
  destruct v; simpl; try apply avoids_ret.
  apply avoids_bind; [apply avoids_deref|intros; apply avoids_ret].
Qed.

End Avoiding.

Create HintDb avoids discriminated.

#[export] Hint Resolve avoids_ret avoids_diverge avoids_deref avoids_node_at
  avoids_getattr avoids_setattr avoids_delattr avoids_attr_add
  avoids_attr_incr avoids_attr_label avoids_new_node avoids_new_obj
  avoids_type_of avoids_obj_of avoids_required avoids_getattr_visible
  : avoids.

Ltac avoids_step :=
  match goal with
  | |- avoids _ (mbind _ _) => apply avoids_bind; [|intros ?]
  | |- avoids _ (for_ _ _) => apply avoids_for; intros ?
  | |- avoids _ (raise _) => by apply avoids_raise
  | |- avoids _ (let '(_, _) := ?x in _) => destruct x
  | |- avoids _ (match ?x with _ => _ end) => destruct x
  | |- avoids _ _ => solve [eauto with avoids]
  end.

Ltac avoids_tac := repeat avoids_step.

Section AvoidingConstructors.
Context (cfg : Config) (E : exn → Prop).
Hypothesis E_Dangling : ¬ E Dangling.
Hypothesis E_AttributeError : ∀ a, ¬ E (AttributeError a).
Hypothesis E_TypeError : ¬ E TypeError.
Hypothesis E_IndexError : ¬ E IndexError.
Context (get_node : GetNode).
Hypothesis E_get_node : ∀ v hist, avoids E (get_node v hist).

Local Hint Resolve E_Dangling E_AttributeError E_TypeError E_IndexError
  E_get_node : avoids.

Lemma avoids_BaseNode_init t ptype obj :
  avoids E (BaseNode_init cfg t ptype obj).
Proof. unfold BaseNode_init. avoids_tac. Qed.

Lemma avoids_hist_or_get hist obj self v :
  avoids E (hist_or_get get_node hist obj self v).
Proof. unfold hist_or_get. avoids_tac. Qed.

Lemma avoids_self_fromstr self : avoids E (self_fromstr self).
Proof. unfold self_fromstr. avoids_tac. Qed.

Local Hint Resolve avoids_BaseNode_init avoids_hist_or_get
  avoids_self_fromstr : avoids.

Lemma avoids_ModNode_init t obj hist :
  avoids E (ModNode_init cfg t get_node obj hist).
Proof. unfold ModNode_init. avoids_tac. Qed.

Local Hint Resolve avoids_ModNode_init : avoids.

Lemma avoids_construct t obj hist :
  avoids E (construct cfg t get_node obj hist).
Proof.
  destruct t; unfold construct.
  - apply avoids_ModNode_init.
  - unfold SubmodNode_init. avoids_tac.
  - unfold TypeNode_init. avoids_tac.
  - unfold ProcNode_init. avoids_tac.
  - unfold ProgNode_init, ProgNode_use, ProgNode_call. avoids_tac.
  - unfold BlockNode_init. avoids_tac.
  - unfold FileNode_init. avoids_tac.
Qed.

End AvoidingConstructors.

Lemma avoids_classify obj :
  avoids lookup_error (_get_collection_and_node_type obj).
Proof.
  intros s e He Herr. unfold _get_collection_and_node_type in He.
  apply bind_Raise_inv in He as [He|(c & s0 & Hc & He)].
  - destruct obj as [| | |o]; try done. simpl in He.
    apply bind_Raise_inv in He as [He|(? & ? & _ & He)]; [|done].
    unfold deref in He. destruct (objs s !! o); [done|].
    injection He as <-. by destruct Herr.
  - apply bind_Raise_inv in He as [He|([coll t] & s1 & _ & He)].
    + unfold lift in He.
      destruct (classify_cases c) as [(coll & t & Hcls)|Hcls];
        rewrite Hcls in He; [done|].
      injection He as <-. by destruct Herr.
    + destruct obj; try done; injection He as <-; by destruct Herr.
Qed.

Lemma lookup_error_cases :
  ¬ lookup_error Dangling ∧ (∀ a, ¬ lookup_error (AttributeError a))
  ∧ ¬ lookup_error TypeError ∧ ¬ lookup_error IndexError.
Proof.
  split_and!; [intros [|]|intros a [|]|intros [|]|intros [|]]; done.
Qed.

Lemma avoids_register_with cfg get_node obj hist :
  (∀ v hist, avoids lookup_error (get_node v hist)) →
  avoids lookup_error (register_with cfg get_node obj hist).
Proof.
  intros Hget. unfold register_with.
  destruct lookup_error_cases as (? & ? & ? & ?).
  apply avoids_bind; [apply avoids_classify|]. intros [[o coll] t].
  apply avoids_bind; [by intros s e|]. intros present.
  destruct present; [apply avoids_ret|].
  apply avoids_bind; [by apply avoids_construct|]. intros n. by intros s e.
Qed.

Lemma avoids_get_node cfg fuel : ∀ obj hist,
  avoids lookup_error (get_node cfg fuel obj hist).
Proof.
  induction fuel as [|fuel IH]; intros obj hist; simpl.
  - apply avoids_diverge.
  - intros s e He. unfold get_node_with in He.
    apply bind_Raise_inv in He as [He|([[o coll] t] & s0 & Hc & He)];
      [by eapply avoids_classify|].
    apply classify_Ok in Hc as (-> & -> & x & Hx & Hcls).
    apply bind_Raise_inv in He as [He|(present & s0 & [= <- <-] & He)];
      [done|].
    apply bind_Raise_inv in He as [He|([] & s1 & Hreg & He)].
    + case_bool_decide; [done|]. by eapply avoids_register_with.
    + assert (is_Some (collection coll (data s1) !! o)) as [r Hr].
      { case_bool_decide as Hin; [by injection Hreg as <-|].
        apply register_with_entry in Hreg
          as (o' & x' & coll' & t' & r & [= <-] & Hx' & Hcls' & Hr).
        assert (coll' = coll) as -> by congruence. eauto. }
      unfold coll_getitem in He. by rewrite Hr in He.
Qed.

(** X4 (no failed dictionary access). Neither a lookup nor a registration
    ever raises [KeyError], and neither ever reaches the abstract
    [_add_node]: when [get_node] comes to its last line, [collection[obj]],
    the entry is there. *)
Theorem X4_no_KeyError cfg fuel obj hist s :
  get_node cfg fuel obj hist s ≠ Raise KeyError
  ∧ get_node cfg fuel obj hist s ≠ Raise NotImplementedError
  ∧ register cfg fuel obj hist s ≠ Raise KeyError
  ∧ register cfg fuel obj hist s ≠ Raise NotImplementedError.
Proof.
  split_and!; intros H.
  - eapply avoids_get_node; [done|by left].
  - eapply avoids_get_node; [done|by right].
  - eapply avoids_register_with; [apply avoids_get_node|done|by left].
  - eapply avoids_register_with; [apply avoids_get_node|done|by right].
Qed.

(** ** External placeholders *)

Lemma BaseNode_init_external cfg t ptype o x s :
  objs s !! o = Some x → isinstance (cls x) External_classes = true →
  ∃ d, BaseNode_init cfg t ptype (PObj o) s
       = Ok (match HYPERLINK_RE_match cfg (name x) with
             | Some (_, g2) => g2
             | None => name x
             end, true, d, s)
       ∧ d !! "fromstr" = Some (ABool true).
Proof.
  intros Hx Hext. unfold BaseNode_init.
  rewrite (bind_run _ _ _ _ _ (type_of_obj _ _ _ Hx)), Hext.
  cbv [mbind M_bind mret M_ret obj_of getattr_visible].
  rewrite !(deref_run _ _ _ Hx).
  destruct (HYPERLINK_RE_match cfg (name x)) as [[g1 g2]|];
    (eexists; split; [reflexivity|by simplify_map_eq]).
Qed.

Lemma ModNode_init_external cfg t o x s :
  objs s !! o = Some x → isinstance (cls x) External_classes = true →
  ∃ d, (∀ get_node hist,
          ModNode_init cfg t get_node (PObj o) hist s
          = Ok ({| addr := length (heap s);
                   node_ident := display_name cfg (name x);
                   node_type := t |},
                allocated s
                  {| n_class := t;
                     n_dict := <["children" := ASet []]>
                                 (<["used_by" := ASet []]>
                                    (<["uses" := ASet []]> d)) |}))
       ∧ d !! "fromstr" = Some (ABool true).
Proof.
  intros Hx Hext.
  destruct (BaseNode_init_external cfg t EmptyString o x s Hx Hext)
    as (d & Hbase & Hd).
  exists d. split; [|done]. intros get_node hist. unfold ModNode_init.
  by rewrite (bind_run _ _ _ _ _ Hbase).
Qed.

(** A constructor called on a placeholder allocates its node and returns:
    it reads no relation and looks nothing up. *)
Lemma construct_external cfg t o x s :
  objs s !! o = Some x → isinstance (cls x) External_classes = true →
  ∃ n, (∀ get_node hist,
          construct cfg t get_node (PObj o) hist s
          = Ok ({| addr := length (heap s);
                   node_ident := display_name cfg (name x);
                   node_type := t |}, allocated s n))
       ∧ n_class n = t ∧ n_dict n !! "fromstr" = Some (ABool true).
Proof.
  intros Hx Hext. destruct t; unfold construct.
  - destruct (ModNode_init_external cfg ModNode o x s Hx Hext)
      as (d & Hrun & Hd).
    eexists. split; [exact Hrun|]. split; [done|by simplify_map_eq].
  - destruct (ModNode_init_external cfg SubmodNode o x s Hx Hext)
      as (d & Hrun & Hd).
    eexists. split; [intros get_node hist|].
    + unfold SubmodNode_init. rewrite (bind_run _ _ _ _ _ (Hrun _ _)).
      unfold mbind at 1, M_bind at 1, delattr, allocated. simpl.
      rewrite list_lookup_middle by done. simpl.
      rewrite lookup_insert_ne, lookup_insert_eq by done.
      rewrite insert_app_r_alt, Nat.sub_diag by done. simpl.
      unfold self_fromstr, getattr, node_at.
      cbv [mbind M_bind mret M_ret]. simpl.
      rewrite list_lookup_middle by done. simpl.
      assert (delete "used_by"
                (<["children":=ASet []]>
                   (<["used_by":=ASet []]> (<["uses":=ASet []]> d)))
              !! "fromstr" = Some (ABool true)) as -> by by simplify_map_eq.
      reflexivity.
    + split; [done|by simplify_map_eq].
  - destruct (BaseNode_init_external cfg TypeNode EmptyString o x s Hx Hext)
      as (d & Hbase & Hd).
    eexists. split; [intros get_node hist|].
    + unfold TypeNode_init. rewrite (bind_run _ _ _ _ _ Hbase). reflexivity.
    + split; [done|by simplify_map_eq].
  - destruct (BaseNode_init_external cfg ProcNode
                (default EmptyString (proctype x)) o x s Hx Hext)
      as (d & Hbase & Hd).
    eexists. split; [intros get_node hist|].
    + unfold ProcNode_init.
      erewrite bind_run;
        [|erewrite bind_run; [reflexivity|by apply deref_run]].
      rewrite (bind_run _ _ _ _ _ Hbase). reflexivity.
    + split; [done|by simplify_map_eq].
  - destruct (BaseNode_init_external cfg ProgNode EmptyString o x s Hx Hext)
      as (d & Hbase & Hd).
    eexists. split; [intros get_node hist|].
    + unfold ProgNode_init. rewrite (bind_run _ _ _ _ _ Hbase). reflexivity.
    + split; [done|by simplify_map_eq].
  - destruct (BaseNode_init_external cfg BlockNode EmptyString o x s Hx Hext)
      as (d & Hbase & Hd).
    eexists. split; [intros get_node hist|].
    + unfold BlockNode_init. rewrite (bind_run _ _ _ _ _ Hbase). reflexivity.
    + split; [done|by simplify_map_eq].
  - destruct (BaseNode_init_external cfg FileNode EmptyString o x s Hx Hext)
      as (d & Hbase & Hd).
    eexists. split; [intros get_node hist|].
    + unfold FileNode_init. rewrite (bind_run _ _ _ _ _ Hbase). reflexivity.
    + split; [done|by simplify_map_eq].
Qed.

(** Every placeholder class is one of the kinds the classifier knows. *)
Lemma external_recognised c :
  isinstance c External_classes = true →
  ∃ coll t, collection_and_node_type c = Ok (coll, t).
Proof. destruct c; try done; intros _; by eexists _, _. Qed.

(** The first lookup of an entity: classify, construct, enter, return. *)
Lemma get_node_miss cfg get_node o x coll t hist s r s1 :
  objs s !! o = Some x →
  collection_and_node_type (cls x) = Ok (coll, t) →
  collection coll (data s) !! o = None →
  construct cfg t get_node (PObj o) hist s = Ok (r, s1) →
  objs s1 = objs s →
  get_node_with cfg get_node (PObj o) hist s = Ok (r, entered s1 coll o r).
Proof.
  intros Hx Hcls Hnone Hn Hobjs.
  assert (_get_collection_and_node_type (PObj o) s = Ok (o, coll, t, s)) as Hc.
  { apply classify_Ok. eauto. }
  assert (register_with cfg get_node (PObj o) hist s
          = Ok ((), entered s1 coll o r)) as Hreg.
  { unfold register_with. rewrite (bind_run _ _ _ _ _ Hc).
    unfold mbind at 1, M_bind at 1, coll_contains. rewrite Hnone.
    rewrite bool_decide_eq_false_2 by (by intros [? ?]).
    by rewrite (bind_run _ _ _ _ _ Hn). }
  unfold get_node_with. rewrite (bind_run _ _ _ _ _ Hc).
  unfold mbind at 1, M_bind at 1, coll_contains. rewrite Hnone.
  rewrite bool_decide_eq_false_2 by (by intros [? ?]).
  rewrite (bind_run _ _ _ _ _ Hreg).
  unfold coll_getitem, entered. simpl.
  by rewrite collection_set_eq, lookup_insert_eq.
Qed.

(** X5 (placeholders are leaves). The first lookup of an external
    placeholder makes one node and nothing else: the node is [fromstr], its
    ident is the placeholder's name (the link text when the name is a
    hyperlink), no entity is read or made and no other node is looked up, so
    the lookup returns with any fuel. *)
Theorem X5_placeholder_leaf cfg o x hist s :
  objs s !! o = Some x →
  isinstance (cls x) External_classes = true →
  (∀ c, collection c (data s) !! o = None) →
  ∃ coll t n,
    collection_and_node_type (cls x) = Ok (coll, t)
    ∧ n_class n = t ∧ n_dict n !! "fromstr" = Some (ABool true)
    ∧ ∀ fuel,
        get_node cfg (S fuel) (PObj o) hist s
        = Ok ({| addr := length (heap s);
                 node_ident := display_name cfg (name x);
                 node_type := t |},
              {| objs := objs s; heap := heap s ++ [n];
                 data := set_collection coll
                           (<[o := {| addr := length (heap s);
                                      node_ident := display_name cfg (name x);
                                      node_type := t |}]>
                              (collection coll (data s))) (data s) |}).
Proof.
  intros Hx Hext Hnone.
  destruct (external_recognised _ Hext) as (coll & t & Hcls).
  destruct (construct_external cfg t o x s Hx Hext) as (n & Hrun & Hc & Hd).
  exists coll, t, n. split_and!; [done..|]. intros fuel. simpl.
  by rewrite (get_node_miss cfg _ o x coll t hist s _ _ Hx Hcls (Hnone coll)
                (Hrun _ _) eq_refl).
Qed.

(** [X5_placeholder_leaf] on the placeholder of a module named "mpi". *)
Lemma X5_placeholder_leaf_witness :
  ∃ r s',
    get_node plain 1 (PObj 0%nat) None (start [external ExternalModule "mpi"])
    = Ok (r, s')
    ∧ node_ident r = "mpi" ∧ node_type r = ModNode
    ∧ length (heap s') = 1%nat ∧ length (objs s') = 1%nat.
Proof.
  destruct (X5_placeholder_leaf plain 0 (external ExternalModule "mpi") None
              (start [external ExternalModule "mpi"]))
    as (coll & t & n & Hcls & Hc & Hd & Hget);
    [reflexivity|reflexivity|by intros []|].
  injection Hcls as <- <-.
  eexists _, _. split; [apply (Hget 0%nat)|]. by split_and!.
Defined.

End RegistryInvariants.

(** * Invariants of the graph builder *)

Module GraphInvariants.
Import RegistryFacts GraphFacts.

(** ** One node of a hop *)

Lemma set_in_elem x s : x ∈ s → set_in x s = true.
Proof.
  induction s as [|y s IH]; [by intros ?%elem_of_nil|].
  intros [->|Hx]%elem_of_cons; simpl.
  - unfold node_eq. by rewrite String.eqb_refl.
  - apply orb_true_iff. right. by apply IH.
Qed.

Lemma set_in_eq x y s : node_eq x y = true → set_in y s = set_in x s.
Proof.
  intros Hxy%node_eq_ident. unfold set_in, node_eq. induction s as [|z s IH];
    [done|]. simpl. by rewrite IH, Hxy.
Qed.

Lemma set_in_inv x s :
  set_in x s = true → ∃ y, y ∈ s ∧ node_ident x = node_ident y.
Proof.
  induction s as [|y s IH]; [done|]. simpl.
  intros [Hy|Hs]%orb_true_iff.
  - exists y. split; [by left|by apply node_eq_ident].
  - destruct (IH Hs) as (z & Hz & Heq). exists z. split; [by right|done].
Qed.

Lemma set_add_elem m x s : m ∈ set_add x s → m ∈ s ∨ m = x.
Proof.
  unfold set_add. destruct (set_in x s); [auto|].
  intros [?|?%list_elem_of_singleton]%elem_of_app; auto.
Qed.

Lemma set_update_elem m s xs : m ∈ set_update s xs → m ∈ s ∨ m ∈ xs.
Proof.
  unfold set_update. revert s. induction xs as [|x xs IH]; intros s; simpl.
  - auto.
  - intros [[?| ->]%set_add_elem|?]%IH; [auto|right; by left|right; by right].
Qed.

(** A node equal to a member of [xs] is in the set after the update. *)
Lemma set_in_update x s xs :
  set_in x xs = true → set_in x (set_update s xs) = true.
Proof.
  intros (y & Hy & Heq)%set_in_inv.
  rewrite (set_in_eq y x) by by apply node_eq_ident.
  by apply set_in_update_r.
Qed.

Lemma hop_step_refl added node colour hop : hop_step added node colour [] hop hop.
Proof.
  split_and!; [|done|auto|by intros ? ?%elem_of_nil].
  exists []. split; [by rewrite app_nil_r|by intros ? ?%elem_of_nil].
Qed.

Lemma hop_step_trans added node colour ms1 ms2 hop hop1 hop2 :
  hop_step added node colour ms1 hop hop1 →
  hop_step added node colour ms2 hop1 hop2 →
  hop_step added node colour (ms1 ++ ms2) hop hop2.
Proof.
  intros ((es1 & He1 & Hes1) & Hm1 & Hn1 & Hv1)
         ((es2 & He2 & Hes2) & Hm2 & Hn2 & Hv2).
  split_and!.
  - exists (es1 ++ es2). split; [by rewrite He2, He1, app_assoc|].
    intros e [He|He]%elem_of_app.
    + destruct (Hes1 e He) as (? & m & ? & ?). split; [done|].
      exists m. split; [apply elem_of_app; by left|done].
    + destruct (Hes2 e He) as (? & m & ? & ?). split; [done|].
      exists m. split; [apply elem_of_app; by right|done].
  - auto.
  - intros m [Hm|Hm]%Hn2.
    + destruct (Hn1 m Hm); [by left|right; apply elem_of_app; by left].
    + right. apply elem_of_app. by right.
  - intros m [Hm|Hm]%elem_of_app; [|by apply Hv2].
    destruct (Hv1 m Hm); auto.
Qed.

(** A loop of [_add_node]: every item names a node, which goes to the hop
    unless it was added before, and gives some edges. *)
Lemma foldl_visits {A} added node colour (key : A → NodeRef)
    (edges : A → list Edge) (f : Hop → A → Hop) l :
  (∀ hop p, f hop p = ((if set_in (key p) added then hop.1
                        else set_add (key p) hop.1), hop.2 ++ edges p)) →
  (∀ p e, e ∈ edges p → color e = colour ∧ joins node (key p) e) →
  ∀ hop, hop_step added node colour (key <$> l) hop (foldl f hop l).
Proof.
  intros Hf He. induction l as [|p l IH]; intros hop; simpl.
  - apply hop_step_refl.
  - apply (hop_step_trans added node colour [key p] (key <$> l) hop
             (f hop p)); [|apply IH].
    rewrite Hf.
    split_and!; cbn [fst snd].
    + exists (edges p). split; [done|]. intros e Hin.
      destruct (He p e Hin). split; [done|]. exists (key p).
      split; [by apply list_elem_of_singleton|done].
    + intros x Hx. destruct (set_in (key p) added); [done|].
      by apply set_in_add.
    + intros m. destruct (set_in (key p) added); [auto|].
      intros [?| ->]%set_add_elem; [auto|].
      right. by apply list_elem_of_singleton.
    + intros m ->%list_elem_of_singleton.
      destruct (set_in (key p) added); [auto|]. right. apply set_in_add_eq.
Qed.

Lemma visits_step added node colour (edge : NodeRef → Edge) l hop :
  (∀ m, color (edge m) = colour ∧ joins node m (edge m)) →
  hop_step added node colour l hop (foldl (visit added edge) hop l).
Proof.
  intros He. rewrite <-(list_fmap_id l) at 1.
  apply foldl_visits with (edges := λ m, [edge m]); [done|].
  by intros p e ->%list_elem_of_singleton.
Qed.

Lemma visit_any_visit edge hop n : visit_any edge hop n = visit [] edge hop n.
Proof.
  unfold visit_any, visit, set_add. simpl. by destruct (set_in n hop.1).
Qed.

Lemma hop_step_weaken added node colour ms hop hop' :
  hop_step [] node colour ms hop hop' → hop_step added node colour ms hop hop'.
Proof.
  intros (He & Hm & Hn & Hv). split_and!; [done..|].
  intros m [?|?]%Hv; [done|by right].
Qed.

Lemma visit_any_step added node colour (edge : NodeRef → Edge) l hop :
  (∀ m, color (edge m) = colour ∧ joins node m (edge m)) →
  hop_step added node colour l hop (foldl (visit_any edge) hop l).
Proof.
  intros He. apply hop_step_weaken. rewrite <-(list_fmap_id l) at 1.
  apply foldl_visits with (edges := λ m, [edge m]).
  - intros. apply visit_any_visit.
  - by intros p e ->%list_elem_of_singleton.
Qed.

(** The loops over a dict of labelled nodes. *)
Lemma labelled_step added node colour
    (edge : NodeRef → string → Edge) (d : list (NodeRef * string)) hop :
  (∀ m lbl, color (edge m lbl) = colour ∧ joins node m (edge m lbl)) →
  hop_step added node colour d.*1 hop
    (foldl (λ hop '(c, lbl), visit added (λ c, edge c lbl) hop c) hop d).
Proof.
  intros He.
  apply foldl_visits with (edges := λ p, [edge p.1 p.2]).
  - by intros ? [].
  - by intros [] e ->%list_elem_of_singleton.
Qed.

(** The first loop of [TypeGraph._add_node], which adds no edge. *)
Lemma keys_step added node colour ks hop :
  hop_step added node colour ks hop
    (foldl (λ hop k, ((if set_in k added then hop.1 else set_add k hop.1),
                      hop.2)) hop ks).
Proof.
  rewrite <-(list_fmap_id ks) at 1.
  apply foldl_visits with (edges := λ _, []).
  - intros. by rewrite app_nil_r.
  - by intros p e ?%elem_of_nil.
Qed.

Ltac edge_tac := intros; split; [reflexivity|first [by left|by right]].

Lemma ancestor_present_step h node :
  ∃ ms, ∀ added colour hop hop',
    visit_ancestor_if_present h added node colour hop = Ok hop' →
    hop_step added node colour ms hop hop'.
Proof.
  unfold visit_ancestor_if_present.
  destruct (lookup_attr h node "ancestor") as [[v|]| |]; simpl;
    [destruct v| | |];
    try (exists []; intros added colour hop hop' [= <-]; apply hop_step_refl);
    try by (exists []).
  exists [r]. intros added colour hop hop' [= <-].
  apply (visits_step added node colour _ [r] hop). edge_tac.
Qed.

Lemma ancestor_truthy_step h node :
  ∃ ms, ∀ added colour hop hop',
    visit_ancestor_if_truthy h added node colour hop = Ok hop' →
    hop_step added node colour ms hop hop'.
Proof.
  unfold visit_ancestor_if_truthy.
  destruct (lookup_attr h node "ancestor") as [[v|]| |]; simpl;
    [|by exists []..].
  destruct v as [|[]|z|str|r|st|d|d];
    try (exists []; intros added colour hop hop' [= <-]; apply hop_step_refl);
    try by (exists []).
  - exists []. intros added colour hop hop'. destruct z; [|done..].
    intros [= <-]. apply hop_step_refl.
  - exists []. intros added colour hop hop'. destruct (String.eqb _ _); [|done].
    intros [= <-]. apply hop_step_refl.
  - exists [r]. intros added colour hop hop' [= <-].
    apply (visits_step added node colour _ [r] hop). edge_tac.
  - exists []. intros added colour hop hop'. destruct st; [|done].
    intros [= <-]. apply hop_step_refl.
  - exists []. intros added colour hop hop'. destruct d; [|done].
    intros [= <-]. apply hop_step_refl.
  - exists []. intros added colour hop hop'. destruct d; [|done].
    intros [= <-]. apply hop_step_refl.
Qed.

Lemma uses_add_node_step h node :
  ∃ ms, ∀ added hop colour hop',
    uses_add_node h added hop node colour = Ok hop' →
    hop_step added node colour ms hop hop'.
Proof.
  unfold uses_add_node.
  destruct (ancestor_present_step h node) as [ms2 H2].
  destruct (iter_attr h node "uses") as [us| |]; [|by exists []..].
  exists (sorted us ++ ms2). intros added hop colour hop' H. simpl in H.
  eapply hop_step_trans; [|by apply H2]. apply visits_step. edge_tac.
Qed.

Lemma inherits_add_node_step h node :
  ∃ ms, ∀ added hop colour hop',
    inherits_add_node h added hop node colour = Ok hop' →
    hop_step added node colour ms hop hop'.
Proof.
  unfold inherits_add_node.
  destruct (ancestor_truthy_step h node) as [ms2 H2].
  destruct (dict_attr h node "comp_types") as [d| |]; [|by exists []..].
  exists (d.*1 ++ ms2). intros added hop colour hop' H. simpl in H.
  eapply hop_step_trans; [|by apply H2].
  apply (labelled_step added node colour
           (λ c lbl, _dashed_edge node c colour (Some lbl))). edge_tac.
Qed.

(** What [_add_node] does to the hop, for every class: the nodes it visits
    depend on the node alone, not on what was added before. *)
Lemma add_node_step c h node :
  ∃ ms, ∀ added hop colour hop',
    _add_node c h added hop node colour = Ok hop' →
    hop_step added node colour ms hop hop'.
Proof.
  destruct c; unfold _add_node.
  - by exists [].
  - apply uses_add_node_step.
  - apply uses_add_node_step.
  - destruct (iter_attr_default h node "used_by") as [ub| |]; [|by exists []..].
    destruct (iter_attr_default h node "children") as [ch| |];
      [|by exists []..].
    exists (sorted ub ++ sorted ch). intros added hop colour hop' [= <-].
    eapply hop_step_trans; apply visits_step; edge_tac.
  - destruct (iter_attr h node "efferent") as [ef| |]; [|by exists []..].
    exists (sorted ef). intros added hop colour hop' [= <-].
    apply visits_step; edge_tac.
  - destruct (iter_attr h node "efferent") as [ef| |]; [|by exists []..].
    exists (sorted ef). intros added hop colour hop' [= <-].
    apply visits_step; edge_tac.
  - destruct (iter_attr h node "afferent") as [af| |]; [|by exists []..].
    exists (sorted af). intros added hop colour hop' [= <-].
    apply visits_step; edge_tac.
  - destruct (inherits_add_node_step h node) as [ms2 H2].
    destruct (iter_attr h node "comp_types") as [ks| |]; [|by exists []..].
    exists (ks ++ ms2). intros added hop colour hop' H. simpl in H.
    eapply hop_step_trans; [apply keys_step|by apply H2].
  - apply inherits_add_node_step.
  - destruct (dict_attr h node "comp_of") as [d| |]; [|by exists []..].
    destruct (iter_attr h node "children") as [ch| |]; [|by exists []..].
    exists (d.*1 ++ ch). intros added hop colour hop' [= <-].
    eapply hop_step_trans; [|apply visits_step; edge_tac].
    apply (labelled_step added node colour
             (λ c lbl, _dashed_edge c node colour (Some lbl))). edge_tac.
  - destruct (iter_attr h node "calls") as [cs| |]; [|by exists []..].
    destruct (iter_attr_default h node "interfaces") as [ifs| |];
      [|by exists []..].
    exists (sorted cs ++ sorted ifs). intros added hop colour hop' [= <-].
    eapply hop_step_trans; apply visit_any_step; edge_tac.
  - destruct (iter_attr h node "calls") as [cs| |]; [|by exists []..].
    destruct (iter_attr_default h node "interfaces") as [ifs| |];
      [|by exists []..].
    exists (sorted cs ++ sorted ifs). intros added hop colour hop' [= <-].
    eapply hop_step_trans; apply visits_step; edge_tac.
  - destruct (bool_decide (node_type node = ProgNode)).
    { exists []. intros added hop colour hop' [= <-]. apply hop_step_refl. }
    destruct (iter_attr h node "called_by") as [cb| |]; [|by exists []..].
    destruct (iter_attr_default h node "interfaced_by") as [ib| |];
      [|by exists []..].
    exists (sorted cb ++ sorted ib). intros added hop colour hop' [= <-].
    eapply hop_step_trans; apply visits_step; edge_tac.
Qed.

(** ** One hop *)

Lemma add_node_reaches c h added hop node colour hop' m :
  _add_node c h added hop node colour = Ok hop' →
  reaches c h node m →
  set_in m added = true ∨ set_in m hop'.1 = true.
Proof.
  destruct (add_node_step c h node) as [ms Hms].
  intros (_ & _ & _ & Hv)%Hms (colour0 & hop0 & (_ & _ & Hn & _)%Hms & Hm).
  apply Hv. by destruct (Hn m Hm) as [?%elem_of_nil|?].
Qed.

(** The loop of [add_nodes] over the nodes of the frontier: the hop nodes
    only grow; every new edge has a colour of [rainbowcolour] and joins a
    frontier node with a node that was added before or is in the hop; and
    every node reached from the frontier was added before or is in the
    hop. *)
Lemma collect_hop_step cfg c h added total : ∀ nodes i hop hop',
  collect_hop cfg c h added total i nodes hop = Ok hop' →
  (∀ x, set_in x hop.1 = true → set_in x hop'.1 = true)
  ∧ (∃ es, hop'.2 = hop.2 ++ es
       ∧ ∀ e, e ∈ es →
           (∃ j, color e = rainbowcolour cfg j total)
           ∧ ∃ n m, n ∈ nodes ∧ joins n m e
                    ∧ (set_in m added = true ∨ set_in m hop'.1 = true))
  ∧ (∀ n m, n ∈ nodes → reaches c h n m →
       set_in m added = true ∨ set_in m hop'.1 = true).
Proof.
  induction nodes as [|node nodes IH]; intros i hop hop'; simpl.
  - intros [= <-]. split_and!; [done| |by intros ?? ?%elem_of_nil].
    exists []. split; [by rewrite app_nil_r|by intros ? ?%elem_of_nil].
  - intros (hop1 & Hnode & Hrest)%rbind_Ok.
    destruct (IH _ _ _ Hrest) as (Hm & (es2 & He2 & Hes2) & Hr).
    destruct (add_node_step c h node) as [ms Hms].
    destruct (Hms _ _ _ _ Hnode) as ((es1 & He1 & Hes1) & Hm1 & _ & Hv1).
    split_and!.
    + auto.
    + exists (es1 ++ es2). split; [by rewrite He2, He1, app_assoc|].
      intros e [He|He]%elem_of_app.
      * destruct (Hes1 e He) as (Hcol & m & Hin & Hj).
        split; [eauto|]. exists node, m. split; [by left|]. split; [done|].
        destruct (Hv1 m Hin); auto.
      * destruct (Hes2 e He) as (Hcol & n & m & Hin & Hj & Hor).
        split; [done|]. exists n, m. split; [by right|done].
    + intros n m [->|Hn]%elem_of_cons Hreach; [|by eapply Hr].
      destruct (add_node_reaches _ _ _ _ _ _ _ m Hnode Hreach); auto.
Qed.

(** ** Induction on the hops *)

Section Hops.
Context (cfg : Config) (h : list Node).
Context (P : FortranGraph → list NodeRef → Z → FortranGraph → Prop).

Hypothesis refused : ∀ g F nesting hn he g1,
  collect_hop cfg (g_class g) h (added g) (length F) 0 (sorted F) ([], [])
  = Ok (hn, he) →
  add_to_graph h g hn he nesting = Ok (g1, false) →
  P g F nesting g1.

Hypothesis admitted_last : ∀ g F nesting hn he g1,
  collect_hop cfg (g_class g) h (added g) (length F) 0 (sorted F) ([], [])
  = Ok (hn, he) →
  add_to_graph h g hn he nesting = Ok (g1, true) →
  _should_add_nested_nodes (g_class g) = false ∨ hn = [] →
  P g F nesting (_extra_attributes g1).

Hypothesis admitted_more : ∀ g F nesting hn he g1 g' fuel,
  collect_hop cfg (g_class g) h (added g) (length F) 0 (sorted F) ([], [])
  = Ok (hn, he) →
  add_to_graph h g hn he nesting = Ok (g1, true) →
  _should_add_nested_nodes (g_class g) = true → hn ≠ [] →
  nesting < max_nesting g →
  add_nodes cfg fuel h (_extra_attributes g1) hn (nesting + 1) = Ok g' →
  P (_extra_attributes g1) hn (nesting + 1) g' →
  P g F nesting g'.

Hypothesis admitted_truncated : ∀ g F nesting hn he g1,
  collect_hop cfg (g_class g) h (added g) (length F) 0 (sorted F) ([], [])
  = Ok (hn, he) →
  add_to_graph h g hn he nesting = Ok (g1, true) →
  _should_add_nested_nodes (g_class g) = true → hn ≠ [] →
  max_nesting g ≤ nesting →
  P g F nesting (set_truncated (_extra_attributes g1) nesting).

Lemma add_nodes_hops fuel : ∀ g F nesting g',
  add_nodes cfg fuel h g F nesting = Ok g' → P g F nesting g'.
Proof.
  induction fuel as [|fuel IH]; intros g F nesting g' Hrun; [done|].
  apply add_nodes_fuel_Ok in Hrun
    as (fuel' & hn & he & g1 & extended & [= <-] & Hhop & Hadd & Hrest).
  destruct extended; [|subst g'; by eapply refused].
  destruct (add_to_graph_Ok _ _ _ _ _ _ _ Hadd)
    as ((Hcl & _ & _ & Hmn & _) & _).
  rewrite Hcl, Hmn in Hrest.
  destruct (_should_add_nested_nodes (g_class g)) eqn:Hnest;
    [|subst g'; eapply admitted_last; eauto].
  destruct hn as [|n hn].
  { change (len (@nil NodeRef) =? 0) with true in Hrest. cbv iota in Hrest.
    subst g'. eapply admitted_last; eauto. }
  change (len (n :: hn) =? 0) with false in Hrest. cbv iota in Hrest.
  destruct (nesting <? max_nesting g) eqn:Hdepth.
  - apply Z.ltb_lt in Hdepth. eapply admitted_more; eauto.
  - apply Z.ltb_ge in Hdepth. subst g'. eapply admitted_truncated; eauto.
Qed.

End Hops.

(** ** The added set only grows *)

Lemma add_nodes_mono cfg fuel h g F nesting g' :
  add_nodes cfg fuel h g F nesting = Ok g' →
  ∀ x, set_in x (added g) = true → set_in x (added g') = true.
Proof.
  revert fuel g F nesting g'.
  apply (add_nodes_hops cfg h (λ g F nesting g',
    ∀ x, set_in x (added g) = true → set_in x (added g') = true)); cbv beta.
  - intros g F nesting hn he g1 _ (_ & _ & -> & _)%add_to_graph_Ok. auto.
  - intros g F nesting hn he g1 _ (_ & _ & Ha & _)%add_to_graph_Ok _ x Hx.
    destruct (extra_attributes_fields g1) as (_ & -> & _). rewrite Ha.
    by apply set_in_update_l.
  - intros g F nesting hn he g1 g' fuel _ (_ & _ & Ha & _)%add_to_graph_Ok
      _ _ _ _ IH x Hx.
    apply IH. destruct (extra_attributes_fields g1) as (_ & -> & _).
    rewrite Ha. by apply set_in_update_l.
  - intros g F nesting hn he g1 _ (_ & _ & Ha & _)%add_to_graph_Ok _ _ _ x Hx.
    destruct (set_truncated_fields (_extra_attributes g1) nesting)
      as (_ & -> & _).
    destruct (extra_attributes_fields g1) as (_ & -> & _). rewrite Ha.
    by apply set_in_update_l.
Qed.

(** ** A graph that is not truncated is complete *)

Lemma elem_of_sorted n F : n ∈ sorted F ↔ n ∈ F.
Proof. unfold sorted. by rewrite sorted_by_perm. Qed.

Lemma add_nodes_complete cfg fuel h g F nesting g' :
  add_nodes cfg fuel h g F nesting = Ok g' →
  1 ≤ nesting → truncated g' < 1 →
  _should_add_nested_nodes (g_class g) = true →
  (∀ n m, n ∈ F → reaches (g_class g) h n m → set_in m (added g') = true)
  ∧ ∀ n, n ∈ added g' →
      n ∈ added g
      ∨ ∀ m, reaches (g_class g) h n m → set_in m (added g') = true.
Proof.
  revert fuel g F nesting g'.
  apply (add_nodes_hops cfg h (λ g F nesting g',
    1 ≤ nesting → truncated g' < 1 →
    _should_add_nested_nodes (g_class g) = true →
    (∀ n m, n ∈ F → reaches (g_class g) h n m → set_in m (added g') = true)
    ∧ ∀ n, n ∈ added g' →
        n ∈ added g
        ∨ ∀ m, reaches (g_class g) h n m → set_in m (added g') = true));
    cbv beta.
  - intros g F nesting hn he g1 _ (_ & _ & _ & _ & Ht & _)%add_to_graph_Ok.
    lia.
  - intros g F nesting hn he g1 Hhop (_ & _ & Ha & _)%add_to_graph_Ok
      [Hflat| ->] Hn Ht Hnest; [congruence|].
    destruct (extra_attributes_fields g1) as (_ & -> & _). rewrite Ha.
    split; [|auto]. intros n m Hin%elem_of_sorted Hreach.
    by destruct (proj2 (proj2 (collect_hop_step _ _ _ _ _ _ _ _ _ Hhop))
                   n m Hin Hreach).
  - intros g F nesting hn he g1 g' fuel Hhop Hadd Hnest Hne Hdepth Hrun IH
      Hn Ht _.
    pose proof (add_to_graph_Ok _ _ _ _ _ _ _ Hadd)
      as ((Hcl & _) & _ & Ha & _).
    destruct (extra_attributes_fields g1) as ((Hcl' & _) & Ha' & _).
    rewrite Hcl', Hcl, Ha', Ha in IH.
    destruct IH as [IHF IHA]; [lia|done|done|].
    assert (∀ x, set_in x (set_update (added g) hn) = true →
                 set_in x (added g') = true) as Hmono.
    { intros x Hx. eapply add_nodes_mono; [done|]. by rewrite Ha', Ha. }
    split.
    + intros n m Hin%elem_of_sorted Hreach. apply Hmono.
      destruct (proj2 (proj2 (collect_hop_step _ _ _ _ _ _ _ _ _ Hhop))
                  n m Hin Hreach);
        [by apply set_in_update_l|by apply set_in_update].
    + intros n Hin. destruct (IHA n Hin) as [[?|?]%set_update_elem|?];
        [by left|right|by right].
      intros m. by apply IHF.
  - intros g F nesting hn he g1 _ _ _ _ _ Hn Ht.
    destruct (set_truncated_fields (_extra_attributes g1) nesting)
      as (_ & _ & _ & Ht' & _).
    lia.
Qed.

(** ** Where a graph is truncated *)

Lemma add_nodes_truncated cfg fuel h g F nesting g' :
  add_nodes cfg fuel h g F nesting = Ok g' →
  1 ≤ nesting →
  (truncated g' = truncated g
   ∨ nesting ≤ truncated g' ≤ Z.max nesting (max_nesting g))
  ∧ (_should_add_nested_nodes (g_class g) = false →
     truncated g' = truncated g ∨ truncated g' = nesting).
Proof.
  revert fuel g F nesting g'.
  apply (add_nodes_hops cfg h (λ g F nesting g',
    1 ≤ nesting →
    (truncated g' = truncated g
     ∨ nesting ≤ truncated g' ≤ Z.max nesting (max_nesting g))
    ∧ (_should_add_nested_nodes (g_class g) = false →
       truncated g' = truncated g ∨ truncated g' = nesting))); cbv beta.
  - intros g F nesting hn he g1 _ (_ & _ & _ & _ & Ht & _)%add_to_graph_Ok Hn.
    split; [right; lia|auto].
  - intros g F nesting hn he g1 _ (_ & _ & _ & _ & Ht & _)%add_to_graph_Ok
      _ Hn.
    destruct (extra_attributes_fields g1) as (_ & _ & _ & -> & _). auto.
  - intros g F nesting hn he g1 g' fuel _ Hadd Hnest _ Hdepth _ IH Hn.
    pose proof (add_to_graph_Ok _ _ _ _ _ _ _ Hadd)
      as ((_ & _ & _ & Hmn & _) & _ & _ & _ & Ht & _).
    destruct (extra_attributes_fields g1)
      as ((_ & _ & _ & Hmn' & _) & _ & _ & Ht' & _).
    rewrite Ht', Ht, Hmn', Hmn in IH. destruct IH as [IH _]; [lia|].
    split; [lia|congruence].
  - intros g F nesting hn he g1 _ _ Hnest _ Hdepth Hn.
    destruct (set_truncated_fields (_extra_attributes g1) nesting)
      as (_ & _ & _ & Ht' & _).
    split; [right; lia|congruence].
Qed.

(** ** Fallback data *)

Lemma add_nodes_fallback cfg fuel h g F nesting g' :
  add_nodes cfg fuel h g F nesting = Ok g' →
  (nesting = 1 →
     (truncated g' = 1 ∧ added g' = added g ∧ dot g' = dot g
      ∧ max_nodes g < len (hop_nodes g') + len (added g))
     ∨ (hop_nodes g' = hop_nodes g ∧ hop_edges g' = hop_edges g
        ∧ len (added g) ≤ max_nodes g))
  ∧ (2 ≤ nesting → hop_nodes g' = hop_nodes g ∧ hop_edges g' = hop_edges g).
Proof.
  revert fuel g F nesting g'.
  apply (add_nodes_hops cfg h (λ g F nesting g',
    (nesting = 1 →
       (truncated g' = 1 ∧ added g' = added g ∧ dot g' = dot g
        ∧ max_nodes g < len (hop_nodes g') + len (added g))
       ∨ (hop_nodes g' = hop_nodes g ∧ hop_edges g' = hop_edges g
          ∧ len (added g) ≤ max_nodes g))
    ∧ (2 ≤ nesting →
       hop_nodes g' = hop_nodes g ∧ hop_edges g' = hop_edges g)));
    cbv beta.
  - intros g F nesting hn he g1 _
      (_ & Hlt & Ha & _ & Ht & Hd & H1 & H2)%add_to_graph_Ok.
    split; [|done]. intros ->. left. destruct H1 as [-> _]; [lia|]. auto.
  - intros g F nesting hn he g1 _
      (_ & Hle & _ & _ & _ & Hn & He)%add_to_graph_Ok _.
    destruct (extra_attributes_fields g1) as (_ & _ & _ & _ & -> & ->).
    unfold len in *.
    split; [intros _; right|intros _]; split_and!; (done || lia).
  - intros g F nesting hn he g1 g' fuel _ Hadd _ _ _ _ [_ IH].
    pose proof (add_to_graph_Ok _ _ _ _ _ _ _ Hadd)
      as (_ & Hle & _ & _ & _ & Hn & He).
    destruct (extra_attributes_fields g1) as (_ & _ & _ & _ & Hn' & He').
    rewrite Hn', He', Hn, He in IH.
    unfold len in *.
    split; [intros ?; right|intros ?]; (destruct IH as [-> ->]; [lia|]);
      split_and!; (done || lia).
  - intros g F nesting hn he g1 _
      (_ & Hle & _ & _ & _ & Hn & He)%add_to_graph_Ok _ _ _.
    destruct (set_truncated_fields (_extra_attributes g1) nesting)
      as (_ & _ & _ & _ & -> & ->).
    destruct (extra_attributes_fields g1) as (_ & _ & _ & _ & -> & ->).
    unfold len in *.
    split; [intros _; right|intros _]; split_and!; (done || lia).
Qed.

(** ** The diagram *)

Lemma set_in_ids x A : set_in x A = true ↔ node_ident x ∈ node_ident <$> A.
Proof.
  split.
  - intros (y & Hy & ->)%set_in_inv. by apply list_elem_of_fmap_2.
  - intros (y & Heq & Hy)%list_elem_of_fmap.
    rewrite (set_in_eq y x) by by apply node_eq_ident.
    by apply set_in_elem.
Qed.

Lemma ids_set_update nm A xs :
  nm ∈ node_ident <$> set_update A xs
  ↔ nm ∈ node_ident <$> A ∨ nm ∈ node_ident <$> xs.
Proof.
  split.
  - intros (y & -> & [Hy|Hy]%set_update_elem)%list_elem_of_fmap;
      [left|right]; by apply list_elem_of_fmap_2.
  - intros [(y & -> & Hy)%list_elem_of_fmap|(y & -> & Hy)%list_elem_of_fmap];
      apply set_in_ids; [by apply set_in_update_l, set_in_elem|].
    by apply set_in_update_r.
Qed.

Lemma mapM_result_Ok {A B} (f : A → result B) xs : ∀ ys,
  mapM_result f xs = Ok ys → Forall2 (λ x y, f x = Ok y) xs ys.
Proof.
  induction xs as [|x xs IH]; intros ys; simpl.
  - intros [= <-]. constructor.
  - intros (y & Hy & (ys' & Hys & [= <-])%rbind_Ok)%rbind_Ok.
    constructor; auto.
Qed.

Lemma declared_app g stmts :
  declared (dot_add g stmts)
  = declared g
    ++ omap (λ st, match st with DotNode nm _ => Some nm | _ => None end)
         stmts.
Proof. destruct g. unfold declared. simpl. apply omap_app. Qed.

Lemma drawn_app g stmts :
  drawn (dot_add g stmts)
  = drawn g
    ++ omap (λ st, match st with DotEdge e => Some e | _ => None end) stmts.
Proof. destruct g. unfold drawn. simpl. apply omap_app. Qed.

Lemma omap_edges_nodes {A} (f : A → result DotStmt) (key : A → string) xs :
  ∀ stmts,
  Forall2 (λ x st, ∃ attrs, st = DotNode (key x) attrs) xs stmts →
  omap (λ st, match st with DotNode nm _ => Some nm | _ => None end) stmts
  = key <$> xs
  ∧ omap (λ st, match st with DotEdge e => Some e | _ => None end) stmts = [].
Proof.
  induction 1 as [|x st xs stmts [attrs ->] _ [IH1 IH2]]; [done|].
  split; [exact (f_equal (cons (key x)) IH1)|exact IH2].
Qed.

Lemma omap_DotEdge es :
  omap (λ st, match st with DotNode nm _ => Some nm | _ => None end)
    (DotEdge <$> es) = []
  ∧ omap (λ st, match st with DotEdge e => Some e | _ => None end)
      (DotEdge <$> es) = es.
Proof.
  induction es as [|e es [IH1 IH2]]; [done|].
  split; [exact IH1|exact (f_equal (cons e) IH2)].
Qed.

(** What an admitted hop adds to the diagram: a declaration for each of its
    nodes, then its edges. *)
Lemma add_to_graph_drawn h g nodes edges nesting g' :
  add_to_graph h g nodes edges nesting = Ok (g', true) →
  declared g' = declared g ++ (node_ident <$> sorted nodes)
  ∧ drawn g' = drawn g ++ edges.
Proof.
  unfold add_to_graph.
  destruct (len nodes + len (added g) >? max_nodes g); [done|].
  intros (stmts & Hst%mapM_result_Ok & [= <-])%rbind_Ok.
  assert (Forall2 (λ n st, ∃ attrs, st = DotNode (node_ident n) attrs)
            (sorted nodes) stmts) as Hst'.
  { eapply Forall2_impl; [done|]. simpl.
    intros n st (attrs & _ & [= <-])%rbind_Ok. eauto. }
  apply (omap_edges_nodes (λ _, Ok (DotAttr "" []))) in Hst' as [Hn He].
  destruct (omap_DotEdge edges) as [Hn' He'].
  assert (∀ g0 a, declared (set_added g0 a) = declared g0) as Hsa
    by by intros [].
  assert (∀ g0 a, drawn (set_added g0 a) = drawn g0) as Hsa' by by intros [].
  assert (∀ g0 a, declared (set_admitted g0 a) = declared g0) as Hsd
    by by intros [].
  assert (∀ g0 a, drawn (set_admitted g0 a) = drawn g0) as Hsd'
    by by intros [].
  rewrite Hsd, Hsd', Hsa, Hsa', !declared_app, !drawn_app.
  by rewrite Hn, He, Hn', He', !app_nil_r.
Qed.

Lemma extra_attributes_drawn g :
  declared (_extra_attributes g) = declared g
  ∧ drawn (_extra_attributes g) = drawn g.
Proof.
  unfold _extra_attributes.
  destruct (g_class g); rewrite ?declared_app, ?drawn_app; simpl;
    by rewrite ?app_nil_r.
Qed.

Lemma set_truncated_drawn g t :
  declared (set_truncated g t) = declared g
  ∧ drawn (set_truncated g t) = drawn g.
Proof. by destruct g. Qed.

Lemma well_drawn_mono C g g' es :
  well_drawn C g →
  (∀ nm, nm ∈ declared g' ↔ nm ∈ node_ident <$> added g') →
  (∀ nm, nm ∈ declared g → nm ∈ declared g') →
  drawn g' = drawn g ++ es →
  (∀ e, e ∈ es →
     tail_name e ∈ declared g' ∧ head_name e ∈ declared g' ∧ C (color e)) →
  well_drawn C g'.
Proof.
  intros [Hd He] Hd' Hsub Hdr Hes. split; [done|]. intros e.
  rewrite Hdr. intros [Hin|Hin]%elem_of_app; [|auto].
  destruct (He e Hin) as (? & ? & ?). auto.
Qed.

Lemma ids_sorted nm l : nm ∈ node_ident <$> sorted l ↔ nm ∈ node_ident <$> l.
Proof. unfold sorted. by rewrite sorted_by_perm. Qed.

(** An admitted hop keeps the diagram well drawn, and its nodes are added. *)
Lemma hop_admitted_drawn cfg h g F nesting hn he g1 :
  collect_hop cfg (g_class g) h (added g) (length F) 0 (sorted F) ([], [])
  = Ok (hn, he) →
  add_to_graph h g hn he nesting = Ok (g1, true) →
  (∀ n, n ∈ F → set_in n (added g) = true) →
  well_drawn (λ c, ∃ i t, c = rainbowcolour cfg i t) g →
  well_drawn (λ c, ∃ i t, c = rainbowcolour cfg i t) (_extra_attributes g1)
  ∧ ∀ n, n ∈ hn → set_in n (added (_extra_attributes g1)) = true.
Proof.
  intros Hhop Hadd HF Hg.
  destruct (add_to_graph_drawn _ _ _ _ _ _ Hadd) as [Hdecl Hdrawn].
  apply add_to_graph_Ok in Hadd as (_ & _ & Ha & _).
  destruct (extra_attributes_drawn g1) as [Hdecl' Hdrawn'].
  destruct (extra_attributes_fields g1) as (_ & Ha' & _).
  destruct (collect_hop_step _ _ _ _ _ _ _ _ _ Hhop)
    as (_ & (es & Hes & Hedges) & _).
  simpl in Hes. subst es.
  assert (∀ nm, nm ∈ declared (_extra_attributes g1)
                ↔ nm ∈ node_ident <$> added (_extra_attributes g1)) as Hiff.
  { intros nm. rewrite Hdecl', Hdecl, Ha', Ha, elem_of_app, ids_set_update.
    by rewrite ids_sorted, (proj1 Hg nm). }
  split.
  - eapply well_drawn_mono; [done|done| |by rewrite Hdrawn', Hdrawn|].
    + intros nm Hnm. rewrite Hdecl', Hdecl. apply elem_of_app. by left.
    + intros e He. destruct (Hedges e He) as ((j & Hj) & n & m & Hn & Hj' & Hm).
      assert (node_ident n ∈ declared (_extra_attributes g1)) as Hn'.
      { apply Hiff. rewrite Ha', Ha. apply ids_set_update. left.
        by apply set_in_ids, HF, elem_of_sorted. }
      assert (node_ident m ∈ declared (_extra_attributes g1)) as Hm'.
      { apply Hiff. rewrite Ha', Ha. apply set_in_ids.
        destruct Hm; [by apply set_in_update_l|by apply set_in_update]. }
      split_and!; [..|eauto];
        destruct Hj' as [[Ht Hh]|[Ht Hh]]; rewrite ?Ht, ?Hh; done.
  - intros n Hn. rewrite Ha', Ha. by apply set_in_update_r.
Qed.

(** Every hop keeps the diagram well drawn. *)
Lemma add_nodes_drawn cfg h fuel g F nesting g' :
  add_nodes cfg fuel h g F nesting = Ok g' →
  (∀ n, n ∈ F → set_in n (added g) = true) →
  well_drawn (λ c, ∃ i t, c = rainbowcolour cfg i t) g →
  well_drawn (λ c, ∃ i t, c = rainbowcolour cfg i t) g'.
Proof.
  revert fuel g F nesting g'.
  apply (add_nodes_hops cfg h (λ g F nesting g',
    (∀ n, n ∈ F → set_in n (added g) = true) →
    well_drawn (λ c, ∃ i t, c = rainbowcolour cfg i t) g →
    well_drawn (λ c, ∃ i t, c = rainbowcolour cfg i t) g')); cbv beta.
  - intros g F nesting hn he g1 _
      (_ & _ & Ha & _ & _ & Hd & _)%add_to_graph_Ok _ [Hd1 Hd2].
    unfold well_drawn, declared, drawn in *. by rewrite Hd, Ha.
  - intros g F nesting hn he g1 Hhop Hadd _ HF Hg.
    by destruct (hop_admitted_drawn _ _ _ _ _ _ _ _ Hhop Hadd HF Hg).
  - intros g F nesting hn he g1 g' fuel Hhop Hadd _ _ _ _ IH HF Hg.
    destruct (hop_admitted_drawn _ _ _ _ _ _ _ _ Hhop Hadd HF Hg). auto.
  - intros g F nesting hn he g1 Hhop Hadd _ _ _ HF Hg.
    destruct (hop_admitted_drawn _ _ _ _ _ _ _ _ Hhop Hadd HF Hg)
      as [[Hd1 Hd2] _].
    destruct (set_truncated_drawn (_extra_attributes g1) nesting) as [Hd Hdr].
    destruct (set_truncated_fields (_extra_attributes g1) nesting)
      as (_ & Ha & _).
    unfold well_drawn. rewrite Hd, Hdr, Ha. by split.
Qed.

(** ** A graph as [__init__] returns it *)

Lemma add_roots_drawn h g g1 :
  add_roots h g = Ok g1 →
  declared g1 = declared g ++ (node_ident <$> root g) ∧ drawn g1 = drawn g.
Proof.
  unfold add_roots. intros (stmts & Hst%mapM_result_Ok & [= <-])%rbind_Ok.
  assert (Forall2 (λ n st, ∃ attrs, st = DotNode (node_ident n) attrs)
            (root g) stmts) as Hst'.
  { eapply Forall2_impl; [done|]. simpl. intros n st.
    destruct (len (root g) =? 1); intros (? & _ & [= <-])%rbind_Ok; eauto. }
  apply (omap_edges_nodes (λ _, Ok (DotAttr "" []))) in Hst' as [Hn He].
  assert (∀ g0 a, declared (set_added g0 a) = declared g0) as Hsa
    by by intros [].
  assert (∀ g0 a, drawn (set_added g0 a) = drawn g0) as Hsa' by by intros [].
  by rewrite Hsa, Hsa', declared_app, drawn_app, Hn, He, app_nil_r.
Qed.

(** The steps of [__init__]: the roots are resolved, then added and
    declared, then the hops are made, then the diagram is rendered. *)
Lemma init_parts cfg fuel c root webdir ident_ s g s' :
  __init__ cfg fuel c root webdir ident_ s = Ok (g, s') →
  ∃ rs mn mx w g1 g2,
    deref_all root s = Ok (rs, s)
    ∧ resolve_roots cfg fuel (sorted_by entity_lt rs) ([], 0, 1, false) s
      = Ok (Graphs.root g1, mn, mx, w, s')
    ∧ max_nesting g1 = mn ∧ max_nodes g1 = mx ∧ warn g1 = w
    ∧ add_nodes cfg (S (Z.to_nat (max_nesting g1))) (heap s') g1
        (Graphs.root g1) 1 = Ok g2
    ∧ render cfg g2 = Ok g
    ∧ g_class g1 = c
    ∧ added g1 = set_update [] (Graphs.root g1)
    ∧ truncated g1 = -1 ∧ hop_nodes g1 = [] ∧ hop_edges g1 = []
    ∧ declared g1 = node_ident <$> Graphs.root g1 ∧ drawn g1 = [].
Proof.
  intros (rs & root_nodes & mn & mx & w & id & g1 & g2
          & Hrs & Hroots & _ & Hg1 & Hg2 & Hg)%init_Ok.
  exists rs, mn, mx, w, g1, g2.
  destruct (add_roots_drawn _ _ _ Hg1) as [Hd He].
  apply add_roots_Ok in Hg1
    as ((Hc & Hr & Hm & Hn & Hw) & Ha & _ & Ht & Hhn & Hhe).
  change (declared (new_graph c root_nodes mn mx w webdir id)) with
    (@nil string) in Hd.
  change (drawn (new_graph c root_nodes mn mx w webdir id)) with
    (@nil Edge) in He.
  simpl in Hc, Hr, Hm, Hn, Hw, Ha, Ht, Hhn, Hhe, Hd.
  rewrite <-Hr in Hroots, Ha, Hd. by split_and!.
Qed.

(** The graph [__init__] hands to [add_nodes]: its roots are added and
    declared, and nothing else is. *)
Lemma init_roots cfg fuel c root webdir ident_ s g s' :
  __init__ cfg fuel c root webdir ident_ s = Ok (g, s') →
  ∃ g1 g2,
    add_nodes cfg (S (Z.to_nat (max_nesting g1))) (heap s') g1
      (Graphs.root g1) 1 = Ok g2
    ∧ render cfg g2 = Ok g
    ∧ g_class g1 = c ∧ 1 ≤ max_nodes g1
    ∧ added g1 = set_update [] (Graphs.root g1)
    ∧ truncated g1 = -1 ∧ hop_nodes g1 = [] ∧ hop_edges g1 = []
    ∧ declared g1 = node_ident <$> Graphs.root g1 ∧ drawn g1 = [].
Proof.
  intros (rs & mn & mx & w & g1 & g2 & _ & Hroots & _ & Hmx & _ & Hg2 & Hg
          & Hrest)%init_parts.
  exists g1, g2. do 2 (split; [done|]).
  apply resolve_roots_Ok in Hroots as (_ & _ & _ & Hle).
  destruct Hrest as (? & ?). split; [done|]. split; [lia|done].
Qed.

Lemma same_limits_fields g g' :
  same_limits g g' →
  g_class g' = g_class g ∧ Graphs.root g' = Graphs.root g
  ∧ max_nodes g' = max_nodes g ∧ max_nesting g' = max_nesting g
  ∧ warn g' = warn g.
Proof. done. Qed.

(** X6 (an untruncated graph is complete). In a graph of a class that
    follows relations hop by hop, built without being marked truncated,
    every node [_add_node] would put in the hop of an added node has been
    added: nothing reachable from the roots is missing. *)
Theorem X6_untruncated_complete cfg fuel c root webdir ident_ s g s' :
  __init__ cfg fuel c root webdir ident_ s = Ok (g, s') →
  _should_add_nested_nodes c = true →
  truncated g = -1 →
  ∀ n colour hop m,
    n ∈ added g →
    _add_node c (heap s') [] ([], []) n colour = Ok hop →
    m ∈ hop.1 →
    set_in m (added g) = true.
Proof.
  intros (g1 & g2 & Hg2 & Hg & Hc & _ & Ha1 & _)%init_roots Hnest Ht
    n colour hop m Hn Hhop Hm.
  apply render_Ok in Hg as (_ & Ha & _ & Ht' & _).
  rewrite Ha in *. rewrite Ht' in Ht.
  destruct (add_nodes_complete _ _ _ _ _ _ _ Hg2) as [HF HA];
    [done|lia|by rewrite Hc|]. rewrite Hc in *.
  assert (reaches c (heap s') n m) as Hreach by (by exists colour, hop).
  destruct (HA n Hn) as [Hroot|Hclosed]; [|by apply Hclosed].
  rewrite Ha1 in Hroot. apply set_update_elem in Hroot as [[]%elem_of_nil|?].
  by eapply HF.
Qed.

(** [X6_untruncated_complete] on the uses graph of module [a], which uses
    module [b]. *)
Lemma X6_untruncated_complete_witness :
  ∃ g s',
    __init__ plain 2 UsesGraph [0%nat] EmptyString None (start using_module)
    = Ok (g, s')
    ∧ truncated g = -1
    ∧ ∀ n colour hop m,
        n ∈ added g →
        _add_node UsesGraph (heap s') [] ([], []) n colour = Ok hop →
        m ∈ hop.1 →
        set_in m (added g) = true.
Proof.
  assert (∃ g s',
            __init__ plain 2 UsesGraph [0%nat] EmptyString None
              (start using_module) = Ok (g, s')
            ∧ truncated g = -1) as (g & s' & Hrun & Ht)
    by (eexists _, _; split; vm_compute; reflexivity).
  exists g, s'. do 2 (split; [done|]).
  exact (X6_untruncated_complete _ _ _ _ _ _ _ _ _ Hrun eq_refl Ht).
Defined.

(** X7 (fallback data). A graph holds fallback data, or has more distinct
    roots than [max_nodes] allows, only if its first hop was refused: it is
    then marked truncated at hop 1, holds exactly its roots and has no
    edge, and the hop it keeps would have exceeded the limit. *)
Theorem X7_fallback_first_hop cfg fuel c root webdir ident_ s g s' :
  __init__ cfg fuel c root webdir ident_ s = Ok (g, s') →
  hop_nodes g ≠ [] ∨ hop_edges g ≠ []
  ∨ max_nodes g < len (set_update [] (Graphs.root g)) →
  truncated g = 1
  ∧ added g = set_update [] (Graphs.root g)
  ∧ drawn g = []
  ∧ max_nodes g < len (hop_nodes g) + len (added g).
Proof.
  intros (g1 & g2 & Hg2 & Hg & Hc & _ & Ha1 & _ & Hhn1 & Hhe1 & _ & Hdr1)
    %init_roots Hcase.
  apply render_Ok in Hg as (Hl & Ha & _ & Ht & Hhn & Hhe & Hdot).
  destruct (add_nodes_spec _ _ _ _ _ _ _ Hg2) as (Hl2 & _).
  apply same_limits_fields in Hl as (_ & Hr & Hmx & _).
  apply same_limits_fields in Hl2 as (_ & Hr2 & Hmx2 & _).
  destruct (add_nodes_fallback _ _ _ _ _ _ _ Hg2) as [Hfirst _].
  destruct Hfirst as [(Ht2 & Ha2 & Hd2 & Hover)|(Hhn2 & Hhe2 & Hle)]; [done|..].
  - rewrite Ht, Ha, Hhn, Hmx, Hr, Hr2, Ha2, Hmx2.
    split_and!; [done|done| |done].
    unfold drawn in *. by rewrite Hdot, Hd2.
  - rewrite Hhn, Hhe, Hhn2, Hhe2, Hhn1, Hhe1, Hmx, Hmx2, Hr, Hr2, <-Ha1
      in Hcase.
    destruct Hcase as [?|[?|?]]; [done..|lia].
Qed.

(** [X7_fallback_first_hop] on the uses graph of module [a], which uses
    module [b] and allows one node. *)
Lemma X7_fallback_first_hop_witness :
  ∃ g s',
    __init__ plain 2 UsesGraph [0%nat] EmptyString None
      (start (limited_module 5 1)) = Ok (g, s')
    ∧ length (hop_nodes g) = 1%nat
    ∧ truncated g = 1
    ∧ added g = set_update [] (Graphs.root g)
    ∧ drawn g = []
    ∧ max_nodes g < len (hop_nodes g) + len (added g).
Proof.
  assert (∃ g s',
            __init__ plain 2 UsesGraph [0%nat] EmptyString None
              (start (limited_module 5 1)) = Ok (g, s')
            ∧ length (hop_nodes g) = 1%nat) as (g & s' & Hrun & Hn)
    by (eexists _, _; split; vm_compute; reflexivity).
  exists g, s'. split; [exact Hrun|]. split; [exact Hn|].
  apply (X7_fallback_first_hop _ _ _ _ _ _ _ _ _ Hrun). left.
  intros Hnil. rewrite Hnil in Hn. discriminate Hn.
Defined.

(** X8 (where a graph is truncated). [truncated] is [-1] or the number of a
    hop between 1 and the depth limit (1 when that limit is below 1); for a
    class that does not follow relations beyond the first hop it is [-1] or
    [1]. A graph that is not marked truncated holds no fallback data. *)
Theorem X8_truncated_range cfg fuel c root webdir ident_ s g s' :
  __init__ cfg fuel c root webdir ident_ s = Ok (g, s') →
  (truncated g = -1 ∨ 1 ≤ truncated g ≤ Z.max 1 (max_nesting g))
  ∧ (_should_add_nested_nodes c = false → truncated g = -1 ∨ truncated g = 1)
  ∧ (truncated g = -1 → hop_nodes g = [] ∧ hop_edges g = []).
Proof.
  intros (g1 & g2 & Hg2 & Hg & Hc & _ & Ha1 & Ht1 & Hhn1 & Hhe1 & _)
    %init_roots.
  apply render_Ok in Hg as (Hl & Ha & _ & Ht & Hhn & Hhe & Hdot).
  destruct (add_nodes_spec _ _ _ _ _ _ _ Hg2) as (Hl2 & _).
  apply same_limits_fields in Hl as (_ & _ & _ & Hmn & _).
  apply same_limits_fields in Hl2 as (_ & _ & _ & Hmn2 & _).
  destruct (add_nodes_truncated _ _ _ _ _ _ _ Hg2) as [Hrange Hflat]; [done|].
  destruct (add_nodes_fallback _ _ _ _ _ _ _ Hg2) as [Hfirst _].
  rewrite Ht, Hhn, Hhe, Hmn, Hmn2. rewrite Ht1, Hc in *. split_and!.
  - destruct Hrange; [by left|by right].
  - intros Hno. destruct (Hflat Hno); auto.
  - intros Hminus.
    destruct Hfirst as [(Ht2 & _)|(-> & -> & _)]; [done|lia|done].
Qed.

(** [X8_truncated_range] on the uses graph of module [a], which uses module
    [b] and allows one node. *)
Lemma X8_truncated_range_witness :
  ∃ g s',
    __init__ plain 2 UsesGraph [0%nat] EmptyString None
      (start (limited_module 5 1)) = Ok (g, s')
    ∧ (truncated g = -1 ∨ 1 ≤ truncated g ≤ Z.max 1 (max_nesting g)).
Proof.
  assert (∃ g s',
            __init__ plain 2 UsesGraph [0%nat] EmptyString None
              (start (limited_module 5 1)) = Ok (g, s'))
    as (g & s' & Hrun) by (eexists _, _; vm_compute; reflexivity).
  exists g, s'. split; [done|].
  exact (proj1 (X8_truncated_range _ _ _ _ _ _ _ _ _ Hrun)).
Defined.

(** X9 (the diagram). In the diagram of a graph the declared nodes are
    exactly the added nodes, and every edge joins two declared nodes; with
    [_coloured_edges] off every edge is black. *)
Theorem X9_diagram_well_formed cfg fuel c root webdir ident_ s g s' :
  __init__ cfg fuel c root webdir ident_ s = Ok (g, s') →
  (∀ nm, nm ∈ declared g ↔ nm ∈ node_ident <$> added g)
  ∧ ∀ e, e ∈ drawn g →
      tail_name e ∈ declared g ∧ head_name e ∈ declared g
      ∧ (_coloured_edges cfg = false → color e = "#000000").
Proof.
  intros (g1 & g2 & Hg2 & Hg & Hc & _ & Ha1 & _ & _ & _ & Hd1 & Hdr1)
    %init_roots.
  apply render_Ok in Hg as (_ & Ha & _ & _ & _ & _ & Hdot).
  assert (well_drawn (λ c, ∃ i t, c = rainbowcolour cfg i t) g2) as [Hd He].
  { eapply add_nodes_drawn; [done| |].
    - intros n Hn. rewrite Ha1. by apply set_in_update_r.
    - split; [|by rewrite Hdr1; intros ? ?%elem_of_nil].
      intros nm. rewrite Hd1, Ha1, ids_set_update.
      split; [auto|]. by intros [?%elem_of_nil|?]. }
  unfold declared, drawn in *. rewrite Hdot, Ha. split; [done|].
  intros e (Ht & Hh & i & t & Hcol)%He. split_and!; [done..|].
  intros Hmono. rewrite Hcol. unfold rainbowcolour. by rewrite Hmono.
Qed.

(** [X9_diagram_well_formed] on the uses graph of module [a], which uses
    module [b]. *)
Lemma X9_diagram_well_formed_witness :
  ∃ g s',
    __init__ plain 2 UsesGraph [0%nat] EmptyString None (start using_module)
    = Ok (g, s')
    ∧ declared g = ["module~a"; "module~b"]
    ∧ ∀ e, e ∈ drawn g →
        tail_name e ∈ declared g ∧ head_name e ∈ declared g
        ∧ (_coloured_edges plain = false → color e = "#000000").
Proof.
  assert (∃ g s',
            __init__ plain 2 UsesGraph [0%nat] EmptyString None
              (start using_module) = Ok (g, s')
            ∧ declared g = ["module~a"; "module~b"])
    as (g & s' & Hrun & Hd)
    by (eexists _, _; split; vm_compute; reflexivity).
  exists g, s'. do 2 (split; [done|]).
  exact (proj2 (X9_diagram_well_formed _ _ _ _ _ _ _ _ _ Hrun)).
Defined.

(** ** The roots and the limits *)

Lemma deref_all_fst os : ∀ s rs s', deref_all os s = Ok (rs, s') → rs.*1 = os.
Proof.
  induction os as [|o os IH]; intros s rs s'; simpl.
  - by intros [= <- _].
  - intros (x & s1 & _ & (xs & s2 & Hxs & [= <- _])%bind_Ok)%bind_Ok.
    simpl. f_equal. by eapply IH.
Qed.

(** The root loop: the state it leaves is reached by lookups, each node it
    appends is the registry's node of its root entity, and the limits are
    the running maxima. *)
Lemma resolve_roots_nodes cfg fuel rs : ∀ root mn mx w s root' mn' mx' w' s',
  Forall (λ r, objs s !! r.1 = Some r.2) rs →
  resolve_roots cfg fuel rs (root, mn, mx, w) s
  = Ok (root', mn', mx', w', s') →
  lookups cfg s s'
  ∧ (∃ ns, root' = root ++ ns
         ∧ Forall2 (λ r n, ∀ fuel' hist,
                      get_node cfg (S fuel') (PObj r.1) hist s' = Ok (n, s'))
             rs ns)
  ∧ mn' = foldl (λ a r, Z.max a (graph_maxdepth r.2)) mn rs
  ∧ mx' = foldl (λ a r, Z.max a (graph_maxnodes r.2)) mx rs
  ∧ w' = foldl (λ a r, a || settings_warn r.2) w rs.
Proof.
  induction rs as [|[o r] rs IH]; intros root mn mx w s root' mn' mx' w' s'
    Hrs Hrun.
  - simpl in Hrun. injection Hrun as <- <- <- <- <-.
    split_and!; [apply lookups_refl| |done..].
    exists []. split; [by rewrite app_nil_r|constructor].
  - simpl in Hrun. apply bind_Ok in Hrun as (n & s1 & Hn & Hrest).
    apply Forall_cons in Hrs as [Hr Hrs]. simpl in Hr.
    pose proof (get_node_ext _ _ _ _ _ _ _ Hn) as Hext1.
    apply IH in Hrest as (Hl & (ns & -> & Hns) & -> & -> & ->).
    2:{ eapply Forall_impl; [done|]. intros [o2 r2] ?. by eapply ext_objs. }
    split_and!; [by eapply lookups_get_node| |done..].
    exists (n :: ns). split; [by rewrite <-app_assoc|].
    constructor; [|done]. intros fuel' hist. simpl.
    apply get_node_entry in Hn
      as (o' & x & coll & t & [= <-] & Hx & Hcls & Hentry).
    apply lookups_ext in Hl.
    eapply get_node_hit; [|done|by apply Hl].
    eapply ext_objs; [|done]. by etrans.
Qed.

(** X10 (the roots of a graph). The construction of a graph changes the
    registry by lookups only; the graph has one root node for each root
    entity given, each of them the node the registry holds for one of these
    entities; and every root node is in the added set, whatever the node
    limit. *)
Theorem X10_roots cfg fuel c root webdir ident_ s g s' :
  __init__ cfg fuel c root webdir ident_ s = Ok (g, s') →
  lookups cfg s s'
  ∧ length (Graphs.root g) = length root
  ∧ ∀ n, n ∈ Graphs.root g →
      set_in n (added g) = true
      ∧ ∃ o, o ∈ root
             ∧ ∀ fuel' hist,
                 get_node cfg (S fuel') (PObj o) hist s' = Ok (n, s').
Proof.
  intros (rs & mn & mx & w & g1 & g2 & Hrs & Hroots & _ & _ & _ & Hg2 & Hg
          & _ & Ha1 & _)%init_parts.
  pose proof (deref_all_fst _ _ _ _ Hrs) as Hfst.
  apply deref_all_Ok in Hrs as [_ Hrs].
  apply resolve_roots_nodes in Hroots as (Hl & (ns & Hns & Hget) & _).
  2:{ unfold entity_lt. by rewrite sorted_by_perm. }
  simpl in Hns.
  apply render_Ok in Hg as ((_ & Hr & _) & Ha & _).
  destruct (add_nodes_spec _ _ _ _ _ _ _ Hg2) as ((_ & Hr2 & _) & _).
  rewrite Hr, Hr2, Ha. split; [done|]. split.
  - rewrite Hns, <-(Forall2_length _ _ _ Hget), <-Hfst, length_fmap.
    unfold entity_lt. by rewrite sorted_by_perm.
  - intros n Hn. split.
    + eapply add_nodes_mono; [done|]. rewrite Ha1. by apply set_in_update_r.
    + rewrite Hns in Hn. apply list_elem_of_lookup_1 in Hn as [i Hi].
      destruct (Forall2_lookup_r _ _ _ _ _ Hget Hi) as (r & Hr' & Hrn).
      exists r.1. split; [|done].
      rewrite <-Hfst. apply list_elem_of_fmap_2.
      apply list_elem_of_lookup_2 in Hr'. revert Hr'. unfold entity_lt.
      by rewrite sorted_by_perm.
Qed.

(** [X10_roots] on the uses graph of module [a], which uses module [b] and
    allows one node. *)
Lemma X10_roots_witness :
  ∃ g s',
    __init__ plain 2 UsesGraph [0%nat] EmptyString None
      (start (limited_module 5 1)) = Ok (g, s')
    ∧ lookups plain (start (limited_module 5 1)) s'
    ∧ length (Graphs.root g) = 1%nat.
Proof.
  assert (∃ g s',
            __init__ plain 2 UsesGraph [0%nat] EmptyString None
              (start (limited_module 5 1)) = Ok (g, s'))
    as (g & s' & Hrun) by (eexists _, _; vm_compute; reflexivity).
  exists g, s'. split; [exact Hrun|].
  destruct (X10_roots _ _ _ _ _ _ _ _ _ Hrun) as (Hl & Hlen & _).
  split; [exact Hl|exact Hlen].
Defined.

Lemma foldl_max_spec {A} (f : A → Z) l : ∀ a,
  let m := foldl (λ a r, Z.max a (f r)) a l in
  a ≤ m ∧ (∀ r, r ∈ l → f r ≤ m) ∧ (m = a ∨ ∃ r, r ∈ l ∧ m = f r).
Proof.
  induction l as [|x l IH]; intros a; simpl.
  - split_and!; [lia|by intros ? ?%elem_of_nil|by left].
  - destruct (IH (Z.max a (f x))) as (Hle & Hall & Hcase). split_and!.
    + lia.
    + intros r [->|Hr]%elem_of_cons; [lia|by apply Hall].
    + destruct Hcase as [Heq|(r & Hr & Heq)].
      * destruct (Z.max_spec a (f x)) as [[_ Hm]|[_ Hm]];
          [right; exists x; split; [by left|lia]|left; lia].
      * right. exists r. split; [by right|done].
Qed.

Lemma foldl_orb_spec {A} (f : A → bool) l : ∀ a,
  foldl (λ a r, a || f r) a l = true ↔ a = true ∨ ∃ r, r ∈ l ∧ f r = true.
Proof.
  induction l as [|x l IH]; intros a; simpl.
  - split; [auto|]. by intros [?|(? & ?%elem_of_nil & _)].
  - rewrite IH, orb_true_iff. split.
    + intros [[?|?]|(r & Hr & ?)]; [by left|right..].
      * exists x. split; [by left|done].
      * exists r. split; [by right|done].
    + intros [?|(r & [->|Hr]%elem_of_cons & ?)]; [auto..|].
      right. by exists r.
Qed.

(** X11 (the limits of a graph). The depth limit of a graph is the largest
    [graph_maxdepth] among its root entities and at least 0, its node limit
    the largest [graph_maxnodes] and at least 1, and it warns exactly when
    one of the root entities has [warn] set: neither depends on the order of
    the roots. *)
Theorem X11_limits cfg fuel c root webdir ident_ s g s' :
  __init__ cfg fuel c root webdir ident_ s = Ok (g, s') →
  0 ≤ max_nesting g ∧ 1 ≤ max_nodes g
  ∧ (∀ o x, o ∈ root → objs s !! o = Some x →
       graph_maxdepth x ≤ max_nesting g ∧ graph_maxnodes x ≤ max_nodes g
       ∧ (settings_warn x = true → warn g = true))
  ∧ (max_nesting g = 0
     ∨ ∃ o x, o ∈ root ∧ objs s !! o = Some x
              ∧ max_nesting g = graph_maxdepth x)
  ∧ (max_nodes g = 1
     ∨ ∃ o x, o ∈ root ∧ objs s !! o = Some x
              ∧ max_nodes g = graph_maxnodes x)
  ∧ (warn g = true →
     ∃ o x, o ∈ root ∧ objs s !! o = Some x ∧ settings_warn x = true).
Proof.
  intros (rs & mn & mx & w & g1 & g2 & Hrs & Hroots & Hmn1 & Hmx1 & Hw1 & Hg2
          & Hg & _)%init_parts.
  pose proof (deref_all_fst _ _ _ _ Hrs) as Hfst.
  apply deref_all_Ok in Hrs as [_ Hrs].
  apply resolve_roots_nodes in Hroots as (_ & _ & Hmn & Hmx & Hw).
  2:{ unfold entity_lt. by rewrite sorted_by_perm. }
  apply render_Ok in Hg as ((_ & _ & Hx & Hn & Hwarn) & _).
  destruct (add_nodes_spec _ _ _ _ _ _ _ Hg2)
    as ((_ & _ & Hx2 & Hn2 & Hwarn2) & _).
  rewrite Hn, Hn2, Hmn1, Hx, Hx2, Hmx1, Hwarn, Hwarn2, Hw1. clear g g1 g2
    Hmn1 Hmx1 Hw1 Hg2 Hx Hn Hwarn Hx2 Hn2 Hwarn2.
  assert (∀ r, r ∈ sorted_by entity_lt rs ↔ r ∈ rs) as Hperm.
  { intros r. unfold entity_lt. by rewrite sorted_by_perm. }
  assert (∀ r, r ∈ rs → r.1 ∈ root ∧ objs s !! r.1 = Some r.2) as Hin.
  { intros r Hr. split; [rewrite <-Hfst; by apply list_elem_of_fmap_2|].
    by eapply Forall_forall in Hrs. }
  assert (∀ o x, o ∈ root → objs s !! o = Some x → (o, x) ∈ rs) as Hout.
  { intros o x Ho Hx. rewrite <-Hfst in Ho.
    apply list_elem_of_fmap in Ho as ([o' x'] & -> & Hr).
    destruct (Hin _ Hr) as [_ Hx']. simpl in *. congruence. }
  destruct (foldl_max_spec (λ r : nat * FortranObj, graph_maxdepth r.2)
              (sorted_by entity_lt rs) 0) as (Hn0 & Hnall & Hncase).
  destruct (foldl_max_spec (λ r : nat * FortranObj, graph_maxnodes r.2)
              (sorted_by entity_lt rs) 1) as (Hx0 & Hxall & Hxcase).
  pose proof (foldl_orb_spec (λ r : nat * FortranObj, settings_warn r.2)
                (sorted_by entity_lt rs) false) as Hwiff.
  simpl in *. rewrite <-Hmn in *. rewrite <-Hmx in *. rewrite <-Hw in *.
  split_and!; [done|done| | | |].
  - intros o x Ho Hx. apply (Hout o x Ho), Hperm in Hx as Hr. split_and!.
    + by apply (Hnall _ Hr).
    + by apply (Hxall _ Hr).
    + intros Hsw. apply Hwiff. right. by exists (o, x).
  - destruct Hncase as [?|(r & Hr%Hperm & ?)]; [by left|right].
    destruct (Hin _ Hr). by exists r.1, r.2.
  - destruct Hxcase as [?|(r & Hr%Hperm & ?)]; [by left|right].
    destruct (Hin _ Hr). by exists r.1, r.2.
  - intros [?|(r & Hr%Hperm & ?)]%Hwiff; [done|].
    destruct (Hin _ Hr). by exists r.1, r.2.
Qed.

(** [X11_limits] on the uses graph of module [a], which uses module [b] and
    allows five hops and one node. *)
Lemma X11_limits_witness :
  ∃ g s',
    __init__ plain 2 UsesGraph [0%nat] EmptyString None
      (start (limited_module 5 1)) = Ok (g, s')
    ∧ 0 ≤ max_nesting g ∧ 1 ≤ max_nodes g.
Proof.
  assert (∃ g s',
            __init__ plain 2 UsesGraph [0%nat] EmptyString None
              (start (limited_module 5 1)) = Ok (g, s'))
    as (g & s' & Hrun) by (eexists _, _; vm_compute; reflexivity).
  exists g, s'. split; [exact Hrun|].
  destruct (X11_limits _ _ _ _ _ _ _ _ _ Hrun) as (H0 & H1 & _).
  split; [exact H0|exact H1].
Defined.

(** ** The string of a graph without table *)

(** X12 (the string of a graph). A graph that has no table to show (no
    fallback data, or not exactly one root) always gets a string: [__str__]
    does not raise. It emits at most one warning, and none unless [warn] is
    set. The string is empty exactly when at most one node was added, or
    when [warn] is set and the added nodes exceed [max_nodes] or are fewer
    than the roots; and [__bool__] is true exactly when the string is not
    empty. *)
Theorem X12_str_without_table cfg h g :
  hop_nodes g = [] ∨ length (Graphs.root g) ≠ 1%nat →
  ∃ ws text,
    __str__ cfg h g = Ok (ws, text)
    ∧ (length ws ≤ 1)%nat
    ∧ (warn g = false → ws = [])
    ∧ (text = EmptyString ↔
       len (added g) ≤ 1
       ∨ (warn g = true
          ∧ (max_nodes g < len (added g)
             ∨ len (added g) < len (Graphs.root g))))
    ∧ __bool__ cfg h g = Ok (negb (String.eqb text EmptyString)).
Proof.
  intros Htab. unfold __bool__, __str__.
  assert ((len (hop_nodes g) >? 0) && (len (Graphs.root g) =? 1) = false)
    as ->.
  { destruct Htab as [->|Hr]; [done|]. apply andb_false_iff. right.
    apply Z.eqb_neq. unfold len. lia. }
  cbn [negb andb]. rewrite andb_true_r.
  destruct (Z.leb_spec (len (added g)) 1) as [Hle|Hgt].
  { eexists _, _. split; [done|]. simpl. split_and!; [lia|done| |done].
    split; [by left|done]. }
  destruct (warn g) eqn:Hw; rewrite ?andb_true_r, ?andb_false_r.
  - destruct (Z.gtb_spec (len (added g)) (max_nodes g)) as [Hover|Hfits].
    { eexists _, _. split; [done|]. simpl. split_and!; [lia|done| |done].
      split; [right; auto|done]. }
    destruct (Z.ltb_spec (len (added g)) (len (Graphs.root g))) as [Hinc|Hall].
    { eexists _, _. split; [done|]. simpl. split_and!; [lia|done| |done].
      split; [right; auto|done]. }
    eexists _, _. split; [done|]. split_and!.
    + destruct (truncated g >? 0); simpl; lia.
    + done.
    + split; [done|]. intros [?|(_ & [?|?])]; lia.
    + done.
  - eexists _, _. split; [done|]. split_and!; [simpl; lia|done| |done].
    split; [done|]. intros [?|(? & _)]; [lia|done].
Qed.

(** [X12_str_without_table] on a graph without roots that holds two nodes
    against a limit of one, with [warn] set: one warning and no text. *)
Lemma X12_str_without_table_witness :
  ∃ ws,
    __str__ plain []
      (set_added
         (set_hop (new_graph ModuleGraph [] 0 1 true EmptyString "m") [] [])
         [{| addr := 0; node_ident := "a"; node_type := ModNode |};
          {| addr := 1; node_ident := "b"; node_type := ModNode |}])
    = Ok (ws, EmptyString)
    ∧ length ws = 1%nat.
Proof.
  destruct (X12_str_without_table plain []
              (set_added
                 (set_hop (new_graph ModuleGraph [] 0 1 true EmptyString "m")
                    [] [])
                 [{| addr := 0; node_ident := "a"; node_type := ModNode |};
                  {| addr := 1; node_ident := "b"; node_type := ModNode |}]))
    as (ws & text & Hrun & _); [by left|].
  vm_compute in Hrun. injection Hrun as <- <-. by eexists.
Defined.

Lemma str_no_table_returns cfg h g :
  hop_nodes g = [] ∨ length (Graphs.root g) ≠ 1%nat →
  ∃ ws text, __str__ cfg h g = Ok (ws, text).
Proof.
  intros Htab. unfold __str__.
  assert ((len (hop_nodes g) >? 0) && (len (Graphs.root g) =? 1) = false)
    as ->.
  { destruct Htab as [->|Hr]; [done|]. apply andb_false_iff. right.
    apply Z.eqb_neq. unfold len. lia. }
  repeat case_match; eauto.
Qed.

(** A graph that holds fallback nodes has added its roots only, and its
    node limit is at least one. *)
Lemma init_fallback_added cfg fuel c root webdir ident_ s g s' :
  __init__ cfg fuel c root webdir ident_ s = Ok (g, s') →
  1 ≤ max_nodes g
  ∧ (hop_nodes g ≠ [] → added g = set_update [] (Graphs.root g)).
Proof.
  intros (g1 & g2 & Hg2 & Hg & Hc & Hmx1 & Ha1 & _ & Hhn1 & _)%init_roots.
  apply render_Ok in Hg as (Hl & Ha & _ & _ & Hhn & _).
  destruct (add_nodes_spec _ _ _ _ _ _ _ Hg2) as (Hl2 & _).
  apply same_limits_fields in Hl as (_ & Hr & Hmx & _).
  apply same_limits_fields in Hl2 as (_ & Hr2 & Hmx2 & _).
  split; [lia|]. intros Hne.
  destruct (add_nodes_fallback _ _ _ _ _ _ _ Hg2) as [Hfirst _].
  destruct Hfirst as [(_ & Ha2 & _)|(Hhn2 & _)]; [done|congruence|congruence].
Qed.

(** X14 (when the string of a graph fails). For a graph as [__init__]
    returns it, [__str__] raises exactly when the graph holds fallback data
    and has a single root, that is, exactly when it comes to the table: in
    every other case it returns, and [__bool__] does as [__str__] does. *)
Theorem X14_str_raises_iff cfg fuel c root webdir ident_ s g s' h :
  __init__ cfg fuel c root webdir ident_ s = Ok (g, s') →
  ((∃ e, __str__ cfg h g = Raise e)
   ↔ hop_nodes g ≠ [] ∧ length (Graphs.root g) = 1%nat)
  ∧ ((∃ e, __bool__ cfg h g = Raise e)
     ↔ hop_nodes g ≠ [] ∧ length (Graphs.root g) = 1%nat).
Proof.
  intros Hinit.
  assert (hop_nodes g ≠ [] ∧ length (Graphs.root g) = 1%nat →
          ∃ e, __str__ cfg h g = Raise e) as Hraise.
  { intros [Hhn Hone].
    destruct (init_fallback_added _ _ _ _ _ _ _ _ _ Hinit) as [Hmx Ha].
    assert (len (added g) = 1) as Hlen.
    { rewrite (Ha Hhn). destruct (Graphs.root g) as [|r [|??]]; done. }
    unfold __str__. rewrite Hlen.
    assert ((len (hop_nodes g) >? 0) = true) as ->.
    { destruct (hop_nodes g); [done|]. apply Z.gtb_lt. unfold len. simpl. lia. }
    assert ((len (Graphs.root g) =? 1) = true) as ->.
    { unfold len. by rewrite Hone. }
    assert ((1 >? max_nodes g) = false) as ->.
    { destruct (Z.gtb_spec 1 (max_nodes g)); [lia|done]. }
    cbn [negb andb Z.leb Z.ltb Z.compare Pos.compare Pos.compare_cont].
    assert ((1 <? len (Graphs.root g)) = false) as ->.
    { unfold len. by rewrite Hone. }
    cbn [andb]. destruct (table_raises h g) as [e ->]. by exists e. }
  assert (¬ (hop_nodes g ≠ [] ∧ length (Graphs.root g) = 1%nat) →
          ∃ ws text, __str__ cfg h g = Ok (ws, text)) as Hok.
  { intros Hno.
    apply str_no_table_returns.
    destruct (hop_nodes g); [by left|right]. intros ?. by apply Hno. }
  assert ((∃ e, __str__ cfg h g = Raise e)
          ↔ hop_nodes g ≠ [] ∧ length (Graphs.root g) = 1%nat) as Hiff.
  { split; [|done]. intros [e He].
    destruct (decide (hop_nodes g = [])) as [Hnil|Hne].
    - destruct Hok as (ws & text & Hrun); [by intros [? _]|congruence].
    - split; [done|].
      destruct (decide (length (Graphs.root g) = 1%nat)) as [|Hn]; [done|].
      destruct Hok as (ws & text & Hrun); [by intros [_ ?]|congruence]. }
  split; [done|]. rewrite <-Hiff. unfold __bool__. split.
  - intros [e He]. destruct (__str__ cfg h g) as [[ws text]|e'|]; [done| |done].
    by exists e'.
  - intros [e ->]. by exists e.
Qed.

(** [X14_str_raises_iff] on the uses graph of module [a], which uses module
    [b] and allows one node. *)
Lemma X14_str_raises_iff_witness :
  ∃ g s' e,
    __init__ plain 2 UsesGraph [0%nat] EmptyString None
      (start (limited_module 5 1)) = Ok (g, s')
    ∧ __str__ plain (heap s') g = Raise e.
Proof.
  assert (∃ g s',
            __init__ plain 2 UsesGraph [0%nat] EmptyString None
              (start (limited_module 5 1)) = Ok (g, s')
            ∧ length (hop_nodes g) = 1%nat
            ∧ length (Graphs.root g) = 1%nat)
    as (g & s' & Hrun & Hn & Hr)
    by (eexists _, _; split_and!; vm_compute; reflexivity).
  destruct (proj2 (proj1 (X14_str_raises_iff _ _ _ _ _ _ _ _ _ (heap s') Hrun)))
    as [e He].
  { split; [|exact Hr]. intros Hnil. rewrite Hnil in Hn. discriminate Hn. }
  exists g, s', e. split; [exact Hrun|exact He].
Defined.

(** ** The name of a graph *)

#[export] Instance same_names_refl : Reflexive same_names.
Proof. by intros g. Qed.

#[export] Instance same_names_trans : Transitive same_names.
Proof.
  intros g1 g2 g3 (? & ? & ? & ? & ?) (? & ? & ? & ? & ?).
  split_and!; congruence.
Qed.

Lemma dot_add_names g stmts : same_names g (dot_add g stmts).
Proof. by destruct g. Qed.

Lemma add_to_graph_names h g nodes edges nesting g' extended :
  add_to_graph h g nodes edges nesting = Ok (g', extended) → same_names g g'.
Proof.
  unfold add_to_graph.
  destruct (len nodes + len (added g) >? max_nodes g).
  - intros [= <- _]. destruct (nesting <? 2); by destruct g.
  - intros (stmts & _ & [= <- _])%rbind_Ok. by destruct g.
Qed.

Lemma extra_attributes_names g : same_names g (_extra_attributes g).
Proof.
  unfold _extra_attributes. destruct (g_class g);
    (reflexivity || apply dot_add_names).
Qed.

Lemma add_nodes_names cfg h fuel g F nesting g' :
  add_nodes cfg fuel h g F nesting = Ok g' → same_names g g'.
Proof.
  revert fuel g F nesting g'.
  apply (add_nodes_hops cfg h (λ g F nesting g', same_names g g')); cbv beta.
  - intros g F nesting hn he g1 _ Hadd. by eapply add_to_graph_names.
  - intros g F nesting hn he g1 _ Hadd _.
    etrans; [by eapply add_to_graph_names|apply extra_attributes_names].
  - intros g F nesting hn he g1 g' fuel _ Hadd _ _ _ _ IH.
    etrans; [by eapply add_to_graph_names|].
    etrans; [apply extra_attributes_names|done].
  - intros g F nesting hn he g1 _ Hadd _ _ _.
    etrans; [by eapply add_to_graph_names|].
    etrans; [apply extra_attributes_names|]. by destruct (_extra_attributes g1).
Qed.

Lemma add_roots_names h g g1 : add_roots h g = Ok g1 → same_names g g1.
Proof.
  unfold add_roots. intros (stmts & _ & [= <-])%rbind_Ok.
  destruct g. by split_and!.
Qed.

Lemma render_names cfg g g' : render cfg g = Ok g' → same_names g g'.
Proof.
  unfold render. repeat case_match; try done; intros [= <-];
    destruct g; by split_and!.
Qed.

(** X15 (the name of a graph). A graph is named after the ident it was
    given or, when none or an empty one was given, after the directory and
    ident of the first root as given (not as sorted), followed by the name
    of its class; the image file and the diagram carry the same name. A
    graph without roots that is given no ident cannot be built: [__init__]
    raises [IndexError]. *)
Theorem X15_graph_name cfg fuel c root webdir_ ident_ s :
  (∀ g s',
     __init__ cfg fuel c root webdir_ ident_ s = Ok (g, s') →
     g_class g = c ∧ webdir g = webdir_ ∧ imgfile g = g_ident g
     ∧ dot_name (dot g) = g_ident g ∧ dot_rankdir (dot g) = RANKDIR c
     ∧ ∃ base,
         g_ident g = base +:+ "~~" +:+ graph_class_name c
         ∧ (∀ i, ident_ = Some i → i ≠ EmptyString → base = i)
         ∧ (ident_ = None ∨ ident_ = Some EmptyString →
            ∃ o x rest,
              root = o :: rest ∧ objs s !! o = Some x
              ∧ base = str_opt (get_dir x) +:+ "~~" +:+ ident x))
  ∧ (root = [] → ident_ = None ∨ ident_ = Some EmptyString →
     __init__ cfg fuel c root webdir_ ident_ s = Raise IndexError).
Proof.
  split.
  - intros g s' (rs & root_nodes & mn & mx & w & id & g1 & g2
                 & Hrs & _ & Hid & Hg1 & Hg2 & Hg)%init_Ok.
    pose proof (deref_all_fst _ _ _ _ Hrs) as Hfst.
    apply deref_all_Ok in Hrs as [_ Hrs].
    assert (same_names (new_graph c root_nodes mn mx w webdir_ id) g
            ∧ g_class g = c) as [(Hi & Him & Hw & Hdn & Hdr) Hc].
    { apply add_roots_Ok in Hg1 as Hl1. destruct Hl1 as ((Hc1 & _) & _).
      destruct (add_nodes_spec _ _ _ _ _ _ _ Hg2) as ((Hc2 & _) & _).
      apply render_Ok in Hg as Hl3. destruct Hl3 as ((Hc3 & _) & _).
      split; [|by rewrite Hc3, Hc2, Hc1].
      etrans; [by eapply add_roots_names|].
      etrans; [by eapply add_nodes_names|by eapply render_names]. }
    simpl in Hi, Him, Hw, Hdn, Hdr. rewrite Hi, Him, Hw, Hdn, Hdr.
    split_and!; [done..|]. exists id. split; [done|]. unfold graph_ident in Hid.
    split.
    + intros i -> Hne. apply String.eqb_neq in Hne. rewrite Hne in Hid.
      by injection Hid.
    + intros Hnone.
      assert (match rs with
              | (_, r0) :: _ => Ok (str_opt (get_dir r0) +:+ "~~" +:+ ident r0)
              | [] => Raise IndexError
              end = Ok id) as Hid'.
      { destruct Hnone as [-> | ->]; [done|]. by rewrite String.eqb_refl in Hid. }
      destruct rs as [|[o x] rs]; [done|]. injection Hid' as <-.
      apply Forall_cons in Hrs as [Hx _]. simpl in Hfst.
      exists o, x, rs.*1. by split_and!.
  - intros -> [-> | ->]; reflexivity.
Qed.

(** [X15_graph_name] on the uses graph of a module built without an ident:
    image file and diagram carry the name of the graph, which ends in the
    name of the class. *)
Lemma X15_graph_name_witness :
  ∃ g s',
    __init__ plain 2 UsesGraph [0%nat] EmptyString None (start using_module)
    = Ok (g, s')
    ∧ imgfile g = g_ident g ∧ dot_name (dot g) = g_ident g
    ∧ ∃ base, g_ident g = base +:+ "~~" +:+ graph_class_name UsesGraph.
Proof.
  assert (∃ g s',
            __init__ plain 2 UsesGraph [0%nat] EmptyString None
              (start using_module) = Ok (g, s'))
    as (g & s' & Hrun) by (eexists _, _; vm_compute; reflexivity).
  exists g, s'. split; [exact Hrun|].
  destruct (proj1 (X15_graph_name plain 2 UsesGraph [0%nat] EmptyString None
                     (start using_module)) g s' Hrun)
    as (_ & _ & Him & Hdn & _ & base & Hbase & _).
  split; [exact Him|]. split; [exact Hdn|]. exists base. exact Hbase.
Defined.

(** ** The construction ends *)

Lemma bind_Diverge_inv {A B} (m : M A) (k : A → M B) s :
  (m ≫= k) s = Diverge →
  m s = Diverge ∨ ∃ a s', m s = Ok (a, s') ∧ k a s' = Diverge.
Proof.
  unfold mbind, M_bind. destruct (m s) as [[a s']|e|]; intros H.
  - right. eauto.
  - discriminate H.
  - by left.
Qed.

Lemma resolve_roots_diverges cfg fuel rs : ∀ acc s,
  resolve_roots cfg fuel rs acc s = Diverge →
  ∃ r s0, r ∈ rs ∧ lookups cfg s s0
          ∧ get_node cfg fuel (PObj r.1) None s0 = Diverge.
Proof.
  induction rs as [|[o r] rs IH]; intros [[[root mn] mx] w] s; [done|].
  simpl. intros [Hn|(n & s1 & Hn & Hrest)]%bind_Diverge_inv.
  - exists (o, r), s. split_and!; [by left|apply lookups_refl|done].
  - apply IH in Hrest as (r' & s0 & Hr' & Hl & Hdiv).
    exists r', s0. split_and!; [by right| |done].
    by eapply lookups_get_node.
Qed.

(** X13 (the construction ends). The hops of a graph always end: with the
    fuel [__init__] gives it, [add_nodes] returns or raises, whatever the
    graph and the nodes. So the construction of a graph fails to return only
    if the lookup of one of its roots does. *)
Theorem X13_construction_ends cfg fuel c root webdir ident_ s :
  __init__ cfg fuel c root webdir ident_ s = Diverge →
  (∀ h g nodes,
     add_nodes cfg (S (Z.to_nat (max_nesting g))) h g nodes 1 ≠ Diverge)
  ∧ ∃ o s0, o ∈ root ∧ lookups cfg s s0
            ∧ get_node cfg fuel (PObj o) None s0 = Diverge.
Proof.
  intros (rs & Hrs & Hdiv)%init_diverges. split.
  - intros h g nodes. apply add_nodes_returns. lia.
  - pose proof (deref_all_fst _ _ _ _ Hrs) as Hfst.
    apply resolve_roots_diverges in Hdiv as (r & s0 & Hr & Hl & Hdiv).
    exists r.1, s0. split_and!; [|done..].
    rewrite <-Hfst. apply list_elem_of_fmap_2. revert Hr. unfold entity_lt.
    by rewrite sorted_by_perm.
Qed.

(** [X13_construction_ends] on two modules that use each other. *)
Lemma X13_construction_ends_witness :
  ∃ o s0,
    __init__ plain 2 UsesGraph [0%nat] EmptyString None (start mutual_modules)
    = Diverge
    ∧ o ∈ [0%nat]
    ∧ get_node plain 2 (PObj o) None s0 = Diverge.
Proof.
  assert (__init__ plain 2 UsesGraph [0%nat] EmptyString None
            (start mutual_modules) = Diverge) as Hrun
    by (vm_compute; reflexivity).
  destruct (X13_construction_ends _ _ _ _ _ _ _ Hrun)
    as (_ & o & s0 & Ho & _ & Hdiv).
  exists o, s0. split; [exact Hrun|]. split; [exact Ho|exact Hdiv].
Defined.

End GraphInvariants.

(** * The registry and values it does not know *)

Module RegistryClaims.
Import RegistryFacts RegistryInvariants.

(** C5 as the specification words it fails in two ways. For plain strings:
    the lookup of a string returns no node at all, and the program that
    names the module "mpi" twice by a string leaves two node instances with
    that display name in the registry, one per placeholder object. And for
    one entity object: the lookup of a type whose [extends] is the type
    itself makes two [TypeNode]s for it, of which the lookup returns the
    first, while the nested lookup has returned the second, which the first
    holds as its [ancestor]. *)
Lemma C5_counterexample :
  (∀ fuel, ¬ ∃ r s',
     get_node plain fuel (PStr "mpi") None (start string_program) = Ok (r, s'))
  ∧ (∃ r s' r1 r2,
       get_node plain 3 (PObj 0%nat) None (start string_program) = Ok (r, s')
       ∧ gd_modules (data s') !! 1%nat = Some r1
       ∧ gd_modules (data s') !! 2%nat = Some r2
       ∧ node_ident r1 = "mpi" ∧ node_ident r2 = "mpi"
       ∧ addr r1 ≠ addr r2)
  ∧ ∃ r s' n0 n1,
      get_node plain 2 (PObj 0%nat) None (start self_extending_type)
      = Ok (r, s')
      ∧ length (objs s') = 1%nat
      ∧ heap s' = [n0; n1]
      ∧ n_class n0 = TypeNode ∧ n_class n1 = TypeNode
      ∧ n_dict n0 !! "ident" = Some (AStr "type~t")
      ∧ n_dict n1 !! "ident" = Some (AStr "type~t")
      ∧ addr r = 0%nat
      ∧ gd_types (data s') !! 0%nat = Some r
      ∧ n_dict n0 !! "ancestor"
        = Some (ANode {| addr := 1; node_ident := "type~t";
                         node_type := TypeNode |}).
Proof.
  split; [|split].
  - intros [|fuel] (r & s' & H); by vm_compute in H.
  - eexists _, _, _, _. split; [vm_compute; reflexivity|].
    split; [vm_compute; reflexivity|]. split; [vm_compute; reflexivity|].
    by vm_compute.
  - eexists _, _, _, _. split; [vm_compute; reflexivity|].
    split; [vm_compute; reflexivity|]. split; [vm_compute; reflexivity|].
    by vm_compute.
Qed.

(** C9 (unrecognised kinds), as the code has it. For a value whose class is
    none of the seven recognised kinds, the classifier raises [BadType], and
    so do [register] and [get_node], in every state: the error reaches the
    caller. For a value of a recognised kind the classifier returns its
    dictionary and node class, and once the entity is registered neither
    [register] nor [get_node] raises anything: both return and change
    nothing. And [BadType] is raised for nothing else: whenever a lookup or
    a registration ends in [BadType], the message names a class that is not
    recognised. *)
Theorem C9_bad_type cfg obj s c fuel hist :
  type_of obj s = Ok (c, s) →
  (recognised c = false →
     _get_collection_and_node_type obj s
       = Raise (BadType (bad_type_message c))
     ∧ register cfg fuel obj hist s = Raise (BadType (bad_type_message c))
     ∧ get_node cfg (S fuel) obj hist s
       = Raise (BadType (bad_type_message c)))
  ∧ (recognised c = true →
     (∃ o coll t, _get_collection_and_node_type obj s = Ok (o, coll, t, s))
     ∧ ∀ o coll t r,
         _get_collection_and_node_type obj s = Ok (o, coll, t, s) →
         collection coll (data s) !! o = Some r →
         register cfg fuel obj hist s = Ok ((), s)
         ∧ get_node cfg (S fuel) obj hist s = Ok (r, s))
  ∧ (∀ fuel' obj' hist' s' msg,
       get_node cfg fuel' obj' hist' s' = Raise (BadType msg)
       ∨ register cfg fuel' obj' hist' s' = Raise (BadType msg) →
       ∃ c', msg = bad_type_message c' ∧ recognised c' = false).
Proof.
  intros Ht. split; [|split].
  - intros Hc%recognised_false.
    assert (_get_collection_and_node_type obj s
            = Raise (BadType (bad_type_message c))) as Hcl.
    { unfold _get_collection_and_node_type.
      rewrite (bind_run _ _ _ _ _ Ht). apply bind_Raise.
      unfold lift. by rewrite Hc. }
    split; [done|]. split.
    + unfold register, register_with. by apply bind_Raise.
    + simpl. unfold get_node_with. by apply bind_Raise.
  - intros (coll & t & Hc)%recognised_true.
    apply type_of_Ok in Ht as [_ Hobj].
    destruct obj as [| | |o]; try (subst c; by vm_compute in Hc).
    destruct Hobj as (x & Hx & ->). split.
    + exists o, coll, t. apply classify_Ok. eauto.
    + intros o' coll' t' r (_ & [= <-] & x' & Hx' & Hcls)%classify_Ok Hr.
      split; [by eapply register_with_hit|by eapply get_node_hit].
  - intros fuel' obj' hist' s' msg [Hr|Hr].
    + pose proof (sound_get_node cfg fuel' obj' hist' s') as Hs.
      rewrite Hr in Hs. destruct (Hs msg eq_refl) as (c' & -> & Hu).
      exists c'. split; [done|]. by apply unrecognised_false.
    + pose proof (sound_register cfg fuel' obj' hist' s') as Hs.
      rewrite Hr in Hs. destruct (Hs msg eq_refl) as (c' & -> & Hu).
      exists c'. split; [done|]. by apply unrecognised_false.
Qed.

(** [C9_bad_type] on an entity of class [FortranVariable], whose lookup
    raises [BadType], and on a module, which the classifier accepts. *)
Lemma C9_bad_type_witness :
  (type_of (PObj 0%nat) (start a_variable)
   = Ok (OtherClass "FortranVariable", start a_variable)
   ∧ recognised (OtherClass "FortranVariable") = false
   ∧ get_node plain 1 (PObj 0%nat) None (start a_variable)
     = Raise (BadType (bad_type_message (OtherClass "FortranVariable")))
   ∧ ∃ c',
       bad_type_message (OtherClass "FortranVariable") = bad_type_message c'
       ∧ recognised c' = false)
  ∧ type_of (PObj 0%nat) (start mutual_modules)
    = Ok (FortranModule, start mutual_modules)
  ∧ recognised FortranModule = true
  ∧ ∃ o coll t,
      _get_collection_and_node_type (PObj 0%nat) (start mutual_modules)
      = Ok (o, coll, t, start mutual_modules).
Proof.
  pose proof (C9_bad_type plain (PObj 0%nat) (start a_variable)
                (OtherClass "FortranVariable") 0 None eq_refl)
    as (Hbad & _ & Honly).
  pose proof (C9_bad_type plain (PObj 0%nat) (start mutual_modules)
                FortranModule 0 None eq_refl) as (_ & Hgood & _).
  destruct (Hbad eq_refl) as (_ & _ & Hraise).
  split; [|split; [reflexivity|split; [reflexivity|exact (proj1 (Hgood eq_refl))]]].
  do 2 (split; [reflexivity|]). split; [exact Hraise|].
  exact (Honly _ _ _ _ _ (or_introl Hraise)).
Defined.

(** C9 as the specification words it fails for an entity of a recognised
    kind that relates to a value of another class: the lookup of a module
    whose [uses] holds the plain string "iso_c_binding" raises [BadType],
    for the class [str]. *)
Lemma C9_counterexample :
  ¬ ∀ cfg obj s c fuel hist msg,
      type_of obj s = Ok (c, s) → recognised c = true →
      get_node cfg fuel obj hist s ≠ Raise (BadType msg).
Proof.
  intros H.
  apply (H plain (PObj 0%nat) (start string_user) FortranModule 2%nat None
           (bad_type_message PyStr)); reflexivity.
Qed.

End RegistryClaims.

(** * The hops of a graph *)

Module GraphClaims.
Import RegistryFacts GraphFacts GraphInvariants.

(** ** The depth limit *)

(** What [add_nodes] admits, called for hop [nesting]: the hops it admits
    are numbered from [nesting] on without a gap; when it admits none it has
    marked the graph truncated at [nesting]; for a class that follows
    relations hop by hop, an admitted hop with nodes whose number has reached
    the depth limit is where the graph is marked truncated; and the nodes
    of the admitted hops are what has been added. *)
Lemma add_nodes_admitted cfg h fuel g F nesting g' :
  add_nodes cfg fuel h g F nesting = Ok g' →
  ∃ new,
    admitted g' = admitted g ++ new
    ∧ new.*1 = seqZ nesting (len new)
    ∧ (new = [] → truncated g' = nesting)
    ∧ (_should_add_nested_nodes (g_class g) = true →
       ∀ j ns, (j, ns) ∈ new → ns ≠ [] → max_nesting g ≤ j →
               truncated g' = j)
    ∧ (∀ j ns n, (j, ns) ∈ new → n ∈ ns → set_in n (added g') = true)
    ∧ (∀ n, n ∈ added g' → n ∈ added g ∨ ∃ j ns, (j, ns) ∈ new ∧ n ∈ ns).
Proof.
  revert fuel g F nesting g'.
  apply (add_nodes_hops cfg h (λ g F nesting g',
    ∃ new,
      admitted g' = admitted g ++ new
      ∧ new.*1 = seqZ nesting (len new)
      ∧ (new = [] → truncated g' = nesting)
      ∧ (_should_add_nested_nodes (g_class g) = true →
         ∀ j ns, (j, ns) ∈ new → ns ≠ [] → max_nesting g ≤ j →
                 truncated g' = j)
      ∧ (∀ j ns n, (j, ns) ∈ new → n ∈ ns → set_in n (added g') = true)
      ∧ (∀ n, n ∈ added g' →
           n ∈ added g ∨ ∃ j ns, (j, ns) ∈ new ∧ n ∈ ns))); cbv beta.
  - intros g F nesting hn he g1 _
      (_ & _ & Ha & Hd & Ht & _)%add_to_graph_Ok.
    exists []. rewrite Hd, Ha, app_nil_r.
    split_and!; [done..| | |by left].
    + by intros _ ?? ?%elem_of_nil.
    + by intros ??? ?%elem_of_nil.
  - intros g F nesting hn he g1 _
      (_ & _ & Ha & Hd & Ht & _)%add_to_graph_Ok Hlast.
    destruct (extra_attributes_fields g1) as (_ & -> & -> & -> & _).
    exists [(nesting, hn)]. rewrite Hd, Ha. split_and!; [done..| | |].
    + intros Hnest j ns [= -> ->]%list_elem_of_singleton Hne.
      destruct Hlast; congruence.
    + intros j ns n [= -> ->]%list_elem_of_singleton Hn.
      by apply set_in_update_r.
    + intros n [?|?]%set_update_elem; [by left|right].
      exists nesting, hn. split; [by apply list_elem_of_singleton|done].
  - intros g F nesting hn he g1 g' fuel _ Hadd Hnest Hne Hdepth Hrun
      (new & Hd' & Hseq & Hnone & Htr & Hin & Hout).
    pose proof (add_to_graph_Ok _ _ _ _ _ _ _ Hadd)
      as ((Hcl & _ & _ & Hmn & _) & _ & Ha & Hd & _).
    destruct (extra_attributes_fields g1)
      as ((Hcl' & _ & _ & Hmn' & _) & Ha' & Hd'' & _).
    rewrite Hcl', Hcl, Hmn', Hmn in Htr. rewrite Hd'', Hd in Hd'.
    rewrite Ha', Ha in Hout.
    exists ((nesting, hn) :: new). split_and!.
    + by rewrite Hd', <-app_assoc.
    + cbn [fmap list_fmap fst]. rewrite Hseq.
      replace (len ((nesting, hn) :: new)) with (Z.succ (len new))
        by (unfold len; simpl; lia).
      rewrite (seqZ_cons nesting) by (unfold len; lia).
      f_equal. f_equal; lia.
    + done.
    + intros _ j ns [[= -> ->]|Hj]%elem_of_cons Hns Hlim; [lia|].
      by eapply Htr.
    + intros j ns n [[= -> ->]|Hj]%elem_of_cons Hn; [|by eapply Hin].
      eapply add_nodes_mono; [done|]. rewrite Ha', Ha.
      by apply set_in_update_r.
    + intros n [[?|?]%set_update_elem|(j & ns & Hj & Hn)]%Hout.
      * by left.
      * right. exists nesting, hn. split; [by left|done].
      * right. exists j, ns. split; [by right|done].
  - intros g F nesting hn he g1 _
      (_ & _ & Ha & Hd & _)%add_to_graph_Ok Hnest Hne Hdepth.
    destruct (set_truncated_fields (_extra_attributes g1) nesting)
      as (_ & -> & -> & -> & _).
    destruct (extra_attributes_fields g1) as (_ & -> & -> & _).
    exists [(nesting, hn)]. rewrite Hd, Ha. split_and!; [done..| | |].
    + by intros _ j ns [= -> ->]%list_elem_of_singleton _ _.
    + intros j ns n [= -> ->]%list_elem_of_singleton Hn.
      by apply set_in_update_r.
    + intros n [?|?]%set_update_elem; [by left|right].
      exists nesting, hn. split; [by apply list_elem_of_singleton|done].
Qed.

(** C6 (depth limit), as the code has it, on the graph [__init__] returns.
    The hops admitted to the graph are numbered 1, 2, ... without a gap, and
    none has a number above the depth limit or, when that limit is below
    one, above 1: the first hop is always built, so a graph without an
    admitted hop is one whose first hop was refused and which is marked
    truncated at hop 1. In a graph of a class that follows relations hop by
    hop, an admitted hop with nodes whose number has reached the depth
    limit is where the graph is marked truncated. The nodes of the admitted
    hops are in the added set, and the added set holds nothing but the
    roots and the nodes of the admitted hops. *)
Theorem C6_depth cfg fuel c root webdir ident_ s g s' :
  __init__ cfg fuel c root webdir ident_ s = Ok (g, s') →
  (∀ j ns, (j, ns) ∈ admitted g → 1 ≤ j ≤ Z.max 1 (max_nesting g))
  ∧ (admitted g).*1 = seqZ 1 (len (admitted g))
  ∧ (admitted g = [] → truncated g = 1)
  ∧ (_should_add_nested_nodes c = true →
     ∀ j ns, (j, ns) ∈ admitted g → ns ≠ [] → max_nesting g ≤ j →
             truncated g = j)
  ∧ (∀ j ns n, (j, ns) ∈ admitted g → n ∈ ns → set_in n (added g) = true)
  ∧ (∀ n, n ∈ added g →
       n ∈ Graphs.root g ∨ ∃ j ns, (j, ns) ∈ admitted g ∧ n ∈ ns).
Proof.
  intros (rs & root_nodes & mn & mx & w & id & g1 & g2
          & _ & _ & _ & Hg1 & Hg2 & Hg)%init_Ok.
  apply add_roots_Ok in Hg1 as ((Hc1 & Hr1 & _) & Ha1 & Hd1 & _).
  change (admitted (new_graph c root_nodes mn mx w webdir id))
    with (@nil (Z * list NodeRef)) in Hd1.
  change (added (new_graph c root_nodes mn mx w webdir id))
    with (@nil NodeRef) in Ha1.
  simpl in Hc1, Hr1. rewrite <-Hr1 in Ha1.
  pose proof (add_nodes_spec _ _ _ _ _ _ _ Hg2)
    as ((_ & Hr2 & _ & Hmn2 & _) & _ & Hhops).
  destruct (add_nodes_admitted _ _ _ _ _ _ _ Hg2)
    as (new & Hd2 & Hseq & Hnone & Htr & Hin & Hout).
  apply render_Ok in Hg as ((_ & Hr3 & _ & Hmn3 & _) & Ha3 & Hd3 & Ht3 & _).
  rewrite Hd1 in Hd2, Hhops. rewrite app_nil_l in Hd2. subst new.
  rewrite Hc1 in Htr. rewrite Hd3, Ht3, Ha3, Hmn3, Hr3, Hr2, Hmn2.
  simpl in Ha1.
  split; [|split; [exact Hseq|split; [exact Hnone|split;
    [exact Htr|split; [exact Hin|]]]]].
  - intros j ns [Hj|Hj]%Hhops; [by apply elem_of_nil in Hj|done].
  - intros n [Hn|Hn]%Hout; [|by right]. left.
    rewrite Ha1 in Hn. by apply set_update_elem in Hn as [?%elem_of_nil|?].
Qed.

(** [C6_depth] on the chain of modules with a depth of one: hop 1, the
    modules [b] and [c], is admitted and reaches the limit, so the graph is
    marked truncated at hop 1. *)
Lemma C6_depth_witness :
  ∃ g s' ns,
    __init__ plain 3 UsesGraph [0%nat] EmptyString None
      (start (chain_modules 1 10 false)) = Ok (g, s')
    ∧ admitted g = [(1, ns)] ∧ ns ≠ [] ∧ max_nesting g = 1
    ∧ (∀ n, n ∈ ns → set_in n (added g) = true)
    ∧ truncated g = 1.
Proof.
  assert (∃ g s' ns,
            __init__ plain 3 UsesGraph [0%nat] EmptyString None
              (start (chain_modules 1 10 false)) = Ok (g, s')
            ∧ admitted g = [(1, ns)] ∧ ns ≠ [] ∧ max_nesting g = 1)
    as (g & s' & ns & Hrun & Ha & Hns & Hm).
  { eexists _, _, _. split; [vm_compute; reflexivity|].
    split; [vm_compute; reflexivity|]. split; [discriminate|].
    vm_compute; reflexivity. }
  pose proof (C6_depth _ _ _ _ _ _ _ _ _ Hrun)
    as (_ & _ & _ & Htr & Hin & _).
  assert ((1, ns) ∈ admitted g) as Hhop by (rewrite Ha; apply list_elem_of_here).
  exists g, s', ns. split; [exact Hrun|]. split; [exact Ha|].
  split; [exact Hns|]. split; [exact Hm|]. split.
  - intros n Hn. exact (Hin 1 ns n Hhop Hn).
  - apply (Htr eq_refl 1 ns Hhop Hns). rewrite Hm. apply Z.le_refl.
Defined.

(** ** The order of processing *)

Lemma foldl_edges {A} (edges : A → list Edge) (f : Hop → A → Hop) l :
  (∀ hop p, (f hop p).2 = hop.2 ++ edges p) →
  ∀ hop, (foldl f hop l).2 = hop.2 ++ concat (edges <$> l).
Proof.
  intros Hf. induction l as [|p l IH]; intros hop; simpl.
  - by rewrite app_nil_r.
  - by rewrite IH, Hf, app_assoc.
Qed.

Lemma concat_singletons {A B} (f : A → B) (l : list A) :
  concat ((λ x, [f x]) <$> l) = f <$> l.
Proof. induction l as [|x l IH]; [done|exact (f_equal (cons (f x)) IH)]. Qed.

Lemma foldl_visit_edges added edge l hop :
  (foldl (visit added edge) hop l).2 = hop.2 ++ (edge <$> l).
Proof.
  rewrite (foldl_edges (λ n, [edge n])); [|done].
  by rewrite concat_singletons.
Qed.

Lemma foldl_visit_any_edges edge l hop :
  (foldl (visit_any edge) hop l).2 = hop.2 ++ (edge <$> l).
Proof.
  rewrite (foldl_edges (λ n, [edge n])); [|done].
  by rewrite concat_singletons.
Qed.

Lemma foldl_labelled_edges added (edge : NodeRef → string → Edge)
    (d : list (NodeRef * string)) hop :
  (foldl (λ hop '(c, lbl), visit added (λ c, edge c lbl) hop c) hop d).2
  = hop.2 ++ ((λ p, edge p.1 p.2) <$> d).
Proof.
  rewrite (foldl_edges (λ p, [edge p.1 p.2])); [|by intros ? []].
  by rewrite (concat_singletons (λ p, edge p.1 p.2)).
Qed.

Lemma foldl_keys_edges added (ks : list NodeRef) (hop : Hop) :
  (foldl (λ (hop : Hop) k,
            ((if set_in k added then hop.1 else set_add k hop.1), hop.2))
     hop ks).2 = hop.2.
Proof.
  rewrite (foldl_edges (λ _, [])); [|intros; by rewrite app_nil_r].
  induction ks as [|k ks IH]; simpl; [by rewrite app_nil_r|done].
Qed.

Lemma emits_edges k added hop hop' :
  emits k → k added hop = Ok hop' →
  ∃ hop0, k [] ([], []) = Ok hop0 ∧ hop'.2 = hop.2 ++ hop0.2.
Proof.
  intros [(es & Hes)|Hno] Hk; [|by destruct (Hno _ _ _ Hk)].
  destruct (Hes added hop) as (hop1 & Hk1 & He1).
  destruct (Hes [] ([], [])) as (hop0 & Hk0 & He0).
  exists hop0. split; [done|]. rewrite He0. simpl.
  rewrite Hk in Hk1. by injection Hk1 as <-.
Qed.

Lemma ancestor_present_emits h node colour :
  emits (λ added hop, visit_ancestor_if_present h added node colour hop).
Proof.
  unfold emits, visit_ancestor_if_present.
  destruct (lookup_attr h node "ancestor") as [[v|]| |]; simpl;
    [destruct v| | |]; try (by right).
  - left. exists [_solid_edge node r colour None]. intros. eexists.
    split; [done|]. done.
  - left. exists []. intros. eexists. split; [done|]. by rewrite app_nil_r.
Qed.

Lemma ancestor_truthy_emits h node colour :
  emits (λ added hop, visit_ancestor_if_truthy h added node colour hop).
Proof.
  assert (emits (λ (_ : list NodeRef) (hop : Hop), Ok hop)) as Hskip.
  { left. exists []. intros. eexists. split; [done|]. by rewrite app_nil_r. }
  unfold visit_ancestor_if_truthy.
  destruct (lookup_attr h node "ancestor") as [[v|]| |]; simpl;
    try (by right).
  destruct v as [|[]|z|str|r|st|d|d]; try done; try (by right).
  - destruct z; [done|by right..].
  - destruct (String.eqb _ _); [done|by right].
  - left. exists [_solid_edge node r colour None]. intros. eexists.
    split; [done|]. done.
  - destruct st; [done|by right].
  - destruct d; [done|by right].
  - destruct d; [done|by right].
Qed.

Lemma emits_after (f : list NodeRef → Hop → Hop) es k :
  (∀ added hop, (f added hop).2 = hop.2 ++ es) →
  emits k → emits (λ added hop, k added (f added hop)).
Proof.
  intros Hf [(es2 & Hes)|Hno]; [left|right; intros; apply Hno].
  exists (es ++ es2). intros added hop.
  destruct (Hes added (f added hop)) as (hop' & Hk & He).
  exists hop'. split; [done|]. by rewrite He, Hf, app_assoc.
Qed.

Lemma emits_pure (f : list NodeRef → Hop → Hop) es :
  (∀ added hop, (f added hop).2 = hop.2 ++ es) →
  emits (λ added hop, Ok (f added hop)).
Proof. intros Hf. left. exists es. intros. eexists. split; [done|apply Hf]. Qed.

Lemma uses_add_node_emits h node colour :
  emits (λ added hop, uses_add_node h added hop node colour).
Proof.
  unfold uses_add_node.
  destruct (iter_attr h node "uses") as [us| |]; simpl; [|by right..].
  apply (emits_after
           (λ added hop,
              foldl (visit added (λ nu, _dashed_edge node nu colour None))
                hop (sorted us))
           ((λ nu, _dashed_edge node nu colour None) <$> sorted us)
           (λ added hop, visit_ancestor_if_present h added node colour hop)).
  - intros. apply foldl_visit_edges.
  - apply ancestor_present_emits.
Qed.

Lemma inherits_add_node_emits h node colour :
  emits (λ added hop, inherits_add_node h added hop node colour).
Proof.
  unfold inherits_add_node.
  destruct (dict_attr h node "comp_types") as [d| |]; simpl; [|by right..].
  apply (emits_after
           (λ added hop,
              foldl (λ hop '(c, lbl),
                       visit added
                         (λ c, _dashed_edge node c colour (Some lbl)) hop c)
                hop d)
           ((λ p, _dashed_edge node p.1 colour (Some p.2)) <$> d)
           (λ added hop, visit_ancestor_if_truthy h added node colour hop)).
  - intros added0 hop.
    apply (foldl_labelled_edges added0
             (λ c lbl, _dashed_edge node c colour (Some lbl))).
  - apply ancestor_truthy_emits.
Qed.

Lemma add_node_emits c h node colour :
  emits (λ added hop, _add_node c h added hop node colour).
Proof.
  destruct c; unfold _add_node.
  - by right.
  - apply uses_add_node_emits.
  - apply uses_add_node_emits.
  - destruct (iter_attr_default h node "used_by") as [ub| |]; simpl;
      [|by right..].
    destruct (iter_attr_default h node "children") as [ch| |]; simpl;
      [|by right..].
    eapply emits_pure. intros.
    by rewrite !foldl_visit_edges, <-app_assoc.
  - destruct (iter_attr h node "efferent") as [ef| |]; simpl; [|by right..].
    eapply emits_pure. intros. by rewrite !foldl_visit_edges.
  - destruct (iter_attr h node "efferent") as [ef| |]; simpl; [|by right..].
    eapply emits_pure. intros. by rewrite !foldl_visit_edges.
  - destruct (iter_attr h node "afferent") as [af| |]; simpl; [|by right..].
    eapply emits_pure. intros. by rewrite !foldl_visit_edges.
  - destruct (iter_attr h node "comp_types") as [ks| |]; simpl;
      [|by right..].
    apply (emits_after
             (λ added hop,
                foldl (λ hop k,
                         ((if set_in k added then hop.1
                           else set_add k hop.1), hop.2)) hop ks) []
             (λ added hop, inherits_add_node h added hop node colour)).
    + intros. by rewrite foldl_keys_edges, app_nil_r.
    + apply inherits_add_node_emits.
  - apply inherits_add_node_emits.
  - destruct (dict_attr h node "comp_of") as [d| |]; simpl; [|by right..].
    destruct (iter_attr h node "children") as [ch| |]; simpl; [|by right..].
    eapply emits_pure. intros added0 hop.
    rewrite foldl_visit_edges.
    rewrite (foldl_labelled_edges added0
               (λ c lbl, _dashed_edge c node colour (Some lbl))).
    by rewrite <-app_assoc.
  - destruct (iter_attr h node "calls") as [cs| |]; simpl; [|by right..].
    destruct (iter_attr_default h node "interfaces") as [ifs| |]; simpl;
      [|by right..].
    eapply emits_pure. intros.
    by rewrite !foldl_visit_any_edges, <-app_assoc.
  - destruct (iter_attr h node "calls") as [cs| |]; simpl; [|by right..].
    destruct (iter_attr_default h node "interfaces") as [ifs| |]; simpl;
      [|by right..].
    eapply emits_pure. intros.
    by rewrite !foldl_visit_edges, <-app_assoc.
  - destruct (bool_decide (node_type node = ProgNode)).
    { apply (emits_pure (λ _ hop, hop) []). intros. by rewrite app_nil_r. }
    destruct (iter_attr h node "called_by") as [cb| |]; simpl; [|by right..].
    destruct (iter_attr_default h node "interfaced_by") as [ib| |]; simpl;
      [|by right..].
    eapply emits_pure. intros.
    by rewrite !foldl_visit_edges, <-app_assoc.
Qed.

(** The edges [_add_node] appends for a node are those of [edges_of]. *)
Lemma add_node_edges c h added hop node colour hop' :
  _add_node c h added hop node colour = Ok hop' →
  hop'.2 = hop.2 ++ edges_of c h node colour.
Proof.
  intros H.
  destruct (emits_edges _ _ _ _ (add_node_emits c h node colour) H)
    as (hop0 & H0 & ->).
  unfold edges_of. by rewrite H0.
Qed.

(** The loop of [add_nodes] takes the nodes as they come, the [k]-th in the
    colour of rank [i + k]. *)
Lemma collect_hop_edges cfg c h added total : ∀ nodes i hop hop',
  collect_hop cfg c h added total i nodes hop = Ok hop' →
  hop'.2
  = hop.2
    ++ concat (imap (λ k n, edges_of c h n (rainbowcolour cfg (i + k) total))
                 nodes).
Proof.
  induction nodes as [|node nodes IH]; intros i hop hop'; simpl.
  - intros [= <-]. by rewrite app_nil_r.
  - intros (hop1 & Hnode & Hrest)%rbind_Ok.
    rewrite (IH _ _ _ Hrest), (add_node_edges _ _ _ _ _ _ _ Hnode).
    rewrite <-app_assoc, Nat.add_0_r. do 3 f_equal.
    apply imap_ext. intros k n _. simpl. do 2 f_equal. lia.
Qed.

(** The edges of a whole hop. *)
Lemma collect_hop_whole cfg c h added F hn he :
  collect_hop cfg c h added (length F) 0 (sorted F) ([], []) = Ok (hn, he) →
  he = edges_of_hop cfg c h F.
Proof. intros Hhop. by apply collect_hop_edges in Hhop. Qed.

(** The edges and the nodes of one admitted hop, as the diagram shows
    them. *)
Lemma hop_admitted_order cfg h g F nesting hn he g1 :
  collect_hop cfg (g_class g) h (added g) (length F) 0 (sorted F) ([], [])
  = Ok (hn, he) →
  add_to_graph h g hn he nesting = Ok (g1, true) →
  admitted (_extra_attributes g1) = admitted g ++ [(nesting, hn)]
  ∧ g_class (_extra_attributes g1) = g_class g
  ∧ added (_extra_attributes g1) = set_update (added g) hn
  ∧ drawn (_extra_attributes g1)
    = drawn g ++ edges_of_hop cfg (g_class g) h F
  ∧ declared (_extra_attributes g1)
    = declared g ++ (node_ident <$> sorted hn).
Proof.
  intros Hhop Hadd.
  destruct (add_to_graph_drawn _ _ _ _ _ _ Hadd) as [Hdecl Hdrawn].
  apply add_to_graph_Ok in Hadd as ((Hcl & _) & _ & Ha & Hd & _).
  destruct (extra_attributes_drawn g1) as [-> ->].
  destruct (extra_attributes_fields g1) as ((-> & _) & -> & -> & _).
  apply collect_hop_whole in Hhop.
  split; [done|]. split; [done|]. split; [done|]. split; [|done].
  by rewrite Hdrawn, Hhop.
Qed.

(** A single admitted hop is what the loop of [add_nodes] collects from
    the collection [F] taken in the order of [sorted]. *)
Lemma hops_collected_one cfg c h A F (nesting : Z) (hn : list NodeRef) he :
  collect_hop cfg c h A (length F) 0 (sorted F) ([], []) = Ok (hn, he) →
  ∀ k Fk j ns,
    (F :: [(nesting, hn)].*2) !! k = Some Fk →
    [(nesting, hn)] !! k = Some (j, ns) →
    collect_hop cfg c h (foldl set_update A (take k [(nesting, hn)].*2))
      (length Fk) 0 (sorted Fk) ([], [])
    = Ok (ns, edges_of_hop cfg c h Fk).
Proof.
  intros Hhop [|k] Fk j ns; [|by destruct k].
  intros [= <-] [= <- <-]. simpl.
  by rewrite <-(collect_hop_whole _ _ _ _ _ _ _ Hhop).
Qed.

(** What [add_nodes] draws: hop by hop, the edges of the collection it was
    given and then of each admitted hop but the last, and the nodes of each
    admitted hop in their total order; each admitted hop is what the loop
    collects from the hop before it in the order of [sorted]; and a first
    hop that is refused leaves its edges, in that order, as fallback. *)
Lemma add_nodes_order cfg h fuel g F nesting g' :
  add_nodes cfg fuel h g F nesting = Ok g' →
  ∃ new,
    admitted g' = admitted g ++ new
    ∧ drawn g'
      = drawn g
        ++ concat (edges_of_hop cfg (g_class g) h
                     <$> take (length new) (F :: new.*2))
    ∧ declared g'
      = declared g
        ++ concat ((λ ns, node_ident <$> sorted ns) <$> new.*2)
    ∧ (new = [] → nesting < 2 →
       truncated g' = nesting
       ∧ hop_edges g' = edges_of_hop cfg (g_class g) h F)
    ∧ ∀ k Fk j ns,
        (F :: new.*2) !! k = Some Fk → new !! k = Some (j, ns) →
        collect_hop cfg (g_class g) h
          (foldl set_update (added g) (take k new.*2))
          (length Fk) 0 (sorted Fk) ([], [])
        = Ok (ns, edges_of_hop cfg (g_class g) h Fk).
Proof.
  revert fuel g F nesting g'.
  apply (add_nodes_hops cfg h (λ g F nesting g',
    ∃ new,
      admitted g' = admitted g ++ new
      ∧ drawn g'
        = drawn g
          ++ concat (edges_of_hop cfg (g_class g) h
                       <$> take (length new) (F :: new.*2))
      ∧ declared g'
        = declared g
          ++ concat ((λ ns, node_ident <$> sorted ns) <$> new.*2)
      ∧ (new = [] → nesting < 2 →
         truncated g' = nesting
         ∧ hop_edges g' = edges_of_hop cfg (g_class g) h F)
      ∧ ∀ k Fk j ns,
          (F :: new.*2) !! k = Some Fk → new !! k = Some (j, ns) →
          collect_hop cfg (g_class g) h
            (foldl set_update (added g) (take k new.*2))
            (length Fk) 0 (sorted Fk) ([], [])
          = Ok (ns, edges_of_hop cfg (g_class g) h Fk)));
    cbv beta.
  - intros g F nesting hn he g1 Hhop
      (_ & _ & _ & Hd & Ht & Hdot & H1 & _)%add_to_graph_Ok.
    exists []. unfold drawn, declared. rewrite Hd, Hdot. simpl.
    rewrite !app_nil_r. split_and!; [done..| |done].
    intros _ Hn. destruct (H1 Hn) as [_ ->]. split; [done|].
    by eapply collect_hop_whole.
  - intros g F nesting hn he g1 Hhop Hadd _.
    destruct (hop_admitted_order _ _ _ _ _ _ _ _ Hhop Hadd)
      as (Hd & _ & _ & Hdr & Hde).
    exists [(nesting, hn)]. rewrite Hd, Hdr, Hde. simpl.
    rewrite !app_nil_r. split_and!; [done..|].
    by apply hops_collected_one with he.
  - intros g F nesting hn he g1 g' fuel Hhop Hadd _ _ _ _
      (new & Hd' & Hdr' & Hde' & _ & Hcol).
    destruct (hop_admitted_order _ _ _ _ _ _ _ _ Hhop Hadd)
      as (Hd & Hcl & Ha & Hdr & Hde).
    exists ((nesting, hn) :: new).
    rewrite Hd', Hdr', Hde', Hd, Hdr, Hde, Hcl. simpl.
    rewrite <-!app_assoc. split_and!; [done..|].
    intros [|k] Fk j ns.
    + intros [= <-] [= <- <-]. simpl.
      by rewrite <-(collect_hop_whole _ _ _ _ _ _ _ Hhop).
    + rewrite Hcl, Ha in Hcol. intros HF Hk. exact (Hcol k Fk j ns HF Hk).
  - intros g F nesting hn he g1 Hhop Hadd _ _ _.
    destruct (hop_admitted_order _ _ _ _ _ _ _ _ Hhop Hadd)
      as (Hd & _ & _ & Hdr & Hde).
    destruct (set_truncated_drawn (_extra_attributes g1) nesting) as [-> ->].
    destruct (set_truncated_fields (_extra_attributes g1) nesting)
      as (_ & _ & -> & _).
    exists [(nesting, hn)]. rewrite Hd, Hdr, Hde. simpl.
    rewrite !app_nil_r. split_and!; [done..|].
    by apply hops_collected_one with he.
Qed.

(** C7 (determinism). Building a graph again from the registry the first
    build left returns the same graph, field by field: the same nodes and
    edges in the same order in [dot], the same colours, the same [added]
    set; and the registry is left as it was. Within a hop the nodes are
    processed in their total order. The edges of the diagram are, hop by
    hop for the admitted hops, those of the collection the hop started
    from (the roots, then the nodes of the hop before), taken in the order
    of [sorted], each node's edges in the colour [rainbowcolour] gives its
    rank in that order; the nodes the diagram declares are the roots and
    then, hop by hop, the nodes of the hop in the order of [sorted]. Every
    admitted hop is what the loop of [add_nodes] collects from the hop
    before it in the order of [sorted], given the nodes added until then;
    and when no hop is admitted, the first hop was refused and its edges,
    in that order, are the fallback edges. [sorted] returns its argument in
    the total order of the nodes, and the result of [add_nodes] does not
    depend on the order in which the collection of distinct nodes it is
    given hands them over. *)
Theorem C7_deterministic cfg fuel c root webdir ident_ s g s' :
  __init__ cfg fuel c root webdir ident_ s = Ok (g, s') →
  (∀ fuel', __init__ cfg (S fuel') c root webdir ident_ s' = Ok (g, s'))
  ∧ drawn g
    = concat (edges_of_hop cfg c (heap s')
                <$> take (length (admitted g))
                      (Graphs.root g :: (admitted g).*2))
  ∧ declared g
    = (node_ident <$> Graphs.root g)
      ++ concat ((λ ns, node_ident <$> sorted ns) <$> (admitted g).*2)
  ∧ (∀ k F j ns,
       (Graphs.root g :: (admitted g).*2) !! k = Some F →
       admitted g !! k = Some (j, ns) →
       collect_hop cfg c (heap s')
         (foldl set_update (set_update [] (Graphs.root g))
            (take k (admitted g).*2))
         (length F) 0 (sorted F) ([], [])
       = Ok (ns, edges_of_hop cfg c (heap s') F))
  ∧ (admitted g = [] →
     truncated g = 1
     ∧ hop_edges g = edges_of_hop cfg c (heap s') (Graphs.root g))
  ∧ (∀ nodes, StronglySorted node_le (sorted nodes) ∧ sorted nodes ≡ₚ nodes)
  ∧ ∀ fuel1 h g0 nodes nodes' nesting,
      nodes ≡ₚ nodes' → NoDup (node_ident <$> nodes) →
      add_nodes cfg fuel1 h g0 nodes nesting
      = add_nodes cfg fuel1 h g0 nodes' nesting.
Proof.
  intros (rs & root_nodes & mn & mx & w & id & g1 & g2
          & Hrs & Hroots & Hid & Hg1 & Hg2 & Hg)%init_Ok.
  split.
  { intros fuel'. apply init_Ok.
    exists rs, root_nodes, mn, mx, w, id, g1, g2.
    pose proof (resolve_roots_Ok _ _ _ _ _ _ _ _ _ _ _ _ _ Hroots) as (Hext & _).
    split; [by eapply deref_all_ext|]. split; [|done].
    eapply resolve_roots_again; [|done|reflexivity].
    apply deref_all_Ok in Hrs as [_ Hall]. by rewrite sorted_by_perm. }
  assert (drawn g1 = [] ∧ declared g1 = node_ident <$> Graphs.root g1
          ∧ g_class g1 = c ∧ admitted g1 = []
          ∧ added g1 = set_update [] (Graphs.root g1))
    as (He1 & Hde1 & Hc1 & Hd1 & Ha1).
  { destruct (add_roots_drawn _ _ _ Hg1) as [Hde He].
    apply add_roots_Ok in Hg1 as ((Hc & Hr1 & _) & Ha & Hd1 & _).
    change (drawn (new_graph c root_nodes mn mx w webdir id)) with
      (@nil Edge) in He.
    change (declared (new_graph c root_nodes mn mx w webdir id)) with
      (@nil string) in Hde.
    change (admitted (new_graph c root_nodes mn mx w webdir id))
      with (@nil (Z * list NodeRef)) in Hd1.
    change (added (new_graph c root_nodes mn mx w webdir id))
      with (@nil NodeRef) in Ha.
    simpl in Hc, Hr1, Hde, Ha. rewrite <-Hr1 in Hde, Ha. by split_and!. }
  destruct (add_nodes_order _ _ _ _ _ _ _ Hg2)
    as (new & Hd2 & Hdr & Hdecl & Hnone & Hcol).
  pose proof (add_nodes_spec _ _ _ _ _ _ _ Hg2) as ((_ & Hr2 & _) & _).
  apply render_Ok in Hg
    as ((_ & Hr3 & _) & _ & Hd3 & Ht3 & _ & Hhe3 & Hdot).
  rewrite Hd1, app_nil_l in Hd2. subst new.
  rewrite Hc1 in Hdr, Hnone, Hcol. rewrite Ha1 in Hcol.
  rewrite He1, app_nil_l in Hdr. rewrite Hde1 in Hdecl.
  unfold drawn at 1, declared at 1. rewrite Hdot.
  fold (drawn g2). fold (declared g2).
  rewrite Hd3, Hr3, Hr2, Ht3, Hhe3.
  split; [exact Hdr|]. split; [exact Hdecl|]. split; [exact Hcol|].
  split; [intros Hnil; apply (Hnone Hnil); lia|]. split.
  - intros nodes. split; [apply sorted_nodes|apply sorted_by_perm].
  - intros [|fuel1] h g0 nodes nodes' nesting Hperm Hnd; [done|].
    simpl. unfold add_nodes_with.
    by rewrite (sorted_unique nodes nodes'), (Permutation_length Hperm).
Qed.

(** [C7_deterministic] on the chain of modules: the second build returns
    the graph of the first, the edges of the diagram are those of the hops
    in the order of [sorted], and a hop of the nodes [c], [b] is processed
    as the hop [b], [c]. *)
Lemma C7_deterministic_witness :
  ∃ g s',
    __init__ plain 3 UsesGraph [0%nat] EmptyString None
      (start (chain_modules 10 10 false)) = Ok (g, s')
    ∧ __init__ plain 1 UsesGraph [0%nat] EmptyString None s' = Ok (g, s')
    ∧ drawn g
      = concat (edges_of_hop plain UsesGraph (heap s')
                  <$> take (length (admitted g))
                        (Graphs.root g :: (admitted g).*2))
    ∧ declared g
      = (node_ident <$> Graphs.root g)
        ++ concat ((λ ns, node_ident <$> sorted ns) <$> (admitted g).*2)
    ∧ add_nodes plain 2 (heap s') g
        [{| addr := 3; node_ident := "module~c"; node_type := ModNode |};
         {| addr := 1; node_ident := "module~b"; node_type := ModNode |}] 1
      = add_nodes plain 2 (heap s') g
          [{| addr := 1; node_ident := "module~b"; node_type := ModNode |};
           {| addr := 3; node_ident := "module~c"; node_type := ModNode |}] 1.
Proof.
  assert (∃ g s',
            __init__ plain 3 UsesGraph [0%nat] EmptyString None
              (start (chain_modules 10 10 false)) = Ok (g, s'))
    as (g & s' & Hrun) by (eexists _, _; vm_compute; reflexivity).
  exists g, s'. split; [exact Hrun|].
  pose proof (C7_deterministic _ _ _ _ _ _ _ _ _ Hrun)
    as (Hagain & Hdrawn & Hdecl & _ & _ & _ & Horder).
  split; [apply Hagain|]. split; [exact Hdrawn|]. split; [exact Hdecl|].
  apply Horder.
  - apply Permutation_swap.
  - apply NoDup_cons. split; [|apply NoDup_singleton].
    by intros [=]%list_elem_of_singleton.
Defined.

End GraphClaims.
